(** * Product synchronisation glue: a shallow embedding and its properties

    The development follows the TypeScript sources file by file:

    - [Js]: the pieces of the JavaScript run time the sources lean on
      (truthiness, [Set] and [Map] construction, string case mapping,
      the regular-expression replacements, [JSON.stringify] on strings,
      decimal rendering of integers, results that may throw);
    - [DailyProductSync]: [jobs/daily-product-sync.ts];
    - [BatchProducts]: [workflows/batch-products.ts];
    - [SyncProducts]: the earlier single-workflow variant of the sync;
    - [ProductsExport]: the CSV export route;
    - [Scripts]: the manual run of the job, [scripts/test-sync.ts];
    - [Model], [Eff], [Samples]: the records the sources pass around, the
      effects of the job (clock, log and network trace, exceptions), and
      concrete inputs the statements are run on.

    Part II holds the proofs, one module of supporting facts and one module
    of results per topic: the create/update split, retries, pagination, the
    job's batch loop, link deduplication, compensation, brand and category
    deduplication, status mapping and the export rows.  Part III goes on
    in the same way with further properties of the code: the retry schedule
    for any number of retries, the shape of handles, the edges of the
    generator and of the job, the steps of both workflows one by one, the
    export route, and what the job and the workflow do together.

    Strings are byte strings; case mapping is the ASCII one.  Numbers that
    the sources only use as integers (ids, totals, offsets, amounts in
    cents) are [Z]; the catalogue price is a rational.  Calls into the host
    framework (module services, the workflow engine, [fetch]) are oracles
    passed in as arguments. *)

From Stdlib Require Import ZArith Lia List String Ascii Bool.
From Stdlib Require Import DecimalString DecimalPos DecimalZ QArith Qround.
From stdpp Require Import base option list gmap strings.

Close Scope Q_scope.

(* ===================================================================== *)
(** * Part I: definitions                                                 *)
(* ===================================================================== *)

Module Js.

(** ** Values that may throw *)

Inductive Error := mkError (message : string).

Inductive Result (A : Type) :=
| Ok (a : A)
| Throw (e : Error).
Arguments Ok {A} a.
Arguments Throw {A} e.

(** ** Truthiness *)

(** A string is falsy exactly when it is empty. *)
Definition truthy (s : string) : bool :=
  match s with
  | EmptyString => false
  | String _ _ => true
  end.

(** [undefined] and [null] are falsy. *)
Definition truthy_opt (o : option string) : bool :=
  match o with
  | Some s => truthy s
  | None => false
  end.

(** ** [Array.from(new Set(xs))] and [new Map(entries)] *)

(** A [Set] keeps the first occurrence of every element, in insertion
    order. *)
Definition Set_add `{EqDecision A} (seen : list A) (x : A) : list A :=
  if decide (x ∈ seen) then seen else seen ++ [x].

Definition unique `{EqDecision A} (xs : list A) : list A :=
  foldl Set_add [] xs.

(** A [Map] built from an entry list: a later entry overwrites an earlier
    one with the same key. *)
Definition putEntry `{Countable K} {V} (m : gmap K V) (kv : K * V) : gmap K V :=
  <[kv.1 := kv.2]> m.

Definition Map_of `{Countable K} {V} (entries : list (K * V)) : gmap K V :=
  foldl putEntry ∅ entries.

(** ** Characters and case *)

Definition code (c : ascii) : N := N_of_ascii c.

Definition is_upper (c : ascii) : bool := (65 <=? code c)%N && (code c <=? 90)%N.
Definition is_lower (c : ascii) : bool := (97 <=? code c)%N && (code c <=? 122)%N.
Definition is_digit (c : ascii) : bool := (48 <=? code c)%N && (code c <=? 57)%N.

Definition toLowerChar (c : ascii) : ascii :=
  if is_upper c then ascii_of_N (code c + 32) else c.
Definition toUpperChar (c : ascii) : ascii :=
  if is_lower c then ascii_of_N (code c - 32) else c.

Fixpoint toLowerCase (s : string) : string :=
  match s with
  | EmptyString => EmptyString
  | String c r => String (toLowerChar c) (toLowerCase r)
  end.

Fixpoint toUpperCase (s : string) : string :=
  match s with
  | EmptyString => EmptyString
  | String c r => String (toUpperChar c) (toUpperCase r)
  end.

(** ** The regular-expression replacements *)

(** [s.replace(/[^a-z0-9]+/g, "-")]: every maximal run of characters
    outside [a-z0-9] becomes one dash.  [inRun] tells whether the previous
    character already belonged to such a run. *)
Fixpoint dashRunsFrom (inRun : bool) (s : string) : string :=
  match s with
  | EmptyString => EmptyString
  | String c r =>
      if is_lower c || is_digit c then String c (dashRunsFrom false r)
      else if inRun then dashRunsFrom true r
      else String "-" (dashRunsFrom true r)
  end.

Definition replaceNonAlnumRuns (s : string) : string := dashRunsFrom false s.

Definition is_dash (c : ascii) : bool := (code c =? 45)%N.

Fixpoint dropLeadingDashes (s : string) : string :=
  match s with
  | EmptyString => EmptyString
  | String c r => if is_dash c then dropLeadingDashes r else s
  end.

Fixpoint dropTrailingDashes (s : string) : string :=
  match s with
  | EmptyString => EmptyString
  | String c r =>
      match dropTrailingDashes r with
      | EmptyString => if is_dash c then EmptyString else String c EmptyString
      | r' => String c r'
      end
  end.

(** [s.replace(/^-+|-+$/g, EMPTY)]: leading and trailing dashes go. *)
Definition trimDashes (s : string) : string :=
  dropTrailingDashes (dropLeadingDashes s).

(** The CSV escaping of the export route: [replace] with the global
    pattern matching one double quote (character 34) and a replacement made
    of two of them. *)
Fixpoint doubleQuotes (s : string) : string :=
  match s with
  | EmptyString => EmptyString
  | String c r =>
      if (code c =? 34)%N then String c (String c (doubleQuotes r))
      else String c (doubleQuotes r)
  end.

(** ** Numbers as text *)

(** [n.toString()] for an integer [n] (below 10^21 in size, where
    JavaScript switches to exponent notation). *)
Definition toString (n : Z) : string := NilZero.string_of_int (Z.to_int n).

(** [Math.round]: the nearest integer, halves towards plus infinity. *)
Definition Math_round (x : Q) : Z := Qfloor (x + (1 # 2))%Q.

Definition digitChar (d : Z) : ascii := ascii_of_N (48 + Z.to_N d).

(** [(cents / 100).toFixed(2)] for an integer number of cents below 2^52
    in size.  There the quotient is the double next to the exact quotient,
    less than half a hundredth away from it, so that [toFixed(2)] finds the
    two decimals of the exact quotient; for larger amounts the double is
    too coarse for that, and from 10^21 on [toFixed] writes an exponent. *)
Definition centsToFixed2 (cents : Z) : string :=
  let a := Z.abs cents in
  ((if (cents <? 0)%Z then "-" else EmptyString) +:+ toString (a / 100)%Z +:+ "."
   +:+ String (digitChar ((a / 10) mod 10)%Z)
         (String (digitChar (a mod 10)%Z) EmptyString))%string.

(** [xs.join(sep)]. *)
Definition join (sep : string) (xs : list string) : string := String.concat sep xs.

(** ** [JSON.stringify] and [JSON.parse] on strings *)

Definition dquote : ascii := ascii_of_N 34.
Definition backslash : ascii := ascii_of_N 92.

Definition str1 (a : ascii) : string := String a EmptyString.
Definition str2 (a b : ascii) : string := String a (String b EmptyString).

Definition hexDigit (n : N) : ascii :=
  if (n <? 10)%N then ascii_of_N (48 + n) else ascii_of_N (87 + n).

(** How [JSON.stringify] writes one character of a string: the quote and
    the backslash are escaped, the control characters have a short or a
    four-digit escape, everything else stands for itself. *)
Definition escapeChar (c : ascii) : string :=
  let n := code c in
  if (n =? 34)%N then str2 backslash dquote
  else if (n =? 92)%N then str2 backslash backslash
  else if (n =? 8)%N then str2 backslash "b"
  else if (n =? 9)%N then str2 backslash "t"
  else if (n =? 10)%N then str2 backslash "n"
  else if (n =? 12)%N then str2 backslash "f"
  else if (n =? 13)%N then str2 backslash "r"
  else if (n <? 32)%N then
    String backslash (String "u" (String "0" (String "0"
      (str2 (hexDigit (n / 16)) (hexDigit (n mod 16))))))
  else str1 c.

Fixpoint escapeString (s : string) : string :=
  match s with
  | EmptyString => EmptyString
  | String c r => (escapeChar c +:+ escapeString r)%string
  end.

(** [JSON.stringify(s)] for a string [s]. *)
Definition JSON_stringify_string (s : string) : string :=
  String dquote (escapeString s +:+ str1 dquote)%string.

(** [JSON.stringify(xs)] for an array of strings. *)
Definition JSON_stringify_strings (xs : list string) : string :=
  ("[" +:+ join "," (map JSON_stringify_string xs) +:+ "]")%string.

Definition hexValue (c : ascii) : option N :=
  let n := code c in
  if is_digit c then Some (n - 48)%N
  else if (97 <=? n)%N && (n <=? 102)%N then Some (n - 87)%N
  else if (65 <=? n)%N && (n <=? 70)%N then Some (n - 55)%N
  else None.

Definition hex4 (a b c d : ascii) : option N :=
  match hexValue a, hexValue b, hexValue c, hexValue d with
  | Some x, Some y, Some z, Some w => Some (((x * 16 + y) * 16 + z) * 16 + w)%N
  | _, _, _, _ => None
  end.

(** The character a two-character escape stands for. *)
Definition simpleEscape (e : ascii) : option ascii :=
  let n := code e in
  if (n =? 34)%N then Some dquote
  else if (n =? 92)%N then Some backslash
  else if (n =? 47)%N then Some "/"%char
  else if (n =? 98)%N then Some (ascii_of_N 8)
  else if (n =? 116)%N then Some (ascii_of_N 9)
  else if (n =? 110)%N then Some (ascii_of_N 10)
  else if (n =? 102)%N then Some (ascii_of_N 12)
  else if (n =? 114)%N then Some (ascii_of_N 13)
  else None.

Definition consFst (c : ascii) (p : string * string) : string * string :=
  (String c p.1, p.2).

(** The string part of [JSON.parse]: reads a string literal whose opening
    quote has been consumed, up to its closing quote, and returns the
    decoded text with the rest of the input.  Escapes above code 255 have
    no byte and are refused. *)
Fixpoint parseStringBody (s : string) : option (string * string) :=
  match s with
  | EmptyString => None
  | String c r =>
      if (code c =? 34)%N then Some (EmptyString, r)
      else if (code c =? 92)%N then
        match r with
        | EmptyString => None
        | String e r1 =>
            if (code e =? 117)%N then
              match r1 with
              | String h1 (String h2 (String h3 (String h4 r2))) =>
                  match hex4 h1 h2 h3 h4 with
                  | Some n =>
                      if (n <? 256)%N
                      then consFst (ascii_of_N n) <$> parseStringBody r2
                      else None
                  | None => None
                  end
              | _ => None
              end
            else
              match simpleEscape e with
              | Some c' => consFst c' <$> parseStringBody r1
              | None => None
              end
        end
      else if (code c <? 32)%N then None
      else consFst c <$> parseStringBody r
  end.

(** A string literal with its opening quote. *)
Definition parseString (s : string) : option (string * string) :=
  match s with
  | String c r => if (code c =? 34)%N then parseStringBody r else None
  | EmptyString => None
  end.

(** Consumes the literal [lit] at the head of [s]. *)
Fixpoint expect (lit s : string) : option string :=
  match lit with
  | EmptyString => Some s
  | String a lit' =>
      match s with
      | String b s' => if (code a =? code b)%N then expect lit' s' else None
      | EmptyString => None
      end
  end.


(** ** Shapes of strings *)

(** Every character of [s] passes the test [f]. *)
Fixpoint allChars (f : ascii -> bool) (s : string) : bool :=
  match s with
  | EmptyString => true
  | String c r => f c && allChars f r
  end.

(** The characters of a handle: lower-case letters, digits and the dash. *)
Definition handleChar (c : ascii) : bool := is_lower c || is_digit c || is_dash c.

Definition startsWithDash (s : string) : bool :=
  match s with
  | String c _ => is_dash c
  | EmptyString => false
  end.

Fixpoint endsWithDash (s : string) : bool :=
  match s with
  | EmptyString => false
  | String c EmptyString => is_dash c
  | String _ r => endsWithDash r
  end.

(** No two dashes stand next to each other. *)
Fixpoint noDashRun (s : string) : bool :=
  match s with
  | EmptyString => true
  | String c r => negb (is_dash c && startsWithDash r) && noDashRun r
  end.

(** The integers that [toString] writes in plain decimal notation: from
    10^21 on, JavaScript writes a number with an exponent. *)
Definition decimalRange (n : Z) : Prop := (Z.abs n < 10 ^ 21)%Z.


(** ** Plain objects used as maps *)

(** The property names that every object literal inherits from
    [Object.prototype].  Reading one of them off an object that has no own
    property of that name gives the inherited member, and assigning to
    [__proto__] creates no own property.  The maps of this development hold
    own properties only; a statement about what a lookup by name finds
    therefore leaves these names out. *)
Definition Object_prototype_keys : list string :=
  [ "constructor"; "__defineGetter__"; "__defineSetter__"; "hasOwnProperty";
    "__lookupGetter__"; "__lookupSetter__"; "isPrototypeOf"; "propertyIsEnumerable";
    "toString"; "valueOf"; "__proto__"; "toLocaleString" ].

Definition plainKey (k : string) : Prop := k ∉ Object_prototype_keys.

#[global] Instance plainKey_dec k : Decision (plainKey k).
Proof. unfold plainKey. apply _. Defined.

End Js.

(** ** The data model shared by the job and the workflows *)

Module Model.

(** One record of the remote catalogue.  [brand] and [category] may be
    missing in the JSON. *)
Record DummyProduct := {
  dp_id : Z;
  dp_title : string;
  dp_description : string;
  dp_price : Q;
  dp_discountPercentage : Q;
  dp_brand : option string;
  dp_category : option string;
  dp_thumbnail : string
}.

(** One page of the remote catalogue. *)
Record DummyResponse := {
  dr_products : option (list DummyProduct);
  dr_total : Z;
  dr_skip : Z;
  dr_limit : Z
}.

Record PriceInput := { pr_amount : Z; pr_currency_code : string }.

Record VariantInput := {
  v_title : string;
  v_compare_at_price : option Q;
  v_prices : list PriceInput;
  v_options : gmap string string
}.

Record OptionInput := { o_title : string; o_values : list string }.

(** [ProductInput] of the batch workflow. *)
Record ProductInput := {
  pi_title : string;
  pi_description : string;
  pi_handle : string;
  pi_status : string;
  pi_metadata : gmap string string;
  pi_thumbnail : option string;
  pi_brandName : option string;
  pi_categoryName : option string;
  pi_variants : list VariantInput;
  pi_options : list OptionInput
}.

(** [{ id: string } & Partial<ProductInput>]: every field but the id may
    be absent. *)
Record UpdateInput := {
  u_id : string;
  u_title : option string;
  u_description : option string;
  u_handle : option string;
  u_status : option string;
  u_metadata : option (gmap string string);
  u_thumbnail : option string;
  u_brandName : option string;
  u_categoryName : option string;
  u_variants : option (list VariantInput);
  u_options : option (list OptionInput)
}.

Record BatchWorkflowInput := {
  bw_create : list ProductInput;
  bw_update : list UpdateInput
}.

(** A product as the product module returns it. *)
Record ProductDTO := {
  dto_id : string;
  dto_title : string;
  dto_handle : string;
  dto_metadata : option (gmap string string)
}.

(** [p.metadata?.external_id]. *)
Definition dto_external_id (p : ProductDTO) : option string :=
  m ← dto_metadata p; m !! "external_id".

Record Brand := { b_id : string; b_name : string }.

Record Category := { c_id : string; c_name : string; c_handle : string }.

Record CategoryInput := { ci_name : string; ci_handle : string }.

(** A product-brand link: the object with the product module key holding
    [product_id] and the brand module key holding [brand_id]. *)
Record Link := { l_product_id : string; l_brand_id : string }.

#[global] Instance Link_eq_dec : EqDecision Link.
Proof. solve_decision. Defined.

End Model.

(** ** Effects: a trace of calls, a clock for the oracles, exceptions *)

Module Eff.
Import Model.

Inductive Event :=
| EvFetch (url : string)
| EvSleep (ms : Z)
| EvYield (batch : list DummyProduct)
| EvListProducts (externalIds : list string)
| EvRunWorkflow (input : BatchWorkflowInput) (errors : list string)
| EvLogInfo (msg : string)
| EvLogError (msg : string) (err : Js.Error).

(** The clock numbers the calls made to the outside, so that an oracle may
    answer the same request differently at different times. *)
Record World := { clock : nat; trace : list Event }.

Inductive Outcome (A : Type) :=
| Returned (a : A)
| Thrown (e : Js.Error)
| OutOfFuel.
Arguments Returned {A} a.
Arguments Thrown {A} e.
Arguments OutOfFuel {A}.

Definition M (A : Type) : Type := World -> Outcome A * World.

Definition ret {A} (a : A) : M A := fun w => (Returned a, w).

Definition bind {A B} (m : M A) (k : A -> M B) : M B :=
  fun w =>
    match m w with
    | (Returned a, w') => k a w'
    | (Thrown e, w') => (Thrown e, w')
    | (OutOfFuel, w') => (OutOfFuel, w')
    end.

Definition throw {A} (e : Js.Error) : M A := fun w => (Thrown e, w).

Definition outOfFuel {A} : M A := fun w => (OutOfFuel, w).

(** [try { m } catch (e) { handler e }]. *)
Definition tryCatch {A} (m : M A) (handler : Js.Error -> M A) : M A :=
  fun w =>
    match m w with
    | (Thrown e, w') => handler e w'
    | r => r
    end.

Definition emit (ev : Event) : M unit :=
  fun w => (Returned tt, {| clock := clock w; trace := trace w ++ [ev] |}).

Definition tick : M nat :=
  fun w => (Returned (clock w), {| clock := S (clock w); trace := trace w |}).

Definition lift {A} (r : Js.Result A) : M A :=
  match r with
  | Js.Ok a => ret a
  | Js.Throw e => throw e
  end.

Definition world0 : World := {| clock := 0; trace := [] |}.

(** The world after one more entry in the trace. *)
Definition logged (w : World) (ev : Event) : World :=
  {| clock := clock w; trace := trace w ++ [ev] |}.

(** A computation that leaves what is in the trace as it is and only adds
    to it. *)
Definition Appends {A} (m : M A) : Prop :=
  forall w, exists evs, trace (m w).2 = trace w ++ evs.

End Eff.

Declare Scope eff_scope.
Delimit Scope eff_scope with eff.
Notation "x <- m ;; k" := (Eff.bind m (fun x => k))
  (at level 20, m at level 99, k at level 200, only parsing) : eff_scope.
Notation "m ;; k" := (Eff.bind m (fun _ => k))
  (at level 100, k at level 200, right associativity, only parsing) : eff_scope.

(** ** [jobs/daily-product-sync.ts] *)

Module DailyProductSync.
Import Model Eff.

(** What [fetch] resolves with. *)
Record Response (T : Type) := {
  res_ok : bool;
  res_status : Z;
  res_json : Js.Result T
}.
Arguments res_ok {T} r.
Arguments res_status {T} r.
Arguments res_json {T} r.

(** The network: the answer to the [n]-th outside call, a request for
    [url].  [fetch] either rejects or resolves with a response. *)
Definition Fetch (T : Type) : Type := nat -> string -> Js.Result (Response T).

Section FetchWithRetry.
Context {T : Type} (fetch : Fetch T).

Definition doFetch (url : string) : M (Response T) :=
  (n <- tick ;; emit (EvFetch url) ;; lift (fetch n url))%eff.

Definition sleep (ms : Z) : M unit := emit (EvSleep ms).

(** The body of the [try] block: one attempt. *)
Definition attempt (url : string) : M T :=
  (res <- doFetch url ;;
   if negb (res_ok res)
   then throw (Js.mkError ("Request failed with status " +:+ Js.toString (res_status res)))
   else lift (res_json res))%eff.

(** The [for] loop from index [i] on; [remaining] is [retries - i], the
    number of iterations the loop condition still lets through. *)
Fixpoint fetchAttempts (url : string) (retries : nat) (backoff : Z)
    (remaining i : nat) : M T :=
  match remaining with
  | O => throw (Js.mkError "Unreachable")
  | S remaining' =>
      (r <- tryCatch
              (v <- attempt url ;; ret (Some v))
              (fun err =>
                 if Nat.eqb i (retries - 1) then throw err
                 else (sleep (backoff * 2 ^ Z.of_nat i) ;; ret None)) ;;
       match r with
       | Some v => ret v
       | None => fetchAttempts url retries backoff remaining' (S i)
       end)%eff
  end.

Definition fetchWithRetry (url : string) (retries : nat) (backoff : Z) : M T :=
  fetchAttempts url retries backoff retries 0.

(** The call with the default arguments [retries = 2], [backoff = 1000]. *)
Definition fetchWithRetry_default (url : string) : M T :=
  fetchWithRetry url 2 1000.

End FetchWithRetry.

Definition handleOf (title : string) (id : Z) : string :=
  (Js.trimDashes (Js.replaceNonAlnumRuns (Js.toLowerCase title))
   +:+ "-" +:+ Js.toString id)%string.

Definition mapToMedusaFormat (product : DummyProduct) : ProductInput :=
  {| pi_title := dp_title product;
     pi_description := dp_description product;
     pi_handle := handleOf (dp_title product) (dp_id product);
     pi_status := "draft";
     pi_metadata := {[ "external_id" := Js.toString (dp_id product) ]};
     pi_thumbnail := Some (dp_thumbnail product);
     pi_brandName := dp_brand product;
     pi_categoryName := dp_category product;
     pi_variants :=
       [ {| v_title := "Default";
            v_compare_at_price := None;
            v_prices := [ {| pr_amount := Js.Math_round (dp_price product * 100)%Q;
                             pr_currency_code := "usd" |} ];
            v_options := {[ "Default Option" := "Default" ]} |} ];
     pi_options := [ {| o_title := "Default Option"; o_values := ["Default"] |} ] |}.

Definition productsUrl (limit skip : Z) : string :=
  ("https://dummyjson.com/products?limit=" +:+ Js.toString limit
   +:+ "&skip=" +:+ Js.toString skip)%string.

(** [for await (const batch of fetchAllProducts(limit)) body(batch)]: the
    generator runs up to its [yield], the loop body runs on the yielded
    page, and the generator resumes after it.  The [while] loop can spin
    for ever against a server that keeps reporting more; [fuel] bounds the
    number of its iterations. *)
Fixpoint fetchAllProducts_from (fetch : Fetch DummyResponse)
    (body : list DummyProduct -> M unit) (fuel : nat) (limit skip : Z) : M unit :=
  match fuel with
  | O => outOfFuel
  | S fuel' =>
      (data <- fetchWithRetry_default fetch (productsUrl limit skip) ;;
       match dr_products data with
       | None => ret tt
       | Some [] => ret tt
       | Some products =>
           body products ;;
           let skip' := (skip + limit)%Z in
           if (skip' >=? dr_total data)%Z then ret tt
           else fetchAllProducts_from fetch body fuel' limit skip'
       end)%eff
  end.

Definition forAwait_fetchAllProducts (fetch : Fetch DummyResponse)
    (fuel : nat) (limit : Z) (body : list DummyProduct -> M unit) : M unit :=
  fetchAllProducts_from fetch body fuel limit 0.

(** The generator on its own: the consumer only records what is yielded. *)
Definition fetchAllProducts (fetch : Fetch DummyResponse) (fuel : nat) (limit : Z) : M unit :=
  forAwait_fetchAllProducts fetch fuel limit (fun batch => emit (EvYield batch)).

(** [{ id: existing.id, ...medusaProduct }]. *)
Definition withId (id : string) (p : ProductInput) : UpdateInput :=
  {| u_id := id;
     u_title := Some (pi_title p);
     u_description := Some (pi_description p);
     u_handle := Some (pi_handle p);
     u_status := Some (pi_status p);
     u_metadata := Some (pi_metadata p);
     u_thumbnail := pi_thumbnail p;
     u_brandName := pi_brandName p;
     u_categoryName := pi_categoryName p;
     u_variants := Some (pi_variants p);
     u_options := Some (pi_options p) |}.

(** The map from external id to stored product; a product without
    metadata or without an external id is entered under [undefined]. *)
Definition existingMapOf (existingProducts : list ProductDTO) : gmap (option string) ProductDTO :=
  Js.Map_of (map (fun p => (dto_external_id p, p)) existingProducts).

(** One turn of the loop over the batch: the product goes to the update
    batch when the map knows its external id, to the create batch
    otherwise. *)
Definition route (existingMap : gmap (option string) ProductDTO)
    (acc : list ProductInput * list UpdateInput) (p : DummyProduct)
    : list ProductInput * list UpdateInput :=
  let medusaProduct := mapToMedusaFormat p in
  let externalId := Js.toString (dp_id p) in
  match existingMap !! Some externalId with
  | Some existing => (acc.1, acc.2 ++ [withId (dto_id existing) medusaProduct])
  | None => (acc.1 ++ [medusaProduct], acc.2)
  end.

(** The create and update batches built from one page, given the products
    the product module reported as existing. *)
Definition splitBatch (existingProducts : list ProductDTO) (batch : list DummyProduct)
    : list ProductInput * list UpdateInput :=
  foldl (route (existingMapOf existingProducts)) ([], []) batch.

(** The services the job resolves from the container.  The workflow is
    run with [throwOnError: false]: it returns its errors. *)
Record Env := {
  env_fetch : Fetch DummyResponse;
  env_listProducts : nat -> list string -> Js.Result (list ProductDTO);
  env_runWorkflow : nat -> BatchWorkflowInput -> list string
}.

Definition logInfo (msg : string) : M unit := emit (EvLogInfo msg).
Definition logError (msg : string) (err : Js.Error) : M unit := emit (EvLogError msg err).

Definition listProducts (env : Env) (externalIds : list string) : M (list ProductDTO) :=
  (n <- tick ;; emit (EvListProducts externalIds) ;; lift (env_listProducts env n externalIds))%eff.

Definition runWorkflow (env : Env) (input : BatchWorkflowInput) : M (list string) :=
  (n <- tick ;;
   let errors := env_runWorkflow env n input in
   emit (EvRunWorkflow input errors) ;; ret errors)%eff.

Definition lengthText {A} (l : list A) : string := Js.toString (Z.of_nat (length l)).

(** The body of the [for await] loop. *)
Definition processBatch (env : Env) (batch : list DummyProduct) : M unit :=
  (logInfo ("Processing batch of " +:+ lengthText batch +:+ " products...") ;;
   let externalIds := map (fun p => Js.toString (dp_id p)) batch in
   existingProducts <- listProducts env externalIds ;;
   let '(createBatch, updateBatch) := splitBatch existingProducts batch in
   if (0 <? length createBatch)%nat || (0 <? length updateBatch)%nat then
     errors <- runWorkflow env {| bw_create := createBatch; bw_update := updateBatch |} ;;
     if (0 <? length errors)%nat
     then logError "Error syncing batch:" (Js.mkError (Js.JSON_stringify_strings errors))
     else logInfo ("Synced batch: " +:+ lengthText createBatch +:+ " created, "
                   +:+ lengthText updateBatch +:+ " updated.")
   else ret tt)%eff.

Definition dailyProductSync (env : Env) (fuel : nat) : M unit :=
  (logInfo "Starting daily product sync..." ;;
   tryCatch
     (forAwait_fetchAllProducts (env_fetch env) fuel 20 (processBatch env) ;;
      logInfo "Daily product sync completed.")
     (fun error => logError "Critical error in product sync:" error))%eff.

(** *** A remote catalogue that answers page requests from a fixed list *)

Definition pageOf (catalog : list DummyProduct) (limit skip : Z) : DummyResponse :=
  {| dr_products := Some (take (Z.to_nat limit) (drop (Z.to_nat skip) catalog));
     dr_total := Z.of_nat (length catalog);
     dr_skip := skip;
     dr_limit := limit |}.

(** The network answers consistently for [limit] when every request for a
    page, at any time, gets an ok response whose body holds that page of
    the catalogue and the catalogue's size as total. *)
Definition answersFrom (fetch : Fetch DummyResponse) (catalog : list DummyProduct) (limit : Z) : Prop :=
  forall (n : nat) (skip : Z), (0 <= skip)%Z ->
    exists res data,
      fetch n (productsUrl limit skip) = Js.Ok res /\
      res_ok res = true /\
      res_json res = Js.Ok data /\
      dr_products data = dr_products (pageOf catalog limit skip) /\
      dr_total data = dr_total (pageOf catalog limit skip).

(** A server for the catalogue: it recognises the page requests whose
    offset lies inside the catalogue and answers every other request with
    an empty page. *)
Definition serve (catalog : list DummyProduct) (limit : Z) : Fetch DummyResponse :=
  fun _ url =>
    let skip :=
      match find (fun k => String.eqb url (productsUrl limit (Z.of_nat k)))
                 (seq 0 (length catalog)) with
      | Some k => Z.of_nat k
      | None => Z.of_nat (length catalog)
      end in
    Js.Ok {| res_ok := true; res_status := 200;
             res_json := Js.Ok (pageOf catalog limit skip) |}.

(** What a trace says was requested, yielded, listed and run. *)
Definition requested (tr : list Event) : list string :=
  omap (fun ev => match ev with EvFetch url => Some url | _ => None end) tr.

Definition yielded (tr : list Event) : list (list DummyProduct) :=
  omap (fun ev => match ev with EvYield batch => Some batch | _ => None end) tr.

Definition listed (tr : list Event) : list (list string) :=
  omap (fun ev => match ev with EvListProducts ids => Some ids | _ => None end) tr.

Definition ran (tr : list Event) : list (BatchWorkflowInput * list string) :=
  omap (fun ev => match ev with EvRunWorkflow i errs => Some (i, errs) | _ => None end) tr.


(** *** What the statements about the job speak of *)

(** The key under which the batch loop looks a remote product up. *)
Definition keyOf (p : DummyProduct) : option string := Some (Js.toString (dp_id p)).

(** Some product among [existingProducts] carries the string form of the
    id of [p] as its external id. *)
Definition Stored (existingProducts : list ProductDTO) (p : DummyProduct) : Prop :=
  Exists (fun e => dto_external_id e = Some (Js.toString (dp_id p))) existingProducts.

#[global] Instance Stored_dec existingProducts p : Decision (Stored existingProducts p).
Proof. unfold Stored. apply _. Defined.

(** The update entry for [p] that targets the stored product [e]. *)
Definition updateEntryFor (e : ProductDTO) (p : DummyProduct) : UpdateInput :=
  withId (dto_id e) (mapToMedusaFormat p).

(** [u] is the update entry of [p] for some stored product that carries the
    external id of [p]. *)
Definition Targets (existingProducts : list ProductDTO) (p : DummyProduct) (u : UpdateInput) : Prop :=
  exists e, e ∈ existingProducts /\ dto_external_id e = Some (Js.toString (dp_id p))
            /\ u = updateEntryFor e p.

(** What one attempt comes to when it is the [n]-th outside call: the
    three ways in which the [try] block can throw, or the parsed body. *)
Definition attemptResult {T} (fetch : Fetch T) (n : nat) (url : string) : Js.Result T :=
  match fetch n url with
  | Js.Throw e => Js.Throw e
  | Js.Ok res =>
      if negb (res_ok res)
      then Js.Throw (Js.mkError ("Request failed with status " +:+ Js.toString (res_status res)))
      else res_json res
  end.

(** The reading under which the first ok response decides alone: its
    parsed body is what the call returns. *)
Definition ReturnsFirstOkBody {T} (fetch : Fetch T) (url : string) (w : World) : Prop :=
  forall res, fetch (clock w) url = Js.Ok res -> res_ok res = true ->
    exists v, res_json res = Js.Ok v /\ (fetchWithRetry_default fetch url w).1 = Returned v.

(** The world after [calls] more outside calls and the events [evs]. *)
Definition after (w : World) (calls : nat) (evs : list Event) : World :=
  {| clock := clock w + calls; trace := trace w ++ evs |}.

(** The events of [k] failed attempts in a row, the first of them being
    attempt number [i]: each is followed by its backoff. *)
Fixpoint failedAttempts (url : string) (backoff : Z) (i k : nat) : list Event :=
  match k with
  | O => []
  | S k' =>
      EvFetch url :: EvSleep (backoff * 2 ^ Z.of_nat i)
        :: failedAttempts url backoff (S i) k'
  end.


(** The number of pages of [limit] entries that [n] entries fill. *)
Definition pageCount (n limit : nat) : nat := (n + limit - 1) / limit.

(** Page number [k] of the catalogue. *)
Definition pageAt (limit : nat) (catalog : list DummyProduct) (k : nat) : list DummyProduct :=
  take limit (drop (k * limit) catalog).

(** The address of page number [k]. *)
Definition pageUrl (limit : Z) (k : nat) : string :=
  productsUrl limit (Z.of_nat k * limit).

(** The world after the pages numbered [ks] have been fetched, one request
    each, and handed to [body] in turn. *)
Fixpoint runPages (body : list DummyProduct -> M unit) (limit : Z)
    (catalog : list DummyProduct) (ks : list nat) (w : World) : World :=
  match ks with
  | [] => w
  | k :: ks' =>
      runPages body limit catalog ks'
        (body (pageAt (Z.to_nat limit) catalog k) (after w 1 [EvFetch (pageUrl limit k)])).2
  end.

(** The log entry for a batch whose workflow run returned [errors]. *)
Definition batchErrorLog (errors : list string) : Event :=
  EvLogError "Error syncing batch:" (Js.mkError (Js.JSON_stringify_strings errors)).

(** Every workflow run that returned errors is followed at once by the log
    entry for these errors. *)
Fixpoint ErrorsLogged (tr : list Event) : Prop :=
  match tr with
  | [] => True
  | EvRunWorkflow _ errors :: rest =>
      (errors <> [] -> head rest = Some (batchErrorLog errors)) /\ ErrorsLogged rest
  | _ :: rest => ErrorsLogged rest
  end.

(** The external ids the job asks the product module about for a batch. *)
Definition externalIdsOf (batch : list DummyProduct) : list string :=
  map (fun p => Js.toString (dp_id p)) batch.

(** The first and the last two entries the job can leave in the log. *)
Definition startEntry : Event := EvLogInfo "Starting daily product sync...".
Definition completedEntry : Event := EvLogInfo "Daily product sync completed.".
Definition criticalEntry (e : Js.Error) : Event :=
  EvLogError "Critical error in product sync:" e.

(** The two entries that frame a batch in the log when no error came
    back. *)
Definition processingEntry (batch : list DummyProduct) : Event :=
  EvLogInfo ("Processing batch of " +:+ lengthText batch +:+ " products...").

Definition syncedEntry (input : BatchWorkflowInput) : Event :=
  EvLogInfo ("Synced batch: " +:+ lengthText (bw_create input) +:+ " created, "
             +:+ lengthText (bw_update input) +:+ " updated.").

(** What the workflow is run on for a batch, given the stored products
    that the listing returned. *)
Definition batchInput (found : list ProductDTO) (batch : list DummyProduct) : BatchWorkflowInput :=
  {| bw_create := (splitBatch found batch).1; bw_update := (splitBatch found batch).2 |}.

(** The rest of the job when its loop is about to fetch the page at
    offset [skip]: the rest of the [try] block, and the [catch] block. *)
Definition syncFrom (env : Env) (fuel : nat) (skip : Z) : M unit :=
  (tryCatch
     (fetchAllProducts_from (env_fetch env) (processBatch env) fuel 20 skip ;;
      logInfo "Daily product sync completed.")
     (fun error => logError "Critical error in product sync:" error))%eff.

(** What a fetch with the default arguments comes to when its first
    attempt is the [n]-th outside call: the result of the first attempt
    when that one succeeds and of the second attempt otherwise, with the
    number of attempts made. *)
Definition fetchOutcome {T} (fetch : Fetch T) (n : nat) (url : string) : Js.Result T * nat :=
  match attemptResult fetch n url with
  | Js.Ok v => (Js.Ok v, 1)
  | Js.Throw _ => (attemptResult fetch (S n) url, 2)
  end.

(** The events of such a fetch: one request, or two with the first
    backoff in between. *)
Definition fetchEvents (url : string) (attempts : nat) : list Event :=
  match attempts with
  | 1 => [EvFetch url]
  | _ => [EvFetch url; EvSleep (1000 * 2 ^ 0); EvFetch url]
  end.

(** The events of the loop body for a batch whose listing, the [n]-th
    outside call, returned [found]: the announcement, the listing, the
    workflow run as the next outside call, and the closing entry, which is
    the error entry when the run returned errors. *)
Definition batchEvents (env : Env) (n : nat) (found : list ProductDTO)
    (batch : list DummyProduct) : list Event :=
  let input := batchInput found batch in
  let errors := env_runWorkflow env (S n) input in
  [ processingEntry batch;
    EvListProducts (externalIdsOf batch);
    EvRunWorkflow input errors;
    match errors with
    | [] => syncedEntry input
    | _ => batchErrorLog errors
    end ].

(** The [n]-th outside call, made for the page at offset [skip], is
    answered with this page of the catalogue and the catalogue's size. *)
Definition pageAnswered (fetch : Fetch DummyResponse) (catalog : list DummyProduct)
    (limit : Z) (n : nat) (skip : Z) : Prop :=
  exists data,
    attemptResult fetch n (productsUrl limit skip) = Js.Ok data
    /\ dr_products data = dr_products (pageOf catalog limit skip)
    /\ dr_total data = dr_total (pageOf catalog limit skip).

(** Every fetch of a page succeeds, at the first attempt or at the
    second: at any time a request for a page is answered with the page, or
    it fails and the request that follows it is answered with the page. *)
Definition answersByRetry (fetch : Fetch DummyResponse) (catalog : list DummyProduct)
    (limit : Z) : Prop :=
  forall (n : nat) (skip : Z), (0 <= skip)%Z ->
    pageAnswered fetch catalog limit n skip
    \/ ((exists e, attemptResult fetch n (productsUrl limit skip) = Js.Throw e)
        /\ pageAnswered fetch catalog limit (S n) skip).

(** The events of one turn of the job's loop on page [k]: the request or
    the two requests for the page, and the events of the loop body for a
    listing that answered. *)
Definition IsBatchBlock (env : Env) (limit : Z) (catalog : list DummyProduct) (k : nat)
    (evs : list Event) : Prop :=
  exists attempts n found,
    (attempts = 1 \/ attempts = 2)
    /\ env_listProducts env n (externalIdsOf (pageAt (Z.to_nat limit) catalog k)) = Js.Ok found
    /\ evs = fetchEvents (pageUrl limit k) attempts
             ++ batchEvents env n found (pageAt (Z.to_nat limit) catalog k).

(** The workflow run of page [k]: its input is the split of the page by
    the answer of a listing of the page's ids, and its errors are what the
    workflow returned for this input as the next outside call. *)
Definition IsRunOf (env : Env) (limit : Z) (catalog : list DummyProduct) (k : nat)
    (run : BatchWorkflowInput * list string) : Prop :=
  exists n found,
    env_listProducts env n (externalIdsOf (pageAt (Z.to_nat limit) catalog k)) = Js.Ok found
    /\ run.1 = batchInput found (pageAt (Z.to_nat limit) catalog k)
    /\ run.2 = env_runWorkflow env (S n) run.1.

(** The requests of a run in which page [k] took the [k]-th of the given
    numbers of attempts. *)
Definition requestsOf (limit : Z) (ks : list nat) (attempts : list nat) : list string :=
  concat (zip_with (fun k a => replicate a (pageUrl limit k)) ks attempts).


(** *** What the further statements about the job speak of *)

(** The waits a trace records. *)
Definition slept (tr : list Event) : list Z :=
  omap (fun ev => match ev with EvSleep ms => Some ms | _ => None end) tr.

(** The waits of the retry schedule behind the attempts [0], ..., [k - 1]. *)
Definition backoffs (backoff : Z) (k : nat) : list Z :=
  map (fun i => backoff * 2 ^ Z.of_nat i)%Z (seq 0 k).

(** The part of a handle that comes from the title. *)
Definition slugOf (title : string) : string :=
  Js.trimDashes (Js.replaceNonAlnumRuns (Js.toLowerCase title)).

(** A network on which more is always announced: whichever page is asked
    for, the answer is an ok response with a page that is not empty and a
    total beyond the next offset. *)
Definition alwaysMore (fetch : Fetch DummyResponse) (limit : Z) : Prop :=
  forall (n k : nat),
    exists res data x xs,
      fetch n (pageUrl limit k) = Js.Ok res /\
      res_ok res = true /\
      res_json res = Js.Ok data /\
      dr_products data = Some (x :: xs) /\
      (Z.of_nat k * limit + limit < dr_total data)%Z.

End DailyProductSync.

(** ** [workflows/batch-products.ts] *)

Declare Scope step_scope.
Delimit Scope step_scope with step.

Module BatchProducts.
Import Model.

(** The framework's [ProductStatus] enum, whose members are named by the
    upper-case form of their string value. *)
Inductive ProductStatus := DRAFT | PROPOSED | PUBLISHED | REJECTED.

(** [ProductStatus[key]]: the member called [key], if there is one. *)
Definition ProductStatus_get (key : string) : option ProductStatus :=
  if String.eqb key "DRAFT" then Some DRAFT
  else if String.eqb key "PROPOSED" then Some PROPOSED
  else if String.eqb key "PUBLISHED" then Some PUBLISHED
  else if String.eqb key "REJECTED" then Some REJECTED
  else None.

(** [ProductStatus[status.toUpperCase()] || ProductStatus.DRAFT]. *)
Definition statusOf (status : string) : ProductStatus :=
  default DRAFT (ProductStatus_get (Js.toUpperCase status)).

(** What [createProducts] is given for one product. *)
Record CreateProductDTO := {
  cp_title : string;
  cp_description : string;
  cp_handle : string;
  cp_metadata : gmap string string;
  cp_thumbnail : option string;
  cp_variants : list VariantInput;
  cp_options : list OptionInput;
  cp_status : ProductStatus;
  cp_category_ids : list string
}.

(** What [updateProducts] is given for one product; an absent field is
    left as it is in the store. *)
Record UpdateData := {
  ud_title : option string;
  ud_description : option string;
  ud_handle : option string;
  ud_metadata : option (gmap string string);
  ud_thumbnail : option string;
  ud_variants : option (list VariantInput);
  ud_options : option (list OptionInput);
  ud_status : option ProductStatus;
  ud_category_ids : option (list string)
}.

(** The calls a step makes to the module services, the link service and
    the logger. *)
Inductive Call :=
| ListBrands (names : list string)
| CreateBrands (names : list string)
| DeleteBrands (ids : list string)
| ListProductCategories (handles : list string)
| CreateProductCategories (inputs : list CategoryInput)
| DeleteProductCategories (ids : list string)
| CreateProducts (dtos : list CreateProductDTO)
| UpdateProducts (id : string) (data : UpdateData)
| DeleteProducts (ids : list string)
| LinkDismiss (links : list Link)
| LinkCreate (links : list Link)
| LogWarn (msg : string).

(** The answers of the services.  The product categories are listed twice
    by one step, so that oracle also takes the number of the listing. *)
Record Services := {
  listBrands : list string -> Js.Result (list Brand);
  createBrands : list string -> Js.Result (list Brand);
  listProductCategories : nat -> list string -> Js.Result (list Category);
  createProductCategories : list CategoryInput -> Js.Result (list Category);
  createProducts : list CreateProductDTO -> Js.Result (list ProductDTO);
  updateProducts : string -> UpdateData -> Js.Result ProductDTO;
  linkDismiss : list Link -> Js.Result unit;
  linkCreate : list Link -> Js.Result unit
}.

(** A step computes a result, or throws, while making calls. *)
Definition Step (A : Type) : Type := list Call * Js.Result A.

Definition ret {A} (a : A) : Step A := ([], Js.Ok a).

Definition bind {A B} (m : Step A) (k : A -> Step B) : Step B :=
  match m with
  | (calls, Js.Ok a) => let '(calls', r) := k a in (calls ++ calls', r)
  | (calls, Js.Throw e) => (calls, Js.Throw e)
  end.

Definition tryCatch {A} (m : Step A) (handler : Js.Error -> Step A) : Step A :=
  match m with
  | (calls, Js.Throw e) => let '(calls', r) := handler e in (calls ++ calls', r)
  | r => r
  end.

(** One call and its answer. *)
Definition call {A} (c : Call) (answer : Js.Result A) : Step A := ([c], answer).

(** [new StepResponse(output, compensateInput)]. *)
Record StepResponse (O C : Type) := {
  output : O;
  compensateInput : C
}.
Arguments Build_StepResponse {O C} output compensateInput.
Arguments output {O C} s.
Arguments compensateInput {O C} s.

Notation "x <- m ;; k" := (bind m (fun x => k))
  (at level 20, m at level 99, k at level 200, only parsing) : step_scope.
Notation "m ;; k" := (bind m (fun _ => k))
  (at level 100, k at level 200, right associativity, only parsing) : step_scope.

(** *** Step 1: brands *)

(** [existingBrands.forEach(b => brandMap[b.name] = b.id)]. *)
Definition recordBrands (brandMap : gmap string string) (brands : list Brand) : gmap string string :=
  foldl (fun m b => <[b_name b := b_id b]> m) brandMap brands.

(** [uniqueNames.filter(n => !brandMap[n])]. *)
Definition brandsToCreate (brandMap : gmap string string) (uniqueNames : list string) : list string :=
  List.filter (fun n => negb (Js.truthy_opt (brandMap !! n))) uniqueNames.

Definition manageBrandsStep (svc : Services) (brandNames : list string)
    : Step (StepResponse (gmap string string) (list string)) :=
  if (length brandNames =? 0)%nat then ret (Build_StepResponse ∅ [])
  else
    (let uniqueNames := Js.unique brandNames in
     existingBrands <- call (ListBrands uniqueNames) (listBrands svc uniqueNames) ;;
     let brandMap := recordBrands ∅ existingBrands in
     let toCreate := brandsToCreate brandMap uniqueNames in
     if (0 <? length toCreate)%nat then
       created <- call (CreateBrands toCreate) (createBrands svc toCreate) ;;
       ret (Build_StepResponse (recordBrands brandMap created) (map b_id created))
     else ret (Build_StepResponse brandMap []))%step.

(** The compensation of the brand step.  It is handed [undefined] when the
    step itself threw. *)
Definition manageBrandsStep_compensate (createdIds : option (list string)) : list Call :=
  match createdIds with
  | Some (id :: ids) => [DeleteBrands (id :: ids)]
  | _ => []
  end.

(** *** Step 1.5: categories *)

Definition nameToHandle (name : string) : string :=
  Js.replaceNonAlnumRuns (Js.toLowerCase name).

(** The loop over the unique names: a name whose handle is known gets the
    id of that category, the others are queued for creation. *)
Definition planCategory (handleMap : gmap string Category)
    (acc : gmap string string * list CategoryInput) (name : string)
    : gmap string string * list CategoryInput :=
  let handle := nameToHandle name in
  match handleMap !! handle with
  | Some c => (<[name := c_id c]> acc.1, acc.2)
  | None => (acc.1, acc.2 ++ [ {| ci_name := name; ci_handle := handle |} ])
  end.

Definition planCategories (handleMap : gmap string Category) (uniqueNames : list string)
    : gmap string string * list CategoryInput :=
  foldl (planCategory handleMap) (∅, []) uniqueNames.

(** The body of both [forEach] loops over categories coming back from the
    service: the category is entered under the first unique name that has
    its handle. *)
Definition recordCategory (uniqueNames : list string)
    (categoryMap : gmap string string) (c : Category) : gmap string string :=
  match find (fun u => String.eqb (nameToHandle u) (c_handle c)) uniqueNames with
  | Some original =>
      if Js.truthy original then <[original := c_id c]> categoryMap else categoryMap
  | None => categoryMap
  end.

Definition recordCategories (uniqueNames : list string)
    (categoryMap : gmap string string) (cs : list Category) : gmap string string :=
  foldl (recordCategory uniqueNames) categoryMap cs.

Definition manageCategoriesStep (svc : Services) (categoryNames : list string)
    : Step (StepResponse (gmap string string) (list string)) :=
  if (length categoryNames =? 0)%nat then ret (Build_StepResponse ∅ [])
  else
    (let uniqueNames := Js.unique categoryNames in
     let handles := map nameToHandle uniqueNames in
     existingCategories <-
       call (ListProductCategories handles) (listProductCategories svc 0 handles) ;;
     let handleMap := Js.Map_of (map (fun c => (c_handle c, c)) existingCategories) in
     let '(categoryMap, toCreate) := planCategories handleMap uniqueNames in
     if (0 <? length toCreate)%nat then
       tryCatch
         (created <-
            call (CreateProductCategories toCreate) (createProductCategories svc toCreate) ;;
          ret (Build_StepResponse (recordCategories uniqueNames categoryMap created)
                                  (map c_id created)))
         (fun _ =>
            fallbackCategories <-
              call (ListProductCategories handles) (listProductCategories svc 1 handles) ;;
            ret (Build_StepResponse
                   (recordCategories uniqueNames categoryMap fallbackCategories) []))
     else ret (Build_StepResponse categoryMap []))%step.

Definition manageCategoriesStep_compensate (createdIds : option (list string)) : list Call :=
  match createdIds with
  | Some (id :: ids) => [DeleteProductCategories (id :: ids)]
  | _ => []
  end.

(** *** Step 2: create products *)

(** [categoryName && categoryMap[categoryName] ? [categoryMap[categoryName]] : []]. *)
Definition categoryIdOf (categoryMap : gmap string string) (categoryName : option string)
    : option string :=
  match categoryName with
  | Some name =>
      if Js.truthy name then
        match categoryMap !! name with
        | Some id => if Js.truthy id then Some id else None
        | None => None
        end
      else None
  | None => None
  end.

Definition toCreateDTO (categoryMap : gmap string string) (p : ProductInput) : CreateProductDTO :=
  {| cp_title := pi_title p;
     cp_description := pi_description p;
     cp_handle := pi_handle p;
     cp_metadata := pi_metadata p;
     cp_thumbnail := pi_thumbnail p;
     cp_variants := pi_variants p;
     cp_options := pi_options p;
     cp_status := statusOf (pi_status p);
     cp_category_ids :=
       match categoryIdOf categoryMap (pi_categoryName p) with
       | Some id => [id]
       | None => []
       end |}.

Definition createProductsStep (svc : Services)
    (products : list ProductInput) (categoryMap : gmap string string)
    : Step (StepResponse (list ProductDTO) (list string)) :=
  if (length products =? 0)%nat then ret (Build_StepResponse [] [])
  else
    (let dtos := map (toCreateDTO categoryMap) products in
     created <- call (CreateProducts dtos) (createProducts svc dtos) ;;
     ret (Build_StepResponse created (map dto_id created)))%step.

Definition createProductsStep_compensate (ids : option (list string)) : list Call :=
  match ids with
  | Some (id :: ids') => [DeleteProducts (id :: ids')]
  | _ => []
  end.

(** *** Step 3: update products *)

(** The update data of one entry: the status is set only under the guard
    [if (status)], the categories only when the name resolves. *)
Definition toUpdateData (categoryMap : gmap string string) (u : UpdateInput) : UpdateData :=
  {| ud_title := u_title u;
     ud_description := u_description u;
     ud_handle := u_handle u;
     ud_metadata := u_metadata u;
     ud_thumbnail := u_thumbnail u;
     ud_variants := u_variants u;
     ud_options := u_options u;
     ud_status :=
       match u_status u with
       | Some status => if Js.truthy status then Some (statusOf status) else None
       | None => None
       end;
     ud_category_ids :=
       match categoryIdOf categoryMap (u_categoryName u) with
       | Some id => Some [id]
       | None => None
       end |}.

(** [Promise.all] over the mapped updates: every call is issued, in list
    order; the whole rejects when one of them does (with the first
    rejection in list order). *)
Fixpoint updateAll (svc : Services) (categoryMap : gmap string string)
    (updates : list UpdateInput) : list Call * Js.Result (list ProductDTO) :=
  match updates with
  | [] => ([], Js.Ok [])
  | u :: rest =>
      let data := toUpdateData categoryMap u in
      let '(calls, results) := updateAll svc categoryMap rest in
      (UpdateProducts (u_id u) data :: calls,
       match updateProducts svc (u_id u) data, results with
       | Js.Ok p, Js.Ok ps => Js.Ok (p :: ps)
       | Js.Throw e, _ => Js.Throw e
       | Js.Ok _, Js.Throw e => Js.Throw e
       end)
  end.

Definition updateProductsStep (svc : Services)
    (updates : list UpdateInput) (categoryMap : gmap string string)
    : Step (StepResponse (list ProductDTO) (list string)) :=
  if (length updates =? 0)%nat then ret (Build_StepResponse [] [])
  else
    (results <- updateAll svc categoryMap updates ;;
     ret (Build_StepResponse results (map u_id updates)))%step.

(** Compensation omitted in the source. *)
Definition updateProductsStep_compensate (ids : option (list string)) : list Call := [].

(** *** Step 4: link brands *)

(** What [getBrandId] reads off an input item, whichever list it is in. *)
Class SyncInput (A : Type) := {
  input_external_id : A -> option string;
  input_brandName : A -> option string
}.

#[global] Instance ProductInput_SyncInput : SyncInput ProductInput := {|
  input_external_id := fun i => pi_metadata i !! "external_id";
  input_brandName := pi_brandName
|}.

#[global] Instance UpdateInput_SyncInput : SyncInput UpdateInput := {|
  input_external_id := fun i => m ← u_metadata i; m !! "external_id";
  input_brandName := u_brandName
|}.

(** The brand id for a stored product: the input item with the same
    external id names the brand, the brand map resolves the name.  [None]
    stands for both [null] and [undefined]. *)
Definition getBrandId `{SyncInput A} (brandMap : gmap string string)
    (inputItems : list A) (p : ProductDTO) : option string :=
  let extId := dto_external_id p in
  match find (fun i => bool_decide (input_external_id i = extId)) inputItems with
  | Some inputItem =>
      match input_brandName inputItem with
      | Some brandName => if Js.truthy brandName then brandMap !! brandName else None
      | None => None
      end
  | None => None
  end.

(** One of the two loops that push links. *)
Definition pushLinks `{SyncInput A} (brandMap : gmap string string)
    (inputItems : list A) (links : list Link) (products : list ProductDTO) : list Link :=
  foldl (fun links p =>
           match getBrandId brandMap inputItems p with
           | Some brandId =>
               if Js.truthy brandId
               then links ++ [ {| l_product_id := dto_id p; l_brand_id := brandId |} ]
               else links
           | None => links
           end) links products.

Section LinkKeys.
(** The keys of the two modules in a link object.  [Modules.PRODUCT]
    comes from the framework and [BRAND_MODULE] from the brand module's
    index file; both are declared outside these sources and are taken as
    given. *)
Variables Modules_PRODUCT BRAND_MODULE : string.

(** [JSON.stringify(l)] for a link [l]: the keys in the order the object
    literal lists them. *)
Definition JSON_stringify_link (l : Link) : string :=
  ("{" +:+ Js.JSON_stringify_string Modules_PRODUCT +:+ ":{"
   +:+ Js.JSON_stringify_string "product_id" +:+ ":"
   +:+ Js.JSON_stringify_string (l_product_id l) +:+ "},"
   +:+ Js.JSON_stringify_string BRAND_MODULE +:+ ":{"
   +:+ Js.JSON_stringify_string "brand_id" +:+ ":"
   +:+ Js.JSON_stringify_string (l_brand_id l) +:+ "}}")%string.

Definition expectKey (key s : string) : option string :=
  '(k, rest) ← Js.parseString s;
  if String.eqb k key then Some rest else None.

(** [JSON.parse(s)] read back as a link: the text has to be an object of
    the shape that [JSON_stringify_link] writes. *)
Definition JSON_parse_link (s : string) : option Link :=
  s ← Js.expect "{" s;
  s ← expectKey Modules_PRODUCT s;
  s ← Js.expect ":{" s;
  s ← expectKey "product_id" s;
  s ← Js.expect ":" s;
  '(productId, s) ← Js.parseString s;
  s ← Js.expect "}," s;
  s ← expectKey BRAND_MODULE s;
  s ← Js.expect ":{" s;
  s ← expectKey "brand_id" s;
  s ← Js.expect ":" s;
  '(brandId, s) ← Js.parseString s;
  s ← Js.expect "}}" s;
  match s with
  | EmptyString => Some {| l_product_id := productId; l_brand_id := brandId |}
  | String _ _ => None
  end.

(** [Array.from(new Set(links.map(l => JSON.stringify(l)))).map(s =>
    JSON.parse(s))]; [None] when a [JSON.parse] throws. *)
Definition uniqueLinksOf (links : list Link) : option (list Link) :=
  mapM JSON_parse_link (Js.unique (map JSON_stringify_link links)).

Definition linkProductBrandsStep (svc : Services)
    (createdProducts updatedProducts : list ProductDTO)
    (brandMap : gmap string string)
    (originalCreateInput : list ProductInput)
    (originalUpdateInput : list UpdateInput)
    : Step (StepResponse (list Link) (list Link)) :=
  let links := pushLinks brandMap originalCreateInput [] createdProducts in
  let links := pushLinks brandMap originalUpdateInput links updatedProducts in
  match uniqueLinksOf links with
  | None => ([], Js.Throw (Js.mkError "Unexpected token in JSON"))
  | Some uniqueLinks =>
      (if (0 <? length uniqueLinks)%nat then
         tryCatch (call (LinkDismiss uniqueLinks) (linkDismiss svc uniqueLinks))
                  (fun _ => ret tt) ;;
         tryCatch (call (LinkCreate uniqueLinks) (linkCreate svc uniqueLinks))
                  (fun _ => ([LogWarn "Failed to create brand links, they might already exist."],
                             Js.Ok tt))
       else ret tt) ;;
      ret (Build_StepResponse links links)
  end%step.

(** The links the step hands to the link service's [create]. *)
Definition linksSubmitted (calls : list Call) : list (list Link) :=
  omap (fun c => match c with LinkCreate links => Some links | _ => None end) calls.

(** The compensation leaves the links in place. *)
Definition linkProductBrandsStep_compensate (links : option (list Link)) : list Call := [].

(** *** The workflow *)

(** The brand names of the batch: those of the create entries, then those
    of the update entries, the falsy ones filtered out. *)
Definition extractNames (input : BatchWorkflowInput)
    (ofCreate : ProductInput -> option string) (ofUpdate : UpdateInput -> option string)
    : list string :=
  omap (fun n => match n with
                 | Some s => if Js.truthy s then Some s else None
                 | None => None
                 end)
       (map ofCreate (bw_create input) ++ map ofUpdate (bw_update input)).

Definition extractBrands (input : BatchWorkflowInput) : list string :=
  extractNames input pi_brandName u_brandName.

Definition extractCategories (input : BatchWorkflowInput) : list string :=
  extractNames input pi_categoryName u_categoryName.

(** How the workflow engine chains a step with the rest of the workflow:
    when the step throws, its compensation runs without input; when a
    later step throws, the later compensations have run by the time this
    step's compensation runs on what its [StepResponse] carried. *)
Definition andThen {O C R} (step : Step (StepResponse O C))
    (compensate : option C -> list Call)
    (rest : O -> list Call * Js.Result R) : list Call * Js.Result R :=
  match step with
  | (calls, Js.Throw e) => (calls ++ compensate None, Js.Throw e)
  | (calls, Js.Ok s) =>
      match rest (output s) with
      | (calls', Js.Ok r) => (calls ++ calls', Js.Ok r)
      | (calls', Js.Throw e) =>
          (calls ++ calls' ++ compensate (Some (compensateInput s)), Js.Throw e)
      end
  end.

Definition batchProductsWorkflow (svc : Services) (input : BatchWorkflowInput)
    : list Call * Js.Result (list ProductDTO * list ProductDTO) :=
  andThen (manageBrandsStep svc (extractBrands input)) manageBrandsStep_compensate
    (fun brandMap =>
  andThen (manageCategoriesStep svc (extractCategories input)) manageCategoriesStep_compensate
    (fun categoryMap =>
  andThen (createProductsStep svc (bw_create input) categoryMap) createProductsStep_compensate
    (fun createdProducts =>
  andThen (updateProductsStep svc (bw_update input) categoryMap) updateProductsStep_compensate
    (fun updatedProducts =>
  andThen (linkProductBrandsStep svc createdProducts updatedProducts brandMap
             (bw_create input) (bw_update input))
          linkProductBrandsStep_compensate
    (fun _ => ([], Js.Ok (createdProducts, updatedProducts))))))).

End LinkKeys.

(** *** What the statements about the workflow speak of *)

(** The id lists handed to [deleteBrands] and to
    [deleteProductCategories]. *)
Definition deletedBrands (calls : list Call) : list (list string) :=
  omap (fun c => match c with DeleteBrands ids => Some ids | _ => None end) calls.

Definition deletedCategories (calls : list Call) : list (list string) :=
  omap (fun c => match c with DeleteProductCategories ids => Some ids | _ => None end) calls.

(** The rows the brand module created in a run: what it answered to the
    [createBrands] calls of the run.  A call that threw created nothing. *)
Definition brandRowsOf (svc : Services) (c : Call) : list Brand :=
  match c with
  | CreateBrands names =>
      match createBrands svc names with
      | Js.Ok rows => rows
      | Js.Throw _ => []
      end
  | _ => []
  end.

Definition brandRowsCreated (svc : Services) (calls : list Call) : list Brand :=
  flat_map (brandRowsOf svc) calls.

Definition categoryRowsOf (svc : Services) (c : Call) : list Category :=
  match c with
  | CreateProductCategories inputs =>
      match createProductCategories svc inputs with
      | Js.Ok rows => rows
      | Js.Throw _ => []
      end
  | _ => []
  end.

Definition categoryRowsCreated (svc : Services) (calls : list Call) : list Category :=
  flat_map (categoryRowsOf svc) calls.

(** Calls that neither create nor delete a brand or a category. *)
Definition Quiet (svc : Services) (calls : list Call) : Prop :=
  deletedBrands calls = [] /\ deletedCategories calls = []
  /\ brandRowsCreated svc calls = [] /\ categoryRowsCreated svc calls = [].

(** What the brand step leaves in the ledger: no deletion, no category,
    and a compensation input that lists the ids of the rows created. *)
Definition BrandLedger (svc : Services)
    (run : Step (StepResponse (gmap string string) (list string))) : Prop :=
  deletedBrands run.1 = [] ∧ deletedCategories run.1 = []
  ∧ categoryRowsCreated svc run.1 = []
  ∧ match run.2 with
    | Js.Ok s => map b_id (brandRowsCreated svc run.1) = compensateInput s
    | Js.Throw _ => brandRowsCreated svc run.1 = []
    end.

Definition CategoryLedger (svc : Services)
    (run : Step (StepResponse (gmap string string) (list string))) : Prop :=
  deletedBrands run.1 = [] ∧ deletedCategories run.1 = []
  ∧ brandRowsCreated svc run.1 = []
  ∧ match run.2 with
    | Js.Ok s => map c_id (categoryRowsCreated svc run.1) = compensateInput s
    | Js.Throw _ => categoryRowsCreated svc run.1 = []
    end.

(** What a run of the workflow leaves in the ledger: nothing is deleted
    when it succeeds, and the ids deleted are those of the rows created
    when it fails. *)
Definition RunLedger {R} (svc : Services) (run : list Call * Js.Result R) : Prop :=
  match run.2 with
  | Js.Ok _ => deletedBrands run.1 = [] ∧ deletedCategories run.1 = []
  | Js.Throw _ =>
      concat (deletedBrands run.1) = map b_id (brandRowsCreated svc run.1)
      ∧ concat (deletedCategories run.1) = map c_id (categoryRowsCreated svc run.1)
  end.

(** The services [svc], at a time when no product category exists yet:
    the first listing of the categories comes back empty. *)
Definition withNoCategoriesYet (svc : Services) : Services :=
  {| listBrands := listBrands svc;
     createBrands := createBrands svc;
     listProductCategories := fun n handles =>
       if Nat.eqb n 0 then Js.Ok [] else listProductCategories svc n handles;
     createProductCategories := createProductCategories svc;
     createProducts := createProducts svc;
     updateProducts := updateProducts svc;
     linkDismiss := linkDismiss svc;
     linkCreate := linkCreate svc |}.

(** The name of a member of the enum. *)
Definition ProductStatus_name (st : ProductStatus) : string :=
  match st with
  | DRAFT => "DRAFT"
  | PROPOSED => "PROPOSED"
  | PUBLISHED => "PUBLISHED"
  | REJECTED => "REJECTED"
  end.

(** The products handed to [createProducts], and the id and data handed
    to each [updateProducts]. *)
Definition dtosSent (calls : list Call) : list CreateProductDTO :=
  flat_map (fun c => match c with CreateProducts dtos => dtos | _ => [] end) calls.

Definition updatesSent (calls : list Call) : list (string * UpdateData) :=
  omap (fun c => match c with UpdateProducts id data => Some (id, data) | _ => None end) calls.



(** *** What the further statements about the workflow speak of *)

(** The name lists handed to [createBrands]. *)
Definition brandsRequested (calls : list Call) : list (list string) :=
  omap (fun c => match c with CreateBrands names => Some names | _ => None end) calls.

(** The id lists handed to [deleteProducts], and the rows the product
    module created in a run: what it answered to the [createProducts] calls
    of the run. *)
Definition deletedProducts (calls : list Call) : list (list string) :=
  omap (fun c => match c with DeleteProducts ids => Some ids | _ => None end) calls.

Definition productRowsOf (svc : Services) (c : Call) : list ProductDTO :=
  match c with
  | CreateProducts dtos =>
      match createProducts svc dtos with
      | Js.Ok rows => rows
      | Js.Throw _ => []
      end
  | _ => []
  end.

Definition productRowsCreated (svc : Services) (calls : list Call) : list ProductDTO :=
  flat_map (productRowsOf svc) calls.

(** Calls that neither create nor delete a product. *)
Definition ProductQuiet (svc : Services) (calls : list Call) : Prop :=
  deletedProducts calls = [] /\ productRowsCreated svc calls = [].

(** The product side of the ledger of a run: nothing is deleted when it
    succeeds, and the ids deleted are those of the products created when it
    fails. *)
Definition ProductLedger {R} (svc : Services) (run : list Call * Js.Result R) : Prop :=
  match run.2 with
  | Js.Ok _ => deletedProducts run.1 = []
  | Js.Throw _ =>
      concat (deletedProducts run.1) = map dto_id (productRowsCreated svc run.1)
  end.

(** The warning the link step logs when the links cannot be created. *)
Definition linkWarning : Call :=
  LogWarn "Failed to create brand links, they might already exist.".

(** The links the two loops of the link step push. *)
Definition linksPushed (brandMap : gmap string string)
    (createdProducts updatedProducts : list ProductDTO)
    (originalCreateInput : list ProductInput) (originalUpdateInput : list UpdateInput)
    : list Link :=
  pushLinks brandMap originalUpdateInput
    (pushLinks brandMap originalCreateInput [] createdProducts) updatedProducts.


(** A call to the product module for products that carries no category
    id. *)
Definition withoutCategories (c : Call) : Prop :=
  match c with
  | CreateProducts dtos => Forall (fun dto => cp_category_ids dto = []) dtos
  | UpdateProducts _ data => ud_category_ids data = None
  | DeleteProducts _ => True
  | _ => False
  end.


(** The brand id that the brand map holds for the brand of a remote
    product; none for a product without brand. *)
Definition brandIdFor (brandMap : gmap string string) (p : DummyProduct) : option string :=
  match dp_brand p with
  | Some brandName => if Js.truthy brandName then brandMap !! brandName else None
  | None => None
  end.

(** The brand of a remote product is a plain key, when it has one. *)
Definition plainBrand (p : DummyProduct) : Prop :=
  match dp_brand p with
  | Some brandName => Js.plainKey brandName
  | None => True
  end.

#[global] Instance plainBrand_dec p : Decision (plainBrand p).
Proof. unfold plainBrand. destruct (dp_brand p); apply _. Defined.

End BatchProducts.

(** ** The single-workflow variant of the sync *)

Module SyncProducts.
Import Model BatchProducts.

(** [Array.from(new Set(products.map(p => p.brand).filter(Boolean)))]. *)
Definition brandNamesOf (products : list DummyProduct) : list string :=
  Js.unique
    (omap (fun p => match dp_brand p with
                    | Some b => if Js.truthy b then Some b else None
                    | None => None
                    end) products).

Definition syncBrandsStep (svc : Services) (products : list DummyProduct)
    : Step (StepResponse (gmap string string) (list string)) :=
  (let brandNames := brandNamesOf products in
   existingBrands <- call (ListBrands brandNames) (listBrands svc brandNames) ;;
   let existingBrandMap := Js.Map_of (map (fun b => (b_name b, b_id b)) existingBrands) in
   let brandsToCreate :=
     List.filter (fun name => negb (bool_decide (is_Some (existingBrandMap !! name)))) brandNames in
   createdBrands <-
     (if (0 <? length brandsToCreate)%nat
      then call (CreateBrands brandsToCreate) (createBrands svc brandsToCreate)
      else ret []) ;;
   let finalBrandMap := recordBrands (recordBrands ∅ existingBrands) createdBrands in
   ret (Build_StepResponse finalBrandMap (map b_id createdBrands)))%step.

Definition syncBrandsStep_compensate (createdIds : option (list string)) : list Call :=
  match createdIds with
  | Some (id :: ids) => [DeleteBrands (id :: ids)]
  | _ => []
  end.

(** The product data of the sync step. *)
Record ProductData := {
  pd_title : string;
  pd_description : string;
  pd_handle : string;
  pd_thumbnail : string;
  pd_options : list OptionInput;
  pd_variants : list VariantInput;
  pd_external_id : string;
  pd_brand_id : option string
}.

(** The name under which [brandMap[p.brand]] looks the brand up: a
    product without brand is looked up under the name undefined. *)
Definition brandKey (p : DummyProduct) : string := default "undefined" (dp_brand p).

Definition productDataOf (brandMap : gmap string string) (p : DummyProduct) : ProductData :=
  let pId := Js.toString (dp_id p) in
  let handleSlug := Js.trimDashes (Js.replaceNonAlnumRuns (Js.toLowerCase (dp_title p))) in
  {| pd_title := dp_title p;
     pd_description := dp_description p;
     pd_handle := (handleSlug +:+ "-" +:+ pId)%string;
     pd_thumbnail := dp_thumbnail p;
     pd_options := [ {| o_title := "Default Option"; o_values := ["Default"] |} ];
     pd_variants :=
       [ {| v_title := "Default Variant";
            v_compare_at_price :=
              if Qeq_bool (dp_discountPercentage p) 0 then None
              else Some (dp_price p * (1 + dp_discountPercentage p / 100))%Q;
            v_prices := [ {| pr_amount := Js.Math_round (dp_price p * 100)%Q;
                             pr_currency_code := "usd" |} ];
            v_options := {[ "Default Option" := "Default" ]} |} ];
     pd_external_id := pId;
     pd_brand_id := brandMap !! brandKey p |}.

(** The loop of [syncProductsStep] that fills [toCreate] and [toUpdate];
    an update entry is the product data with the stored product's id. *)
Definition syncRoute (brandMap : gmap string string)
    (existingMap : gmap (option string) ProductDTO)
    (acc : list ProductData * list (string * ProductData)) (p : DummyProduct)
    : list ProductData * list (string * ProductData) :=
  let pId := Js.toString (dp_id p) in
  let productData := productDataOf brandMap p in
  match existingMap !! Some pId with
  | Some existing => (acc.1, acc.2 ++ [(dto_id existing, productData)])
  | None => (acc.1 ++ [productData], acc.2)
  end.

Definition syncSplit (brandMap : gmap string string)
    (existingProducts : list ProductDTO) (products : list DummyProduct)
    : list ProductData * list (string * ProductData) :=
  foldl (syncRoute brandMap (DailyProductSync.existingMapOf existingProducts)) ([], []) products.


(** *** The sync step and the product module *)

(** The product module as the sync step uses it: [createProducts] is
    handed the product data as built, [updateProducts] the id and the whole
    update entry, id included. *)
Record ProductModule := {
  pm_listProducts : list string -> Js.Result (list ProductDTO);
  pm_createProducts : list ProductData -> Js.Result (list ProductDTO);
  pm_updateProducts : string -> string * ProductData -> Js.Result ProductDTO
}.

Inductive ProductCall :=
| PmListProducts (externalIds : list string)
| PmCreateProducts (data : list ProductData)
| PmUpdateProducts (id : string) (update : string * ProductData).

(** [Promise.all] over the mapped updates: every call is issued, in list
    order; the whole rejects when one of them does. *)
Fixpoint syncUpdateAll (pm : ProductModule) (toUpdate : list (string * ProductData))
    : list ProductCall * Js.Result unit :=
  match toUpdate with
  | [] => ([], Js.Ok tt)
  | update :: rest =>
      let '(calls, results) := syncUpdateAll pm rest in
      (PmUpdateProducts update.1 update :: calls,
       match pm_updateProducts pm update.1 update, results with
       | Js.Ok _, Js.Ok _ => Js.Ok tt
       | Js.Throw e, _ => Js.Throw e
       | Js.Ok _, Js.Throw e => Js.Throw e
       end)
  end.

(** The body of both [forEach] loops that fill the map from external id
    to product id: a product without external id is passed over. *)
Definition recordExternalId (m : gmap string string) (p : ProductDTO) : gmap string string :=
  match dto_external_id p with
  | Some externalId => if Js.truthy externalId then <[externalId := dto_id p]> m else m
  | None => m
  end.

(** [if (toCreate.length > 0) created = await createProducts(toCreate)]. *)
Definition createIfAny (pm : ProductModule) (toCreate : list ProductData)
    : list ProductCall * Js.Result (list ProductDTO) :=
  if (0 <? length toCreate)%nat
  then ([PmCreateProducts toCreate], pm_createProducts pm toCreate)
  else ([], Js.Ok []).

(** [if (toUpdate.length > 0) await Promise.all(...)]. *)
Definition updateIfAny (pm : ProductModule) (toUpdate : list (string * ProductData))
    : list ProductCall * Js.Result unit :=
  if (0 <? length toUpdate)%nat then syncUpdateAll pm toUpdate else ([], Js.Ok tt).

Definition syncProductsStep (pm : ProductModule)
    (products : list DummyProduct) (brandMap : gmap string string)
    : list ProductCall * Js.Result (StepResponse (gmap string string) (list string)) :=
  let externalIds := map (fun p => Js.toString (dp_id p)) products in
  match pm_listProducts pm externalIds with
  | Js.Throw e => ([PmListProducts externalIds], Js.Throw e)
  | Js.Ok existingProducts =>
      let '(toCreate, toUpdate) := syncSplit brandMap existingProducts products in
      match createIfAny pm toCreate with
      | (createCalls, Js.Throw e) => (PmListProducts externalIds :: createCalls, Js.Throw e)
      | (createCalls, Js.Ok created) =>
          match updateIfAny pm toUpdate with
          | (updateCalls, Js.Throw e) =>
              (PmListProducts externalIds :: createCalls ++ updateCalls, Js.Throw e)
          | (updateCalls, Js.Ok _) =>
              let productExternalIdMap :=
                foldl recordExternalId (foldl recordExternalId ∅ created) existingProducts in
              (PmListProducts externalIds :: createCalls ++ updateCalls,
               Js.Ok (Build_StepResponse productExternalIdMap (map dto_id created)))
          end
      end
  end.

(** The product data handed to [createProducts], and the ids handed to
    [updateProducts]. *)
Definition dataCreated (calls : list ProductCall) : list ProductData :=
  flat_map (fun c => match c with PmCreateProducts data => data | _ => [] end) calls.

Definition idsUpdated (calls : list ProductCall) : list string :=
  omap (fun c => match c with PmUpdateProducts id _ => Some id | _ => None end) calls.

End SyncProducts.

(** ** The CSV export route *)

Module ProductsExport.

Record ExportPrice := { ep_currency_code : string; ep_amount : Z }.

Record ExportVariant := { ev_prices : option (list ExportPrice) }.

(** A product as the query graph returns it for the export. *)
Record ExportProduct := {
  x_id : string;
  x_metadata : option (gmap string string);
  x_title : option string;
  x_handle : string;
  x_status : string;
  x_brand_name : option string;
  x_variants : option (list ExportVariant);
  x_created_at : string
}.

Definition header : string :=
  Js.join "," ["ID"; "External ID"; "Title"; "Handle"; "Status"; "Brand";
               "Price (USD)"; "Created At"].

(** The amount of the usd price of the first variant. *)
Definition usdPriceOf (product : ExportProduct) : option Z :=
  match x_variants product with
  | Some (v :: _) =>
      match ev_prices v with
      | Some prices =>
          match find (fun pr => String.eqb (ep_currency_code pr) "usd") prices with
          | Some p => Some (ep_amount p)
          | None => None
          end
      | None => None
      end
  | _ => None
  end.

(** [usdPrice ? (usdPrice / 100).toFixed(2) : "N/A"]: the number zero is
    falsy. *)
Definition priceDisplay (usdPrice : option Z) : string :=
  match usdPrice with
  | Some amount => if (amount =? 0)%Z then "N/A" else Js.centsToFixed2 amount
  | None => "N/A"
  end.

(** A field between double quotes, its own double quotes doubled. *)
Definition quoted (s : string) : string :=
  String Js.dquote (Js.doubleQuotes s +:+ Js.str1 Js.dquote)%string.

(** [x || EMPTY] for an optional string. *)
Definition orEmpty (o : option string) : string :=
  match o with
  | Some s => s
  | None => EmptyString
  end.

(** The title as the template literal renders it: an absent title shows
    as the word undefined. *)
Definition titleText (product : ExportProduct) : string :=
  match x_title product with
  | Some t => Js.doubleQuotes t
  | None => "undefined"
  end.

Definition titleField (product : ExportProduct) : string :=
  String Js.dquote (titleText product +:+ Js.str1 Js.dquote)%string.

Definition externalIdOf (product : ExportProduct) : string :=
  orEmpty (m ← x_metadata product; m !! "external_id").

Definition rowFields (product : ExportProduct) : list string :=
  [ x_id product;
    externalIdOf product;
    titleField product;
    x_handle product;
    x_status product;
    quoted (orEmpty (x_brand_name product));
    priceDisplay (usdPriceOf product);
    x_created_at product ].

Definition rowOf (product : ExportProduct) : string := Js.join "," (rowFields product).

(** *** Reading a record back under the CSV quoting rules *)









(** *** Reading a price back *)







(** *** The route *)

(** What a rejected promise carries: an [Error] or some other value. *)
Inductive Raised :=
| RaisedError (e : Js.Error)
| RaisedOther.

(** [error instanceof Error ? error.message : ...]. *)
Definition errorText (r : Raised) : string :=
  match r with
  | RaisedError (Js.mkError message) => message
  | RaisedOther => "Unknown error"
  end.

(** What [query.graph] resolves or rejects with; [data] may be missing. *)
Inductive GraphAnswer :=
| GraphData (products : option (list ExportProduct))
| GraphRaised (r : Raised).

(** [query.graph] for the product entity: the answer to the [n]-th query
    of a request, for the given [skip] and [take]. *)
Definition Graph : Type := nat -> Z -> Z -> GraphAnswer.

(** What the route does to the response, the query service and the
    console. *)
Inductive Output :=
| SetHeader (name value : string)
| ResWrite (chunk : string)
| QueryGraph (skip take : Z)
| ConsoleError (r : Raised)
| ResEnd.

(** [parseInt(text) || d]: [parsed] is what [parseInt] gives, [None]
    standing for NaN; zero is falsy as well. *)
Definition orDefault (parsed : option Z) (d : Z) : Z :=
  match parsed with
  | Some n => if (n =? 0)%Z then d else n
  | None => d
  end.

Definition BATCH_SIZE : Z := 50.

Definition newline : string := Js.str1 (ascii_of_N 10).

(** How the [while] loop ends: its condition fails or it breaks, the
    query rejects, or the bound on its turns in this model is reached. *)
Inductive LoopEnd :=
| Finished
| Failed (r : Raised)
| Unfinished.

(** The [while] loop, from the [n]-th query on.  [hasMore] is true
    whenever the loop condition is looked at: where the source clears it,
    the loop ends here. *)
Fixpoint exportLoop (graph : Graph) (fuel n : nat)
    (requestedLimit currentOffset productsFetched : Z) : list Output * LoopEnd :=
  if (productsFetched <? requestedLimit)%Z then
    match fuel with
    | O => ([], Unfinished)
    | S fuel' =>
        let remaining := (requestedLimit - productsFetched)%Z in
        let take := Z.min BATCH_SIZE remaining in
        match graph n currentOffset take with
        | GraphRaised r => ([QueryGraph currentOffset take], Failed r)
        | GraphData None => ([QueryGraph currentOffset take], Finished)
        | GraphData (Some []) => ([QueryGraph currentOffset take], Finished)
        | GraphData (Some products) =>
            let rows := map (fun product => ResWrite (rowOf product +:+ newline)) products in
            let count := Z.of_nat (length products) in
            if (count <? take)%Z then (QueryGraph currentOffset take :: rows, Finished)
            else
              let '(out, e) :=
                exportLoop graph fuel' (S n) requestedLimit
                  (currentOffset + count) (productsFetched + count) in
              (QueryGraph currentOffset take :: rows ++ out, e)
        end
    end
  else ([], Finished).

Definition errorLine (r : Raised) : string :=
  (newline +:+ "ERROR: " +:+ errorText r +:+ newline)%string.

(** The route.  [limit] and [offset] are what [parseInt] makes of the two
    query parameters. *)
Definition GET (graph : Graph) (fuel : nat) (limit offset : option Z) : list Output :=
  let requestedLimit := orDefault limit 100 in
  let requestedOffset := orDefault offset 0 in
  let '(out, e) := exportLoop graph fuel 0 requestedLimit requestedOffset 0 in
  [ SetHeader "Content-Type" "text/csv";
    SetHeader "Content-Disposition" "attachment; filename=products.csv";
    ResWrite (header +:+ newline) ]
  ++ out
  ++ match e with
     | Finished => [ResEnd]
     | Failed r => [ConsoleError r; ResWrite (errorLine r); ResEnd]
     | Unfinished => []
     end.

(** What was written to the response, and what was asked of the query
    service. *)
Definition written (out : list Output) : list string :=
  omap (fun o => match o with ResWrite chunk => Some chunk | _ => None end) out.

Definition queried (out : list Output) : list (Z * Z) :=
  omap (fun o => match o with QueryGraph skip take => Some (skip, take) | _ => None end) out.

(** An output of the loop: a query or a written row. *)
Definition loopOutput (o : Output) : Prop :=
  match o with
  | QueryGraph _ _ | ResWrite _ => True
  | _ => False
  end.

(** A query service that serves a fixed list of products: the answer to
    a query is the stretch of the list that [skip] and [take] cut out. *)
Definition serveStore (store : list ExportProduct) : Graph :=
  fun _ skip take =>
    GraphData (Some (firstn (Z.to_nat take) (skipn (Z.to_nat skip) store))).

Definition servesFrom (graph : Graph) (store : list ExportProduct) : Prop :=
  forall (n : nat) (skip take : Z), graph n skip take = serveStore store n skip take.

(** A query service that never answers with more products than were
    asked for, whenever a number of products that is not negative is asked
    for. *)
Definition honoursTake (graph : Graph) : Prop :=
  forall (n : nat) (skip take : Z) (products : list ExportProduct),
    (0 <= take)%Z ->
    graph n skip take = GraphData (Some products) ->
    (Z.of_nat (length products) <= take)%Z.

End ProductsExport.


(** ** [scripts/test-sync.ts] *)

Module Scripts.
Import Model Eff DailyProductSync.

(** The manual run of the job.  The logger resolved here is the one the
    job resolves. *)
Definition testSync (env : Env) (fuel : nat) : M unit :=
  (logInfo "Starting manual test of daily product sync..." ;;
   dailyProductSync env fuel ;;
   logInfo "Manual test completed.")%eff.

End Scripts.

(** ** Concrete inputs for the examples *)

Module Samples.
Import Model Eff DailyProductSync BatchProducts ProductsExport.

Definition sampleProduct (id : Z) (title : string) : DummyProduct :=
  {| dp_id := id; dp_title := title; dp_description := "A sample";
     dp_price := (999 # 100)%Q; dp_discountPercentage := 0%Q;
     dp_brand := Some "Essence"; dp_category := Some "beauty";
     dp_thumbnail := "https://cdn.example/t.png" |}.

Definition storedProduct (id externalId : string) : ProductDTO :=
  {| dto_id := id; dto_title := "stored"; dto_handle := "stored";
     dto_metadata := Some {[ "external_id" := externalId ]} |}.

Definition sampleBatch : list DummyProduct :=
  [sampleProduct 1 "Essence Mascara"; sampleProduct 2 "Red Lipstick"].

Definition sampleStore : list ProductDTO :=
  [storedProduct "prod_a" "1"; storedProduct "prod_b" "2"].

(** A remote product of the brand [brand]. *)
Definition brandedProduct (id : Z) (brand : string) : DummyProduct :=
  {| dp_id := id; dp_title := "Item"; dp_description := "A sample";
     dp_price := (999 # 100)%Q; dp_discountPercentage := 0%Q;
     dp_brand := Some brand; dp_category := Some "beauty";
     dp_thumbnail := "https://cdn.example/t.png" |}.

(** A batch of which the sample store knows the first and the last
    product, under the ids prod_b and prod_a. *)
Definition mixedBatch : list DummyProduct :=
  [sampleProduct 2 "Red Lipstick"; sampleProduct 3 "Nail Polish";
   sampleProduct 1 "Essence Mascara"].

(** A network whose first answer is an ok response with a body that does
    not parse, and whose later answers are ok responses with body [7]. *)
Definition brokenBodyThenGood : Fetch Z :=
  fun n _ =>
    Js.Ok {| res_ok := true; res_status := 200;
             res_json := if Nat.eqb n 0
                         then Js.Throw (Js.mkError "Unexpected end of JSON input")
                         else Js.Ok 7%Z |}.

Definition sampleCatalog (n : nat) : list DummyProduct :=
  map (fun k => sampleProduct (Z.of_nat k) "Item") (seq 1 n).

(** The product module knows no product; the network fails at every
    fourth outside call, which is when the job makes the first attempt for
    a page, and answers from the catalogue otherwise; the workflow returns
    an error for the first batch (the fourth outside call, number 3) and
    none afterwards. *)
Definition flakyEnv : Env :=
  {| env_fetch := fun n url =>
       if Nat.eqb (n mod 4) 0 then Js.Throw (Js.mkError "timeout")
       else serve (sampleCatalog 45) 20 n url;
     env_listProducts := fun _ _ => Js.Ok [];
     env_runWorkflow := fun n _ => if Nat.eqb n 3 then ["create-products-step failed"] else [] |}.

(** An environment whose product module knows no product and whose
    workflow returns no error, on a network that is down for the second
    page and answers from the catalogue otherwise. *)
Definition secondPageDown : Env :=
  {| env_fetch := fun n url =>
       if String.eqb url (pageUrl 20 1) then Js.Throw (Js.mkError "network down")
       else serve (sampleCatalog 45) 20 n url;
     env_listProducts := fun _ _ => Js.Ok [];
     env_runWorkflow := fun _ _ => [] |}.

(** The same on a sound network, with a product module that is down from
    the second listing on (the listings are the outside calls 1, 4, ...). *)
Definition listingDown : Env :=
  {| env_fetch := serve (sampleCatalog 45) 20;
     env_listProducts := fun n _ =>
       if Nat.ltb 1 n then Js.Throw (Js.mkError "database down") else Js.Ok [];
     env_runWorkflow := fun _ _ => [] |}.

(** Services for the examples: the brand module knows the brand Acme, no
    category exists, created rows get ids made from their names, and the
    product module refuses to create products. *)
Definition failingProductServices : Services :=
  {| listBrands := fun _ => Js.Ok [ {| b_id := "brand_1"; b_name := "Acme" |} ];
     createBrands := fun names =>
       Js.Ok (map (fun n => {| b_id := "new-" +:+ n; b_name := n |}) names);
     listProductCategories := fun _ _ => Js.Ok [];
     createProductCategories := fun inputs =>
       Js.Ok (map (fun i => {| c_id := "new-" +:+ ci_handle i;
                               c_name := ci_name i; c_handle := ci_handle i |}) inputs);
     createProducts := fun _ => Js.Throw (Js.mkError "insert failed");
     updateProducts := fun id _ =>
       Js.Ok {| dto_id := id; dto_title := "t"; dto_handle := "h"; dto_metadata := None |};
     linkDismiss := fun _ => Js.Ok tt;
     linkCreate := fun _ => Js.Ok tt |}.

Definition sampleInput (externalId brand category : string) : ProductInput :=
  {| pi_title := "Item"; pi_description := "A sample"; pi_handle := "item";
     pi_status := "draft"; pi_metadata := {[ "external_id" := externalId ]};
     pi_thumbnail := None; pi_brandName := Some brand; pi_categoryName := Some category;
     pi_variants := []; pi_options := [] |}.

Definition sampleWorkflowInput : BatchWorkflowInput :=
  {| bw_create := [sampleInput "1" "Acme" "beauty"; sampleInput "2" "Zed" "beauty"];
     bw_update := [] |}.

(** An update entry that carries the id and an empty status string. *)
Definition emptyStatusUpdate : UpdateInput :=
  {| u_id := "prod_1"; u_title := None; u_description := None; u_handle := None;
     u_status := Some EmptyString; u_metadata := None; u_thumbnail := None;
     u_brandName := None; u_categoryName := None; u_variants := None; u_options := None |}.

(** A product of the export, with the external id and the usd amount as
    given. *)
Definition exportedProduct (externalId : string) (usdAmount : Z) : ExportProduct :=
  {| x_id := "prod_1";
     x_metadata := Some {[ "external_id" := externalId ]};
     x_title := Some "Mascara, black";
     x_handle := "mascara-black-7";
     x_status := "draft";
     x_brand_name := Some "Essence";
     x_variants := Some [ {| ev_prices := Some [ {| ep_currency_code := "eur"; ep_amount := 900 |};
                                                  {| ep_currency_code := "usd"; ep_amount := usdAmount |} ] |} ];
     x_created_at := "2026-01-01T00:00:00.000Z" |}.




(** A network that is down for the first [n] outside calls and answers
    with body [7] afterwards. *)
Definition downThenGood (n : nat) : Fetch Z :=
  fun m _ =>
    if Nat.ltb m n then Js.Throw (Js.mkError "network down")
    else Js.Ok {| res_ok := true; res_status := 200; res_json := Js.Ok 7%Z |}.

(** A network that answers every request with status 503. *)
Definition unavailable : Fetch Z :=
  fun _ _ =>
    Js.Ok {| res_ok := false; res_status := 503;
             res_json := Js.Throw (Js.mkError "no body") |}.

(** A server that answers every request with the same page of one product
    and the total 1. *)
Definition onePageServer : Fetch DummyResponse :=
  fun _ _ =>
    Js.Ok {| res_ok := true; res_status := 200;
             res_json := Js.Ok {| dr_products := Some [sampleProduct 1 "Item"];
                                  dr_total := 1; dr_skip := 0; dr_limit := 0 |} |}.

(** A server whose page has no product list. *)
Definition noProductsServer : Fetch DummyResponse :=
  fun _ _ =>
    Js.Ok {| res_ok := true; res_status := 200;
             res_json := Js.Ok {| dr_products := None;
                                  dr_total := 100; dr_skip := 0; dr_limit := 20 |} |}.

(** An environment whose network is down. *)
Definition networkDown : Env :=
  {| env_fetch := fun _ _ => Js.Throw (Js.mkError "network down");
     env_listProducts := fun _ _ => Js.Ok [];
     env_runWorkflow := fun _ _ => [] |}.


(** A create entry that names no brand and has an empty category name. *)
Definition namelessInput (externalId : string) : ProductInput :=
  {| pi_title := "Item"; pi_description := "A sample"; pi_handle := "item";
     pi_status := "draft"; pi_metadata := {[ "external_id" := externalId ]};
     pi_thumbnail := None; pi_brandName := None; pi_categoryName := Some EmptyString;
     pi_variants := []; pi_options := [] |}.

(** Services that answer every call: the brand module knows the brand
    Acme, no category exists, and created rows get ids made from their
    names. *)
Definition sampleServices : Services :=
  {| listBrands := fun _ => Js.Ok [ {| b_id := "brand_1"; b_name := "Acme" |} ];
     createBrands := fun names =>
       Js.Ok (map (fun n => {| b_id := "new-" +:+ n; b_name := n |}) names);
     listProductCategories := fun _ _ => Js.Ok [];
     createProductCategories := fun inputs =>
       Js.Ok (map (fun i => {| c_id := "new-" +:+ ci_handle i;
                               c_name := ci_name i; c_handle := ci_handle i |}) inputs);
     createProducts := fun dtos =>
       Js.Ok (map (fun d => {| dto_id := "prod-" +:+ cp_handle d; dto_title := cp_title d;
                               dto_handle := cp_handle d;
                               dto_metadata := Some (cp_metadata d) |}) dtos);
     updateProducts := fun id _ =>
       Js.Ok {| dto_id := id; dto_title := "t"; dto_handle := "h"; dto_metadata := None |};
     linkDismiss := fun _ => Js.Ok tt;
     linkCreate := fun _ => Js.Ok tt |}.


(** A product module that knows the product with external id 1 and
    gives created products ids made from their handles. *)
Definition sampleProductModule : SyncProducts.ProductModule :=
  {| SyncProducts.pm_listProducts := fun _ => Js.Ok [storedProduct "prod_a" "1"];
     SyncProducts.pm_createProducts := fun data =>
       Js.Ok (map (fun d => {| dto_id := "prod-" +:+ SyncProducts.pd_handle d;
                               dto_title := SyncProducts.pd_title d;
                               dto_handle := SyncProducts.pd_handle d;
                               dto_metadata :=
                                 Some {[ "external_id" := SyncProducts.pd_external_id d ]} |})
                  data);
     SyncProducts.pm_updateProducts := fun id _ =>
       Js.Ok {| dto_id := id; dto_title := "t"; dto_handle := "h"; dto_metadata := None |} |}.


(** A store of [n] products for the export, with the external ids 1 to
    [n]. *)
Definition exportStore (n : nat) : list ExportProduct :=
  map (fun k => exportedProduct (Js.toString (Z.of_nat k)) 999) (seq 1 n).

(** A query service that serves the store of [n] products for its first
    [k] queries and rejects every later query. *)
Definition graphDownAfter (n k : nat) : Graph :=
  fun i skip take =>
    if Nat.ltb i k then serveStore (exportStore n) i skip take
    else GraphRaised (RaisedError (Js.mkError "connection lost")).




End Samples.

(* ===================================================================== *)
(** * Part II: properties                                                 *)
(* ===================================================================== *)

(** ** Facts about the run-time pieces *)

Module JsFacts.
Import Js.

Section Unique.
Context `{EqDecision A}.

Lemma Set_add_elem (seen : list A) x y : y ∈ Set_add seen x ↔ y ∈ seen ∨ y = x.
Proof.
  unfold Set_add. destruct (decide (x ∈ seen)) as [Hin | Hout].
  - split; [auto | intros [? | ->]; done].
  - rewrite elem_of_app, list_elem_of_singleton. tauto.
Qed.

Lemma Set_add_NoDup (seen : list A) x : NoDup seen → NoDup (Set_add seen x).
Proof.
  intros Hnd. unfold Set_add. destruct (decide (x ∈ seen)); [done |].
  apply NoDup_app. split; [done |]. split.
  - intros y Hy ->%list_elem_of_singleton. done.
  - apply NoDup_singleton.
Qed.

Lemma foldl_Set_add_elem (xs seen : list A) y :
  y ∈ foldl Set_add seen xs ↔ y ∈ seen ∨ y ∈ xs.
Proof.
  revert seen. induction xs as [| x xs IH]; intros seen; simpl.
  - rewrite elem_of_nil. tauto.
  - rewrite IH, Set_add_elem, elem_of_cons. tauto.
Qed.

Lemma foldl_Set_add_NoDup (xs seen : list A) :
  NoDup seen → NoDup (foldl Set_add seen xs).
Proof.
  revert seen. induction xs as [| x xs IH]; intros seen Hnd; simpl; [done |].
  apply IH, Set_add_NoDup, Hnd.
Qed.

Lemma unique_elem (xs : list A) y : y ∈ unique xs ↔ y ∈ xs.
Proof. unfold unique. rewrite foldl_Set_add_elem, elem_of_nil. tauto. Qed.

Lemma unique_NoDup (xs : list A) : NoDup (unique xs).
Proof. apply foldl_Set_add_NoDup, NoDup_nil_2. Qed.

End Unique.

Section MapOf.
Context `{Countable K} {V : Type}.
Implicit Types (m : gmap K V) (entries : list (K * V)).

Lemma foldl_put_lookup_Some entries m k v :
  foldl putEntry m entries !! k = Some v → (k, v) ∈ entries ∨ m !! k = Some v.
Proof.
  revert m. induction entries as [| [k' v'] entries IH]; intros m; simpl; [auto |].
  intros [Hin | Hm]%IH.
  - left. by apply list_elem_of_further.
  - unfold putEntry in Hm. simpl in Hm.
    destruct (decide (k' = k)) as [-> | Hne].
    + rewrite lookup_insert_eq in Hm. injection Hm as ->. left. apply list_elem_of_here.
    + rewrite lookup_insert_ne in Hm by done. by right.
Qed.

Lemma foldl_put_lookup_is_Some entries m k :
  is_Some (foldl putEntry m entries !! k) ↔ k ∈ entries.*1 ∨ is_Some (m !! k).
Proof.
  revert m. induction entries as [| [k' v'] entries IH]; intros m; simpl.
  - rewrite elem_of_nil. tauto.
  - rewrite IH, elem_of_cons. unfold putEntry. simpl.
    destruct (decide (k' = k)) as [-> | Hne].
    + rewrite lookup_insert_eq. split; [auto | intros _; right; eauto].
    + rewrite lookup_insert_ne by done. split; [tauto |].
      intros [[? | ?] | ?]; [congruence | tauto | tauto].
Qed.

Lemma Map_of_lookup_Some entries k v :
  Map_of entries !! k = Some v → (k, v) ∈ entries.
Proof.
  intros [? | Hm]%foldl_put_lookup_Some; [done |]. by rewrite lookup_empty in Hm.
Qed.

Lemma Map_of_lookup_is_Some entries k :
  is_Some (Map_of entries !! k) ↔ k ∈ entries.*1.
Proof.
  unfold Map_of. rewrite foldl_put_lookup_is_Some, lookup_empty.
  split; [intros [? | []%is_Some_None]; done | auto].
Qed.

End MapOf.

(** Decimal rendering is injective: different integers read differently. *)
Lemma to_int_not_nil (z : Z) :
  Z.to_int z ≠ Decimal.Pos Decimal.Nil ∧ Z.to_int z ≠ Decimal.Neg Decimal.Nil.
Proof.
  assert (Hn : ∀ p, Pos.to_uint p ≠ Decimal.Nil).
  { intros p Hp. pose proof (DecimalPos.Unsigned.to_uint_nonnil p). contradiction. }
  destruct z as [| p | p]; simpl; split; try discriminate; intros [= Hp]; by apply (Hn p).
Qed.

Lemma toString_inj (a b : Z) : toString a = toString b → a = b.
Proof.
  unfold toString. intros Heq.
  destruct (to_int_not_nil a) as [Ha1 Ha2], (to_int_not_nil b) as [Hb1 Hb2].
  apply DecimalZ.to_int_inj.
  pose proof (NilZero.isi _ Ha1 Ha2) as Ea. pose proof (NilZero.isi _ Hb1 Hb2) as Eb.
  rewrite Heq in Ea. congruence.
Qed.

(** *** Strings and their JSON form *)

Lemma append_assoc (a b c : string) : (a +:+ b) +:+ c = a +:+ (b +:+ c).
Proof.
  induction a as [| x a IH]; [done |].
  change (String x ((a +:+ b) +:+ c) = String x (a +:+ (b +:+ c))). by rewrite IH.
Qed.

Lemma append_nil_r (a : string) : a +:+ EmptyString = a.
Proof.
  induction a as [| x a IH]; [done |].
  change (String x (a +:+ EmptyString) = String x a). by rewrite IH.
Qed.

(** The escape of one character is read back as that character. *)
Lemma parse_escapeChar (c : ascii) (rest : string) :
  parseStringBody (escapeChar c +:+ rest) = consFst c <$> parseStringBody rest.
Proof.
  destruct c as [[] [] [] [] [] [] [] []]; reflexivity.
Qed.

Lemma parse_escapeString (s rest : string) :
  parseStringBody (escapeString s +:+ String dquote rest) = Some (s, rest).
Proof.
  induction s as [| c s IH]; [done |].
  simpl escapeString. rewrite append_assoc, parse_escapeChar, IH. done.
Qed.

Lemma parseString_stringify (s rest : string) :
  parseString (JSON_stringify_string s +:+ rest) = Some (s, rest).
Proof.
  unfold JSON_stringify_string, parseString, str1. simpl.
  rewrite append_assoc. simpl. apply parse_escapeString.
Qed.

Lemma expect_append (lit rest : string) : expect lit (lit +:+ rest) = Some rest.
Proof.
  induction lit as [| a lit IH]; simpl; [done |]. by rewrite N.eqb_refl.
Qed.

(** The decimal rendering of a number that is not negative is made of
    digits. *)
Lemma digits_string_of_uint d : allChars is_digit (NilEmpty.string_of_uint d) = true.
Proof. induction d; simpl; done. Qed.

Lemma digits_toString n : (0 ≤ n)%Z → allChars is_digit (toString n) = true.
Proof.
  intros Hn. destruct n as [| p | p]; [done | | lia].
  unfold toString. simpl. destruct (Pos.to_uint p); try apply (digits_string_of_uint (_ _)); done.
Qed.

(** What [find] returns is the first element that passes the test. *)
Lemma find_first {X} (f : X → bool) (l : list X) x :
  find f l = Some x →
  ∃ before after, l = before ++ x :: after ∧ Forall (fun y => f y = false) before ∧ f x = true.
Proof.
  induction l as [| y l IH]; [done |]. cbn [find]. destruct (f y) eqn:Hy.
  - intros [= ->]. exists [], l. done.
  - intros (before & after & -> & Hbefore & Hx)%IH.
    exists (y :: before), after. split; [done |]. split; [by constructor | done].
Qed.


End JsFacts.

(** ** The create/update split of a batch *)

Module SplitFacts.
Import Js Model DailyProductSync JsFacts.

Lemma foldl_route (M : gmap (option string) ProductDTO) batch creates updates :
  foldl (route M) (creates, updates) batch
  = (creates ++ map mapToMedusaFormat (filter (fun p => M !! keyOf p = None) batch),
     updates ++ omap (fun p => (fun e => updateEntryFor e p) <$> M !! keyOf p) batch).
Proof.
  revert creates updates. induction batch as [| p batch IH]; intros creates updates; simpl.
  - by rewrite !app_nil_r.
  - unfold route at 2. fold (keyOf p). simpl.
    destruct (M !! keyOf p) as [e |] eqn:HM; simpl.
    + rewrite IH. rewrite filter_cons_False by (rewrite HM; done).
      by rewrite <- app_assoc.
    + rewrite IH. rewrite filter_cons_True by done. simpl.
      by rewrite <- app_assoc.
Qed.

Lemma existingMap_Some existingProducts p e :
  existingMapOf existingProducts !! keyOf p = Some e →
  e ∈ existingProducts ∧ dto_external_id e = keyOf p.
Proof.
  intros Hin%Map_of_lookup_Some.
  apply list_elem_of_fmap in Hin as (e' & [= Hk He] & Hin). subst e'. done.
Qed.

Lemma existingMap_is_Some existingProducts p :
  is_Some (existingMapOf existingProducts !! keyOf p) ↔ Stored existingProducts p.
Proof.
  unfold existingMapOf. rewrite Map_of_lookup_is_Some, <- list_fmap_compose.
  unfold Stored. rewrite Exists_exists, list_elem_of_fmap. simpl.
  split; intros (e & ? & ?); exists e; done.
Qed.

Lemma existingMap_None existingProducts p :
  existingMapOf existingProducts !! keyOf p = None ↔ ¬ Stored existingProducts p.
Proof. rewrite <- existingMap_is_Some, eq_None_not_Some. done. Qed.

Lemma updates_target existingProducts batch :
  Forall2 (Targets existingProducts)
    (filter (Stored existingProducts) batch)
    (omap (fun p => (fun e => updateEntryFor e p) <$> existingMapOf existingProducts !! keyOf p) batch).
Proof.
  induction batch as [| p batch IH]; simpl; [constructor |].
  destruct (existingMapOf existingProducts !! keyOf p) as [e |] eqn:HM; simpl.
  - rewrite filter_cons_True by (apply existingMap_is_Some; rewrite HM; eauto).
    constructor; [| done].
    apply existingMap_Some in HM as [Hin Hext]. by exists e.
  - rewrite filter_cons_False by (by apply existingMap_None). done.
Qed.

Lemma filter_split_length {A} (P : A → Prop) `{∀ x, Decision (P x)} (l : list A) :
  length (filter (fun x => ¬ P x) l) + length (filter P l) = length l.
Proof.
  induction l as [| x l IH]; simpl; [done |].
  destruct (decide (P x)).
  - rewrite filter_cons_False by tauto. rewrite filter_cons_True by done. simpl. lia.
  - rewrite filter_cons_True by done. rewrite filter_cons_False by done. simpl. lia.
Qed.

Lemma splitBatch_creates existingProducts batch :
  (splitBatch existingProducts batch).1
  = map mapToMedusaFormat (filter (fun p => ¬ Stored existingProducts p) batch).
Proof.
  unfold splitBatch. rewrite foldl_route. cbn [fst app]. f_equal.
  apply list_filter_iff. intros p. apply existingMap_None.
Qed.

Lemma splitBatch_updates existingProducts batch :
  Forall2 (Targets existingProducts)
    (filter (Stored existingProducts) batch) (splitBatch existingProducts batch).2.
Proof.
  unfold splitBatch. rewrite foldl_route. cbn [snd app]. apply updates_target.
Qed.

Lemma splitBatch_length existingProducts batch :
  length (splitBatch existingProducts batch).1 + length (splitBatch existingProducts batch).2
  = length batch.
Proof.
  rewrite splitBatch_creates, length_map.
  rewrite <- (Forall2_length _ _ _ (splitBatch_updates existingProducts batch)).
  apply filter_split_length.
Qed.

Lemma filter_all {A} (P : A → Prop) `{∀ x, Decision (P x)} (l : list A) :
  Forall P l → filter P l = l.
Proof.
  induction 1 as [| x l Hx Hl IH]; [done |].
  rewrite filter_cons_True by done. by rewrite IH.
Qed.

Lemma filter_none {A} (P : A → Prop) `{∀ x, Decision (P x)} (l : list A) :
  Forall P l → filter (fun x => ¬ P x) l = [].
Proof.
  induction 1 as [| x l Hx Hl IH]; [done |].
  rewrite filter_cons_False by tauto. done.
Qed.

Lemma external_id_of_mapped (p : DummyProduct) :
  pi_metadata (mapToMedusaFormat p) !! "external_id" = Some (toString (dp_id p)).
Proof. simpl. apply lookup_singleton_eq. Qed.

End SplitFacts.

Module Partition.
Import Js Model DailyProductSync JsFacts SplitFacts Samples.

(** C1. [dailyProductSync] splits every batch by the external id: the
    create batch is the mapped form of exactly the batch elements whose id
    string no stored product carries as external id, in batch order; the
    update batch holds, in batch order, one entry for every other element.
    The entry of an element has as its id the id of a stored product that
    carries the element's id string as external id, and holds besides the
    fields of the element's mapped form: its title, description, handle,
    status, metadata with the external id, thumbnail, brand and category
    names, variants and options.  The two batches together have as many
    entries as the batch has elements. *)
Theorem splitBatch_partitions_by_external_id
    (existingProducts : list ProductDTO) (batch : list DummyProduct) :
  let createBatch := (splitBatch existingProducts batch).1 in
  let updateBatch := (splitBatch existingProducts batch).2 in
  createBatch = map mapToMedusaFormat (filter (fun p => ¬ Stored existingProducts p) batch)
  ∧ Forall2 (Targets existingProducts) (filter (Stored existingProducts) batch) updateBatch
  ∧ Forall2 (fun p u =>
               ∃ e, e ∈ existingProducts
                 ∧ dto_external_id e = Some (toString (dp_id p))
                 ∧ u_id u = dto_id e
                 ∧ u_metadata u = Some {[ "external_id" := toString (dp_id p) ]}
                 ∧ u_title u = Some (dp_title p)
                 ∧ u_description u = Some (dp_description p)
                 ∧ u_handle u = Some (handleOf (dp_title p) (dp_id p))
                 ∧ u_status u = Some "draft"
                 ∧ u_thumbnail u = Some (dp_thumbnail p)
                 ∧ u_brandName u = dp_brand p
                 ∧ u_categoryName u = dp_category p
                 ∧ u_variants u = Some (pi_variants (mapToMedusaFormat p))
                 ∧ u_options u = Some (pi_options (mapToMedusaFormat p)))
            (filter (Stored existingProducts) batch) updateBatch
  ∧ length createBatch + length updateBatch = length batch.
Proof.
  intros createBatch updateBatch. subst createBatch updateBatch.
  split; [apply splitBatch_creates |].
  split; [apply splitBatch_updates |].
  split; [| apply splitBatch_length].
  eapply Forall2_impl; [apply splitBatch_updates |].
  intros p u (e & Hin & Hext & ->). exists e.
  split; [exact Hin |]. split; [exact Hext |]. repeat split.
Qed.

(** The statement at a batch of three products of which the sample store
    knows the first and the last: the second one is created, the other two
    are updated under the ids of the stored products that carry their
    ids. *)
Lemma splitBatch_partitions_witness :
  (splitBatch sampleStore mixedBatch).1 = [mapToMedusaFormat (sampleProduct 3 "Nail Polish")]
  ∧ map u_id (splitBatch sampleStore mixedBatch).2 = ["prod_b"; "prod_a"]
  ∧ length (splitBatch sampleStore mixedBatch).1 + length (splitBatch sampleStore mixedBatch).2
    = 3.
Proof.
  split; [vm_compute; reflexivity |]. split; [vm_compute; reflexivity |].
  exact (proj2 (proj2 (proj2 (splitBatch_partitions_by_external_id sampleStore mixedBatch)))).
Defined.

(** C7. A batch all of whose id strings are already carried by stored
    products creates nothing when it is synced again: the create batch is
    empty and every element, in order, gets an update entry that targets a
    stored product carrying its id string and that holds the external id
    and the handle computed from the remote product alone; moreover two
    remote products are given the same external id only if they have the
    same id. *)
Theorem resync_creates_nothing
    (existingProducts : list ProductDTO) (batch : list DummyProduct) :
  Forall (Stored existingProducts) batch →
  (splitBatch existingProducts batch).1 = []
  ∧ Forall2 (Targets existingProducts) batch (splitBatch existingProducts batch).2
  ∧ Forall2 (fun p u =>
               u_metadata u = Some {[ "external_id" := toString (dp_id p) ]}
               ∧ u_handle u = Some (handleOf (dp_title p) (dp_id p)))
            batch (splitBatch existingProducts batch).2
  ∧ (∀ p q : DummyProduct,
       pi_metadata (mapToMedusaFormat p) !! "external_id"
       = pi_metadata (mapToMedusaFormat q) !! "external_id" → dp_id p = dp_id q).
Proof.
  intros Hall.
  assert (Hkey : ∀ p q : DummyProduct,
            pi_metadata (mapToMedusaFormat p) !! "external_id"
            = pi_metadata (mapToMedusaFormat q) !! "external_id" → dp_id p = dp_id q).
  { intros p q. rewrite !external_id_of_mapped. intros [= Heq]. by apply toString_inj. }
  unfold splitBatch. rewrite foldl_route. cbn [fst snd app].
  assert (Hc : filter (fun p => existingMapOf existingProducts !! keyOf p = None) batch = []).
  { rewrite <- (filter_none (Stored existingProducts) batch Hall).
    apply list_filter_iff. intros p. apply existingMap_None. }
  pose proof (updates_target existingProducts batch) as Hu.
  rewrite (filter_all _ _ Hall) in Hu.
  rewrite Hc. split; [done |]. split; [exact Hu |]. split.
  - eapply Forall2_impl; [exact Hu |].
    intros p u (e & _ & _ & ->). done.
  - exact Hkey.
Qed.

(** The statement at a batch of two products that are both in the sample
    store. *)
Lemma resync_creates_nothing_witness :
  Forall (Stored sampleStore) sampleBatch
  ∧ (splitBatch sampleStore sampleBatch).1 = []
  ∧ map u_id (splitBatch sampleStore sampleBatch).2 = ["prod_a"; "prod_b"].
Proof.
  assert (H : Forall (Stored sampleStore) sampleBatch).
  { apply (bool_decide_unpack _). vm_compute. exact I. }
  split; [exact H |].
  split; [exact (proj1 (resync_creates_nothing sampleStore sampleBatch H)) |].
  vm_compute. reflexivity.
Defined.

End Partition.

(** ** Fetching with retries *)

Module RetryFacts.
Import Js Model Eff DailyProductSync.

Section Attempts.
Context {T : Type} (fetch : Fetch T).

Lemma attempt_run (url : string) (w : World) :
  attempt fetch url w
  = (match attemptResult fetch (clock w) url with
     | Ok v => Returned v
     | Throw e => Thrown e
     end, after w 1 [EvFetch url]).
Proof.
  unfold attempt, doFetch, attemptResult, after, bind, tick, emit, lift, ret, throw. simpl.
  replace (clock w + 1) with (S (clock w)) by lia.
  destruct (fetch (clock w) url) as [res | e]; [| done].
  destruct (res_ok res); simpl; [| done].
  destruct (res_json res); done.
Qed.

Lemma after_after (w : World) a b evs evs' :
  after (after w a evs) b evs' = after w (a + b) (evs ++ evs').
Proof. unfold after. simpl. f_equal; [lia | by rewrite app_assoc]. Qed.

Lemma after_0 (w : World) : after w 0 [] = w.
Proof. destruct w. unfold after. simpl. f_equal; [lia | by rewrite app_nil_r]. Qed.

(** One turn of the loop when the attempt succeeds. *)
Lemma fetchAttempts_success url retries backoff remaining i w v :
  attemptResult fetch (clock w) url = Ok v →
  fetchAttempts fetch url retries backoff (S remaining) i w
  = (Returned v, after w 1 [EvFetch url]).
Proof.
  intros Hok. simpl. unfold bind at 1. unfold tryCatch. unfold bind at 1.
  rewrite attempt_run, Hok. done.
Qed.

(** One turn of the loop when the attempt fails before the last one. *)
Lemma fetchAttempts_retry url retries backoff remaining i w e :
  attemptResult fetch (clock w) url = Throw e →
  i ≠ retries - 1 →
  fetchAttempts fetch url retries backoff (S remaining) i w
  = fetchAttempts fetch url retries backoff remaining (S i)
      (after w 1 [EvFetch url; EvSleep (backoff * 2 ^ Z.of_nat i)]).
Proof.
  intros Herr Hi. simpl. unfold bind at 1. unfold tryCatch. unfold bind at 1.
  rewrite attempt_run, Herr.
  apply Nat.eqb_neq in Hi. rewrite Hi.
  unfold bind, sleep, emit, ret, after. simpl. by rewrite <- app_assoc.
Qed.

(** One turn of the loop when the last attempt fails. *)
Lemma fetchAttempts_give_up url retries backoff remaining i w e :
  attemptResult fetch (clock w) url = Throw e →
  i = retries - 1 →
  fetchAttempts fetch url retries backoff (S remaining) i w
  = (Thrown e, after w 1 [EvFetch url]).
Proof.
  intros Herr Hi. simpl. unfold bind at 1. unfold tryCatch. unfold bind at 1.
  rewrite attempt_run, Herr.
  apply Nat.eqb_eq in Hi. rewrite Hi. done.
Qed.

(** For any number of retries: when the attempts before attempt [k] fail
    and attempt [k] succeeds, its body is returned after [k] backoffs of
    [backoff * 2 ^ i]. *)
Lemma fetchAttempts_first_success url retries backoff k :
  ∀ remaining i w v,
    k < remaining → i + remaining = retries →
    (∀ j, j < k → ∃ e, attemptResult fetch (clock w + j) url = Throw e) →
    attemptResult fetch (clock w + k) url = Ok v →
    fetchAttempts fetch url retries backoff remaining i w
    = (Returned v, after w (S k) (failedAttempts url backoff i k ++ [EvFetch url])).
Proof.
  induction k as [| k IH]; intros remaining i w v Hk Hsum Hfail Hok.
  - destruct remaining as [| remaining]; [lia |].
    rewrite Nat.add_0_r in Hok. by rewrite (fetchAttempts_success _ _ _ _ _ _ _ Hok).
  - destruct remaining as [| remaining]; [lia |].
    destruct (Hfail 0 ltac:(lia)) as [e He]. rewrite Nat.add_0_r in He.
    rewrite (fetchAttempts_retry _ _ _ _ _ _ _ He) by lia.
    rewrite (IH remaining (S i) _ v); try lia.
    + rewrite after_after. simpl. done.
    + intros j Hj. destruct (Hfail (S j) ltac:(lia)) as [e' He'].
      exists e'. simpl. rewrite <- He'. f_equal. lia.
    + simpl. rewrite <- Hok. f_equal. lia.
Qed.

(** For any positive number of retries: when every attempt fails, the
    error of the last one is thrown, after a backoff of [backoff * 2 ^ i]
    behind every attempt but the last. *)
Lemma fetchAttempts_all_fail url retries backoff :
  ∀ remaining i w e,
    i + S remaining = retries →
    (∀ j, j < remaining → ∃ e', attemptResult fetch (clock w + j) url = Throw e') →
    attemptResult fetch (clock w + remaining) url = Throw e →
    fetchAttempts fetch url retries backoff (S remaining) i w
    = (Thrown e, after w (S remaining)
                   (failedAttempts url backoff i remaining ++ [EvFetch url])).
Proof.
  induction remaining as [| remaining IH]; intros i w e Hsum Hfail Hlast.
  - rewrite Nat.add_0_r in Hlast.
    by rewrite (fetchAttempts_give_up _ _ _ _ _ _ _ Hlast) by lia.
  - destruct (Hfail 0 ltac:(lia)) as [e0 He0]. rewrite Nat.add_0_r in He0.
    rewrite (fetchAttempts_retry _ _ _ _ _ _ _ He0) by lia.
    rewrite (IH (S i) _ e); try lia.
    + rewrite after_after. simpl. done.
    + intros j Hj. destruct (Hfail (S j) ltac:(lia)) as [e' He'].
      exists e'. simpl. rewrite <- He'. f_equal. lia.
    + simpl. rewrite <- Hlast. f_equal. lia.
Qed.

(** With no retries at all the loop is not entered. *)
Lemma fetchWithRetry_zero url backoff w :
  fetchWithRetry fetch url 0 backoff w = (Thrown (mkError "Unreachable"), w).
Proof. done. Qed.

End Attempts.
End RetryFacts.

Module Retry.
Import Js Model Eff DailyProductSync RetryFacts Samples.

(** C3 (as amended).  With its default arguments [fetchWithRetry] makes at
    most two attempts.  An attempt succeeds when [fetch] resolves, the
    response is ok and its body parses; it fails otherwise.  The body of
    the first attempt is returned when that attempt succeeds; when it
    fails, the function waits [1000 * 2 ^ 0] milliseconds and makes the
    second attempt, whose body it returns on success and whose error it
    throws on failure. *)
Theorem fetchWithRetry_default_two_attempts {T} (fetch : Fetch T) (url : string) (w : World) :
  fetchWithRetry_default fetch url w
  = match attemptResult fetch (clock w) url with
    | Ok v => (Returned v, after w 1 [EvFetch url])
    | Throw _ =>
        match attemptResult fetch (S (clock w)) url with
        | Ok v => (Returned v, after w 2 [EvFetch url; EvSleep (1000 * 2 ^ 0); EvFetch url])
        | Throw e => (Thrown e, after w 2 [EvFetch url; EvSleep (1000 * 2 ^ 0); EvFetch url])
        end
    end.
Proof.
  unfold fetchWithRetry_default, fetchWithRetry.
  destruct (attemptResult fetch (clock w) url) as [v | e0] eqn:H0.
  - by rewrite (fetchAttempts_success _ _ _ _ _ _ _ _ H0).
  - rewrite (fetchAttempts_retry _ _ _ _ _ _ _ _ H0) by (simpl; lia).
    set (w1 := after w 1 _).
    assert (Hclock : clock w1 = S (clock w)) by (unfold w1, after; simpl; lia).
    destruct (attemptResult fetch (S (clock w)) url) as [v | e1] eqn:H1.
    + rewrite <- Hclock in H1. rewrite (fetchAttempts_success _ _ _ _ _ _ _ _ H1).
      unfold w1. by rewrite after_after.
    + rewrite <- Hclock in H1. rewrite (fetchAttempts_give_up _ _ _ _ _ _ _ _ H1) by done.
      unfold w1. by rewrite after_after.
Qed.

(** C3 as stated fails: the first attempt gets an ok response, yet the
    function does not return the parsed body of that attempt (there is
    none); it waits and returns the body of the second attempt. *)
Lemma fetchWithRetry_ok_response_is_retried :
  ¬ ReturnsFirstOkBody brokenBodyThenGood "u" world0
  ∧ fetchWithRetry_default brokenBodyThenGood "u" world0
    = (Returned 7%Z,
       {| clock := 2; trace := [EvFetch "u"; EvSleep 1000; EvFetch "u"] |}).
Proof.
  split; [| vm_compute; reflexivity].
  intros Hclaim. destruct (Hclaim _ eq_refl eq_refl) as (v & Hbody & _). discriminate Hbody.
Qed.

End Retry.

(** ** Paging through the catalogue *)

Module PageFacts.
Import Js Model Eff DailyProductSync JsFacts RetryFacts.

Lemma pageCount_lt n limit k : 0 < limit → k < pageCount n limit ↔ k * limit < n.
Proof.
  intros Hl. unfold pageCount.
  pose proof (Nat.div_mod (n + limit - 1) limit ltac:(lia)) as Hdm.
  pose proof (Nat.mod_upper_bound (n + limit - 1) limit ltac:(lia)) as Hr.
  set (q := (n + limit - 1) / limit) in *. set (r := (n + limit - 1) mod limit) in *.
  split; intros H; nia.
Qed.

Lemma pageAt_length limit catalog k :
  0 < limit → k * limit < length catalog →
  0 < length (pageAt limit catalog k) ≤ limit.
Proof.
  intros Hl Hk. unfold pageAt. rewrite length_take, length_drop. lia.
Qed.

Lemma take_take_drop_add {A} (l : list A) a b :
  take a l ++ take b (drop a l) = take (a + b) l.
Proof.
  revert l. induction a as [| a IH]; intros l; simpl; [by rewrite drop_0 |].
  destruct l as [| x l]; simpl; [by rewrite take_nil |].
  by rewrite IH.
Qed.

Lemma concat_pages limit catalog j : ∀ k,
  concat (map (pageAt limit catalog) (seq k j)) = take (j * limit) (drop (k * limit) catalog).
Proof.
  induction j as [| j IH]; intros k; simpl; [done |].
  rewrite IH. unfold pageAt.
  replace (S k * limit) with (k * limit + limit) by lia.
  rewrite <- drop_drop. apply take_take_drop_add.
Qed.

Lemma concat_all_pages limit catalog :
  0 < limit →
  concat (map (pageAt limit catalog) (seq 0 (pageCount (length catalog) limit))) = catalog.
Proof.
  intros Hl. rewrite concat_pages. simpl. rewrite drop_0.
  apply take_ge.
  destruct (decide (pageCount (length catalog) limit * limit < length catalog)) as [Hlt | ?]; [| lia].
  apply pageCount_lt in Hlt; lia.
Qed.

Section Loop.
Context (fetch : Fetch DummyResponse) (catalog : list DummyProduct) (limit : Z).
Context (Hlimit : (0 < limit)%Z) (Hnet : answersFrom fetch catalog limit).
Let L := Z.to_nat limit.

(** A page request is answered at the first attempt. *)
Lemma fetch_page (skip : nat) (w : World) :
  ∃ data,
    fetchWithRetry_default fetch (productsUrl limit (Z.of_nat skip)) w
    = (Returned data, after w 1 [EvFetch (productsUrl limit (Z.of_nat skip))])
    ∧ dr_products data = Some (take L (drop skip catalog))
    ∧ dr_total data = Z.of_nat (length catalog).
Proof.
  destruct (Hnet (clock w) (Z.of_nat skip) ltac:(lia)) as (res & data & Hf & Hok & Hjson & Hp & Ht).
  exists data. split; [| split].
  - unfold fetchWithRetry_default, fetchWithRetry.
    apply fetchAttempts_success. unfold attemptResult. by rewrite Hf, Hok.
  - rewrite Hp. simpl. by rewrite Nat2Z.id.
  - by rewrite Ht.
Qed.

Context (body : list DummyProduct → M unit).
Context (Hbody : ∀ batch w, batch ≠ [] → (body batch w).1 = Returned tt).

Lemma fetchAllProducts_from_pages : ∀ j k fuel w,
  k * L < length catalog →
  j = pageCount (length catalog) L - k →
  j ≤ fuel →
  fetchAllProducts_from fetch body fuel limit (Z.of_nat (k * L)) w
  = (Returned tt, runPages body limit catalog (seq k j) w).
Proof.
  assert (HL : 0 < L) by (unfold L; lia).
  induction j as [| j IH]; intros k fuel w Hk Hj Hfuel.
  - apply (pageCount_lt _ _ _ HL) in Hk. lia.
  - destruct fuel as [| fuel]; [lia |]. simpl.
    destruct (fetch_page (k * L) w) as (data & Hrun & Hp & Ht).
    unfold bind at 1. rewrite Hrun, Hp.
    pose proof (pageAt_length L catalog k HL Hk) as Hlen. unfold pageAt in Hlen.
    destruct (take L (drop (k * L) catalog)) as [| x page] eqn:Hpage; [simpl in Hlen; lia |].
    assert (Hurl : productsUrl limit (Z.of_nat (k * L)) = pageUrl limit k).
    { unfold pageUrl. do 2 f_equal. unfold L. lia. }
    rewrite Hurl. unfold pageAt. fold L. rewrite Hpage.
    set (w1 := after w 1 [EvFetch (pageUrl limit k)]).
    unfold bind at 1.
    pose proof (Hbody (x :: page) w1 ltac:(done)) as Hb.
    destruct (body (x :: page) w1) as [r w2]. simpl in Hb. subst r. simpl.
    rewrite Ht.
    destruct (Z.geb_spec (Z.of_nat (k * L) + limit) (Z.of_nat (length catalog))) as [Hge | Hlt].
    + assert (j = 0) as ->.
      { destruct j; [done |]. exfalso.
        assert (S k < pageCount (length catalog) L) as Hlt%(pageCount_lt _ _ _ HL) by lia.
        unfold L in *. lia. }
      done.
    + replace (Z.of_nat (k * L) + limit)%Z with (Z.of_nat (S k * L)) by (unfold L; lia).
      apply IH; [unfold L in *; lia | lia | lia].
Qed.

End Loop.

Lemma requested_app tr tr' : requested (tr ++ tr') = requested tr ++ requested tr'.
Proof. apply omap_app. Qed.

Lemma yielded_app tr tr' : yielded (tr ++ tr') = yielded tr ++ yielded tr'.
Proof. apply omap_app. Qed.

Lemma runPages_yield limit catalog ks : ∀ w,
  requested (trace (runPages (fun batch => emit (EvYield batch)) limit catalog ks w))
  = requested (trace w) ++ map (pageUrl limit) ks
  ∧ yielded (trace (runPages (fun batch => emit (EvYield batch)) limit catalog ks w))
    = yielded (trace w) ++ map (pageAt (Z.to_nat limit) catalog) ks.
Proof.
  induction ks as [| k ks IH]; intros w; cbn [runPages map].
  - by rewrite !app_nil_r.
  - destruct (IH (emit (EvYield (pageAt (Z.to_nat limit) catalog k))
                      (after w 1 [EvFetch (pageUrl limit k)])).2) as [Hr Hy].
    rewrite Hr, Hy. simpl.
    rewrite !requested_app, !yielded_app. simpl.
    rewrite !app_nil_r, <- !app_assoc. done.
Qed.

(** The address of a page tells its offset. *)
Lemma productsUrl_inj limit a b : productsUrl limit a = productsUrl limit b → a = b.
Proof.
  unfold productsUrl. intros Heq.
  apply toString_inj.
  repeat (apply (inj (String.app _)) in Heq || apply String.app_inj in Heq).
  exact Heq.
Qed.

Lemma serve_answers (catalog : list DummyProduct) (limit : Z) :
  answersFrom (serve catalog limit) catalog limit.
Proof.
  intros n skip Hskip. unfold serve.
  eexists _, _. split; [reflexivity |]. split; [reflexivity |]. split; [reflexivity |].
  split; [| reflexivity]. unfold pageOf. cbn [dr_products]. f_equal. f_equal.
  destruct (find _ _) as [k |] eqn:Hfind.
  - apply find_some in Hfind as [_ Heq]. apply String.eqb_eq in Heq.
    apply productsUrl_inj in Heq. subst skip. by rewrite Nat2Z.id.
  - rewrite Nat2Z.id, drop_all.
    destruct (decide (Z.to_nat skip < length catalog)) as [Hlt | Hge].
    + exfalso.
      assert (Hin : In (Z.to_nat skip) (seq 0 (length catalog))) by (apply in_seq; lia).
      pose proof (find_none _ _ Hfind (Z.to_nat skip) Hin) as Hnone.
      cbv beta in Hnone. rewrite Z2Nat.id, String.eqb_refl in Hnone by lia. done.
    + symmetry. apply drop_ge. lia.
Qed.

End PageFacts.

Module Pagination.
Import Js Model Eff DailyProductSync JsFacts RetryFacts PageFacts Samples.

(** C5. Against a catalogue that answers the page requests for [limit]
    consistently, [fetchAllProducts] terminates (any fuel above the number
    of pages is enough), requests the pages at offsets [0], [limit],
    [2 * limit], ... and no other, yields the pages in order, and the pages
    yielded make up the catalogue: every product once, in catalogue
    order.  It stops after the first request when that page is empty, and
    otherwise after the page with which the next offset reaches the
    total. *)
Theorem fetchAllProducts_paginates
    (fetch : Fetch DummyResponse) (catalog : list DummyProduct) (limit : Z) :
  (0 < limit)%Z →
  answersFrom fetch catalog limit →
  let pages := pageCount (length catalog) (Z.to_nat limit) in
  ∀ fuel, pages < fuel →
    ∃ w, fetchAllProducts fetch fuel limit world0 = (Returned tt, w)
      ∧ requested (trace w) = map (pageUrl limit) (seq 0 (Nat.max 1 pages))
      ∧ yielded (trace w) = map (pageAt (Z.to_nat limit) catalog) (seq 0 pages)
      ∧ concat (yielded (trace w)) = catalog.
Proof.
  intros Hlimit Hnet pages fuel Hfuel.
  assert (HL : 0 < Z.to_nat limit) by lia.
  destruct (decide (length catalog = 0)) as [Hempty | Hne].
  - (* an empty catalogue: one request, nothing yielded *)
    assert (Hp : pages = 0).
    { destruct pages eqn:E; [done |]. exfalso.
      assert (0 < pages) as Hlt%(pageCount_lt _ _ _ HL) by lia. lia. }
    destruct fuel as [| fuel]; [lia |].
    destruct (fetch_page fetch catalog limit Hnet 0 world0) as (data & Hrun & Hd & _).
    exists (after world0 1 [EvFetch (pageUrl limit 0)]).
    apply length_zero_iff_nil in Hempty. subst catalog.
    unfold fetchAllProducts, forAwait_fetchAllProducts.
    cbn [fetchAllProducts_from]. change 0%Z with (Z.of_nat 0).
    unfold bind at 1. rewrite Hrun, Hd. rewrite drop_nil, take_nil.
    rewrite Hp. done.
  - pose proof (fetchAllProducts_from_pages fetch catalog limit Hlimit Hnet
                  (fun batch => emit (EvYield batch)) ltac:(done)
                  pages 0 fuel world0 ltac:(lia) ltac:(unfold pages; lia) ltac:(lia)) as Hrun.
    simpl in Hrun.
    eexists. split; [exact Hrun |].
    destruct (runPages_yield limit catalog (seq 0 pages) world0) as [Hr Hy].
    simpl in Hr, Hy. rewrite Hr, Hy.
    assert (0 < pages) by (apply (pageCount_lt _ _ _ HL); lia).
    replace (Nat.max 1 pages) with pages by lia.
    split; [done |]. split; [done |].
    by apply concat_all_pages.
Qed.

(** The statement at a catalogue of five products read two at a time. *)
Lemma fetchAllProducts_paginates_witness :
  (0 < 2)%Z
  ∧ answersFrom (serve (sampleCatalog 5) 2) (sampleCatalog 5) 2
  ∧ ∃ w, fetchAllProducts (serve (sampleCatalog 5) 2) 4 2 world0 = (Returned tt, w)
       ∧ requested (trace w) = map (pageUrl 2) [0; 1; 2]
       ∧ concat (yielded (trace w)) = sampleCatalog 5.
Proof.
  split; [lia |]. split; [apply serve_answers |].
  destruct (fetchAllProducts_paginates (serve (sampleCatalog 5) 2) (sampleCatalog 5) 2
              ltac:(lia) (serve_answers _ _) 4 ltac:(vm_compute; lia))
    as (w & Hrun & Hreq & _ & Hcat).
  exists w. done.
Defined.

End Pagination.

(** ** The job as a whole *)

Module SyncFacts.
Import Js Model Eff DailyProductSync JsFacts SplitFacts RetryFacts PageFacts.

(** *** One fetch, one batch *)

(** A fetch with the default arguments comes to what [fetchOutcome] says,
    after the events and the outside calls of its attempts. *)
Lemma fetchWithRetry_default_outcome {T} (fetch : Fetch T) (url : string) (w : World) :
  fetchWithRetry_default fetch url w
  = (match (fetchOutcome fetch (clock w) url).1 with
     | Ok v => Returned v
     | Throw e => Thrown e
     end,
     after w (fetchOutcome fetch (clock w) url).2
             (fetchEvents url (fetchOutcome fetch (clock w) url).2)).
Proof.
  unfold fetchWithRetry_default, fetchWithRetry, fetchOutcome.
  destruct (attemptResult fetch (clock w) url) as [v | e0] eqn:H0.
  - by rewrite (fetchAttempts_success _ _ _ _ _ _ _ _ H0).
  - rewrite (fetchAttempts_retry _ _ _ _ _ _ _ _ H0) by (simpl; lia).
    set (w1 := after w 1 _).
    assert (Hclock : clock w1 = S (clock w)) by (unfold w1, after; simpl; lia).
    destruct (attemptResult fetch (S (clock w)) url) as [v | e1] eqn:H1; cbn [fst snd].
    + rewrite <- Hclock in H1. rewrite (fetchAttempts_success _ _ _ _ _ _ _ _ H1).
      unfold w1. by rewrite after_after.
    + rewrite <- Hclock in H1. rewrite (fetchAttempts_give_up _ _ _ _ _ _ _ _ H1) by done.
      unfold w1. by rewrite after_after.
Qed.

Lemma fetchOutcome_attempts {T} (fetch : Fetch T) (n : nat) (url : string) :
  (fetchOutcome fetch n url).2 = 1 ∨ (fetchOutcome fetch n url).2 = 2.
Proof. unfold fetchOutcome. destruct (attemptResult fetch n url); [by left | by right]. Qed.

(** A failed fetch took both attempts. *)
Lemma fetchOutcome_failed {T} (fetch : Fetch T) (n : nat) (url : string) e a :
  fetchOutcome fetch n url = (Throw e, a) → a = 2.
Proof.
  unfold fetchOutcome. destruct (attemptResult fetch n url); intros [= ? ?]; done.
Qed.

Section Batch.
Context (env : Env).

(** The loop body on a batch whose listing answers. *)
Lemma processBatch_listed (batch : list DummyProduct) (w : World) (found : list ProductDTO) :
  batch ≠ [] →
  env_listProducts env (clock w) (externalIdsOf batch) = Ok found →
  processBatch env batch w
  = (Returned tt, after w 2 (batchEvents env (clock w) found batch)).
Proof.
  intros Hne Hfound.
  pose proof (splitBatch_length found batch) as Hlen.
  unfold processBatch, listProducts, runWorkflow, logInfo, logError, batchEvents, batchInput.
  unfold bind, tick, emit, lift, ret. cbn [clock trace].
  fold (externalIdsOf batch). rewrite Hfound.
  destruct (splitBatch found batch) as [createBatch updateBatch]. cbn [fst snd] in *.
  assert (Hrun : (0 <? length createBatch) || (0 <? length updateBatch) = true).
  { destruct batch; [done |]. simpl in Hlen.
    destruct createBatch, updateBatch; simpl in *; done || lia. }
  rewrite Hrun. cbn [clock trace].
  destruct (env_runWorkflow env (S (clock w)) _) as [| err errors']; simpl;
    unfold after; simpl; rewrite <- !app_assoc; simpl;
    replace (clock w + 2) with (S (S (clock w))) by lia; reflexivity.
Qed.

(** The loop body on a batch whose listing fails. *)
Lemma processBatch_listing_fails (batch : list DummyProduct) (w : World) (e : Error) :
  env_listProducts env (clock w) (externalIdsOf batch) = Throw e →
  processBatch env batch w
  = (Thrown e, after w 1 [processingEntry batch; EvListProducts (externalIdsOf batch)]).
Proof.
  intros Hfound.
  unfold processBatch, listProducts, logInfo.
  unfold bind, tick, emit, lift, throw. cbn [clock trace].
  fold (externalIdsOf batch). rewrite Hfound.
  unfold after. simpl. rewrite <- !app_assoc. simpl.
  replace (clock w + 1) with (S (clock w)) by lia. reflexivity.
Qed.

(** *** One turn of the job's loop *)

(** The loop fetches; what follows depends on the page. *)
Lemma syncFrom_step (fuel : nat) (skip : Z) (w : World) :
  let url := productsUrl 20 skip in
  let outcome := fetchOutcome (env_fetch env) (clock w) url in
  let w1 := after w outcome.2 (fetchEvents url outcome.2) in
  syncFrom env (S fuel) skip w
  = match outcome.1 with
    | Throw e => (Returned tt, logged w1 (criticalEntry e))
    | Ok data =>
        match dr_products data with
        | None | Some [] => (Returned tt, logged w1 completedEntry)
        | Some batch =>
            match processBatch env batch w1 with
            | (Returned _, w2) =>
                if (skip + 20 >=? dr_total data)%Z
                then (Returned tt, logged w2 completedEntry)
                else syncFrom env fuel (skip + 20) w2
            | (Thrown e, w2) => (Returned tt, logged w2 (criticalEntry e))
            | (OutOfFuel, w2) => (OutOfFuel, w2)
            end
        end
    end.
Proof.
  intros url outcome w1. unfold syncFrom at 1. cbn [fetchAllProducts_from].
  unfold tryCatch at 1. unfold bind at 1. unfold bind at 1.
  rewrite fetchWithRetry_default_outcome. fold url. fold outcome. fold w1.
  destruct outcome.1 as [data | e]; [| done].
  destruct (dr_products data) as [[| x xs] |]; [done | | done].
  unfold bind at 1.
  destruct (processBatch env (x :: xs) w1) as [[[] | e | ] w2]; [| done | done].
  destruct (skip + 20 >=? dr_total data)%Z; done.
Qed.

End Batch.

(** *** The run over the pages of a catalogue *)

Section Pages.
Context (env : Env) (catalog : list DummyProduct).
Context (Hnet : answersByRetry (env_fetch env) catalog 20).
Context (Hlist : ∀ n ids, ∃ found, env_listProducts env n ids = Ok found).

(** A page is fetched, at the first attempt or the second. *)
Lemma fetchOutcome_page (n k : nat) :
  ∃ data a,
    fetchOutcome (env_fetch env) n (productsUrl 20 (Z.of_nat (k * 20))) = (Ok data, a)
    ∧ (a = 1 ∨ a = 2)
    ∧ dr_products data = Some (pageAt 20 catalog k)
    ∧ dr_total data = Z.of_nat (length catalog).
Proof.
  assert (Hpage : ∀ data : DummyResponse,
            dr_products data = dr_products (pageOf catalog 20 (Z.of_nat (k * 20))) →
            dr_products data = Some (pageAt 20 catalog k)).
  { intros data ->. unfold pageOf, pageAt. cbn [dr_products].
    by rewrite Nat2Z.id. }
  unfold fetchOutcome.
  destruct (Hnet n (Z.of_nat (k * 20)) ltac:(lia))
    as [(data & Hok & Hp & Ht) | [[e He] (data & Hok & Hp & Ht)]].
  - exists data, 1. rewrite Hok. split; [done |]. split; [by left |].
    split; [by apply Hpage | by rewrite Ht].
  - exists data, 2. rewrite He, Hok. split; [done |]. split; [by right |].
    split; [by apply Hpage | by rewrite Ht].
Qed.

Lemma syncFrom_pages : ∀ j k fuel w,
  k * 20 < length catalog →
  j = pageCount (length catalog) 20 - k →
  j ≤ fuel →
  ∃ blocks w',
    Forall2 (IsBatchBlock env 20 catalog) (seq k j) blocks
    ∧ syncFrom env fuel (Z.of_nat (k * 20)) w = (Returned tt, w')
    ∧ trace w' = trace w ++ concat blocks ++ [completedEntry].
Proof.
  induction j as [| j IH]; intros k fuel w Hk Hj Hfuel.
  - apply (pageCount_lt _ 20 _ ltac:(lia)) in Hk. lia.
  - destruct fuel as [| fuel]; [lia |].
    rewrite syncFrom_step.
    destruct (fetchOutcome_page (clock w) k) as (data & a & Hout & Ha & Hp & Ht).
    rewrite Hout. cbn [fst snd]. rewrite Hp.
    pose proof (pageAt_length 20 catalog k ltac:(lia) Hk) as Hlen.
    destruct (pageAt 20 catalog k) as [| x page] eqn:Hpage; [simpl in Hlen; lia |].
    assert (Hurl : productsUrl 20 (Z.of_nat (k * 20)) = pageUrl 20 k).
    { unfold pageUrl. do 2 f_equal. lia. }
    rewrite Hurl.
    set (w1 := after w a (fetchEvents (pageUrl 20 k) a)).
    destruct (Hlist (clock w1) (externalIdsOf (x :: page))) as [found Hfound].
    rewrite (processBatch_listed env (x :: page) w1 found ltac:(done) Hfound).
    set (w2 := after w1 2 _).
    assert (Hblock : IsBatchBlock env 20 catalog k
                       (fetchEvents (pageUrl 20 k) a
                        ++ batchEvents env (clock w1) found (x :: page))).
    { exists a, (clock w1), found. change (Z.to_nat 20) with 20. rewrite Hpage. done. }
    assert (Htrace2 : trace w2 = trace w ++ fetchEvents (pageUrl 20 k) a
                                 ++ batchEvents env (clock w1) found (x :: page)).
    { unfold w2, w1, after. cbn [trace]. by rewrite <- app_assoc. }
    rewrite Ht.
    destruct (Z.geb_spec (Z.of_nat (k * 20) + 20) (Z.of_nat (length catalog))) as [Hge | Hlt].
    + assert (j = 0) as ->.
      { destruct j; [done |]. exfalso.
        assert (S k < pageCount (length catalog) 20) as Hlt%(pageCount_lt _ 20 _ ltac:(lia))
          by lia.
        lia. }
      eexists [_], _. split; [by constructor; [exact Hblock | constructor] |].
      split; [reflexivity |].
      unfold logged. cbn [trace concat]. rewrite Htrace2, app_nil_r, <- !app_assoc. done.
    + replace (Z.of_nat (k * 20) + 20)%Z with (Z.of_nat (S k * 20)) by lia.
      destruct (IH (S k) fuel w2 ltac:(lia) ltac:(lia) ltac:(lia))
        as (blocks & w' & Hblocks & Hrun & Htrace).
      eexists (_ :: blocks), w'. split; [by constructor; [exact Hblock | exact Hblocks] |].
      split; [exact Hrun |].
      rewrite Htrace, Htrace2. cbn [concat]. rewrite <- !app_assoc. done.
Qed.

End Pages.

(** *** What the observers see in a run of blocks *)

Lemma requested_fetchEvents url a :
  a = 1 ∨ a = 2 → requested (fetchEvents url a) = replicate a url.
Proof. by intros [-> | ->]. Qed.

Lemma requested_batchEvents env n found batch : requested (batchEvents env n found batch) = [].
Proof.
  unfold batchEvents. by destruct (env_runWorkflow env (S n) (batchInput found batch)).
Qed.

Lemma listed_fetchEvents url a : a = 1 ∨ a = 2 → listed (fetchEvents url a) = [].
Proof. by intros [-> | ->]. Qed.

Lemma listed_batchEvents env n found batch :
  listed (batchEvents env n found batch) = [externalIdsOf batch].
Proof.
  unfold batchEvents. by destruct (env_runWorkflow env (S n) (batchInput found batch)).
Qed.

Lemma ran_fetchEvents url a : a = 1 ∨ a = 2 → ran (fetchEvents url a) = [].
Proof. by intros [-> | ->]. Qed.

Lemma ran_batchEvents env n found batch :
  ran (batchEvents env n found batch)
  = [(batchInput found batch, env_runWorkflow env (S n) (batchInput found batch))].
Proof.
  unfold batchEvents. by destruct (env_runWorkflow env (S n) (batchInput found batch)).
Qed.

Lemma blocks_requested env limit catalog ks blocks :
  Forall2 (IsBatchBlock env limit catalog) ks blocks →
  ∃ attempts,
    Forall2 (fun _ a => a = 1 ∨ a = 2) ks attempts
    ∧ requested (concat blocks) = requestsOf limit ks attempts.
Proof.
  induction 1 as [| k b ks blocks (a & n & found & Ha & _ & ->) _ (attempts & Hall & IH)].
  - exists []. split; [constructor | done].
  - exists (a :: attempts). split; [by constructor |].
    unfold requestsOf, requested in *. cbn [concat zip_with].
    rewrite !omap_app, IH.
    fold (requested (fetchEvents (pageUrl limit k) a)).
    fold (requested (batchEvents env n found (pageAt (Z.to_nat limit) catalog k))).
    by rewrite requested_fetchEvents, requested_batchEvents, app_nil_r.
Qed.

Lemma blocks_listed env limit catalog ks blocks :
  Forall2 (IsBatchBlock env limit catalog) ks blocks →
  listed (concat blocks)
  = map (fun k => externalIdsOf (pageAt (Z.to_nat limit) catalog k)) ks.
Proof.
  induction 1 as [| k b ks blocks (a & n & found & Ha & _ & ->) _ IH]; [done |].
  unfold listed in *. cbn [concat map]. rewrite !omap_app, IH.
  fold (listed (fetchEvents (pageUrl limit k) a)).
  fold (listed (batchEvents env n found (pageAt (Z.to_nat limit) catalog k))).
  by rewrite listed_fetchEvents, listed_batchEvents.
Qed.

Lemma blocks_ran env limit catalog ks blocks :
  Forall2 (IsBatchBlock env limit catalog) ks blocks →
  Forall2 (IsRunOf env limit catalog) ks (ran (concat blocks)).
Proof.
  induction 1 as [| k b ks blocks (a & n & found & Ha & Hfound & ->) _ IH]; [constructor |].
  unfold ran in *. cbn [concat]. rewrite !omap_app.
  fold (ran (fetchEvents (pageUrl limit k) a)).
  fold (ran (batchEvents env n found (pageAt (Z.to_nat limit) catalog k))).
  rewrite ran_fetchEvents, ran_batchEvents by done. cbn [app].
  constructor; [| exact IH]. by exists n, found.
Qed.

Lemma blocks_errors_logged env limit catalog ks blocks rest :
  Forall2 (IsBatchBlock env limit catalog) ks blocks →
  ErrorsLogged rest →
  ErrorsLogged (concat blocks ++ rest).
Proof.
  intros Hb Hrest.
  induction Hb as [| k b ks blocks (a & n & found & Ha & _ & ->) _ IH]; [done |].
  cbn [concat]. rewrite <- !app_assoc. unfold batchEvents.
  destruct (env_runWorkflow env (S n) _) as [| err errors];
    destruct Ha as [-> | ->]; simpl; (split; [done | exact IH]).
Qed.

(** The network of the strict kind, which answers every request at once,
    is of the kind that answers at the first attempt or the second. *)
Lemma answersFrom_byRetry fetch catalog limit :
  answersFrom fetch catalog limit → answersByRetry fetch catalog limit.
Proof.
  intros Hnet n skip Hskip. left.
  destruct (Hnet n skip Hskip) as (res & data & Hf & Hok & Hjson & Hp & Ht).
  exists data. unfold attemptResult. by rewrite Hf, Hok.
Qed.

End SyncFacts.

Module Job.
Import Js Model Eff DailyProductSync JsFacts SplitFacts RetryFacts PageFacts SyncFacts Samples.

(** C6 (as amended).  The job is its loop started at the first page.
    Wherever the loop stands, at whatever offset and after whatever has
    happened before: when the fetch of the page succeeds, at the first
    attempt or at the second, and the listing of the stored products
    answers, the workflow is run on the split of the page, the errors it
    returns are logged at once, and with or without errors the job goes on
    in the same way: to the fetch of the next page, or to its completion
    entry when this was the last page.  When both attempts to fetch the
    page fail, or when the listing fails, the job logs the error as a
    critical one and returns: no further page is fetched.  So, when every
    fetch of a page of a catalogue succeeds, at the first or the second
    attempt, and every listing answers, the job runs to its end whatever
    errors the workflow returns and for whichever batches: every page is
    requested, once or twice, the stored products are listed and the
    workflow is run for every page, on the split of this page, every run
    that returned errors is followed by the log entry of these errors, and
    the last entry says the sync completed. *)
Theorem dailyProductSync_continues_after_batch_errors (env : Env) :
  (∀ fuel, dailyProductSync env fuel world0 = syncFrom env fuel 0 (logged world0 startEntry))
  ∧ (∀ fuel skip w data attempts x xs found,
       let url := productsUrl 20 skip in
       let batch := x :: xs in
       let input := batchInput found batch in
       let errors := env_runWorkflow env (S (clock w + attempts)) input in
       let w' := after w (attempts + 2)
                   (fetchEvents url attempts
                    ++ [ processingEntry batch;
                         EvListProducts (externalIdsOf batch);
                         EvRunWorkflow input errors;
                         match errors with
                         | [] => syncedEntry input
                         | _ => batchErrorLog errors
                         end ]) in
       fetchOutcome (env_fetch env) (clock w) url = (Ok data, attempts) →
       dr_products data = Some batch →
       env_listProducts env (clock w + attempts) (externalIdsOf batch) = Ok found →
       syncFrom env (S fuel) skip w
       = if (skip + 20 >=? dr_total data)%Z
         then (Returned tt, logged w' completedEntry)
         else syncFrom env fuel (skip + 20) w')
  ∧ (∀ fuel skip w e0 e,
       let url := productsUrl 20 skip in
       attemptResult (env_fetch env) (clock w) url = Throw e0 →
       attemptResult (env_fetch env) (S (clock w)) url = Throw e →
       syncFrom env (S fuel) skip w
       = (Returned tt,
          after w 2 [EvFetch url; EvSleep (1000 * 2 ^ 0); EvFetch url; criticalEntry e]))
  ∧ (∀ fuel skip w data attempts x xs e,
       let url := productsUrl 20 skip in
       let batch := x :: xs in
       fetchOutcome (env_fetch env) (clock w) url = (Ok data, attempts) →
       dr_products data = Some batch →
       env_listProducts env (clock w + attempts) (externalIdsOf batch) = Throw e →
       syncFrom env (S fuel) skip w
       = (Returned tt,
          after w (attempts + 1)
            (fetchEvents url attempts
             ++ [processingEntry batch; EvListProducts (externalIdsOf batch);
                 criticalEntry e])))
  ∧ (∀ catalog,
       answersByRetry (env_fetch env) catalog 20 →
       (∀ n ids, ∃ found, env_listProducts env n ids = Ok found) →
       let pages := pageCount (length catalog) 20 in
       ∀ fuel, pages < fuel →
         ∃ w attempts,
           dailyProductSync env fuel world0 = (Returned tt, w)
           ∧ Forall2 (fun _ a => a = 1 ∨ a = 2) (seq 0 (Nat.max 1 pages)) attempts
           ∧ requested (trace w) = requestsOf 20 (seq 0 (Nat.max 1 pages)) attempts
           ∧ listed (trace w)
             = map (fun k => externalIdsOf (pageAt 20 catalog k)) (seq 0 pages)
           ∧ Forall2 (IsRunOf env 20 catalog) (seq 0 pages) (ran (trace w))
           ∧ length (ran (trace w)) = pages
           ∧ ErrorsLogged (trace w)
           ∧ last (trace w) = Some completedEntry).
Proof.
  assert (Hlogged : ∀ w n evs ev, logged (after w n evs) ev = after w n (evs ++ [ev])).
  { intros w n evs ev. unfold logged, after. cbn [clock trace]. by rewrite <- app_assoc. }
  split; [done |]. split; [| split; [| split]].
  - (* a turn that goes well *)
    intros fuel skip w data attempts x xs found url batch input errors w' Hout Hp Hfound.
    subst w' errors input batch.
    rewrite syncFrom_step. fold url. rewrite Hout. cbn [fst snd]. rewrite Hp.
    set (w1 := after w attempts (fetchEvents url attempts)).
    change (clock w + attempts) with (clock w1) in *.
    rewrite (processBatch_listed env (x :: xs) w1 found ltac:(done) Hfound).
    subst w1. by rewrite !after_after.
  - (* both attempts fail *)
    intros fuel skip w e0 e url H0 H1.
    rewrite syncFrom_step. fold url. unfold fetchOutcome. rewrite H0, H1. cbn [fst snd].
    by rewrite Hlogged.
  - (* the listing fails *)
    intros fuel skip w data attempts x xs e url batch Hout Hp Hfound.
    subst batch.
    rewrite syncFrom_step. fold url. rewrite Hout. cbn [fst snd]. rewrite Hp.
    set (w1 := after w attempts (fetchEvents url attempts)).
    change (clock w + attempts) with (clock w1) in *.
    rewrite (processBatch_listing_fails env (x :: xs) w1 e Hfound).
    unfold w1. by rewrite after_after, Hlogged, <- app_assoc.
  - (* the whole run *)
    intros catalog Hnet Hlist pages fuel Hfuel.
    change (dailyProductSync env fuel world0)
      with (syncFrom env fuel 0 (logged world0 startEntry)).
    set (w0 := logged world0 startEntry).
    destruct (decide (length catalog = 0)) as [Hempty | Hne].
    + assert (Hp : pages = 0).
      { destruct pages eqn:E; [done |]. exfalso.
        assert (0 < pages) as Hlt%pageCount_lt by lia; lia. }
      destruct fuel as [| fuel]; [lia |].
      destruct (fetchOutcome_page env catalog Hnet (clock w0) 0)
        as (data & a & Hout & Ha & Hd & _).
      apply length_zero_iff_nil in Hempty. subst catalog.
      rewrite syncFrom_step. change (Z.of_nat (0 * 20)) with 0%Z in Hout.
      rewrite Hout. cbn [fst snd]. rewrite Hd. cbn [pageAt take drop].
      eexists _, [a]. split; [reflexivity |]. rewrite Hp. cbn [Nat.max seq].
      split; [by constructor; [| constructor] |].
      unfold logged, after, w0. cbn [trace clock world0 app].
      destruct Ha as [-> | ->]; repeat split; reflexivity || constructor.
    + destruct (syncFrom_pages env catalog Hnet Hlist pages 0 fuel w0
                  ltac:(simpl; lia) ltac:(unfold pages; lia) ltac:(lia))
        as (blocks & w & Hblocks & Hrun & Htrace).
      destruct (blocks_requested _ _ _ _ _ Hblocks) as (attempts & Hattempts & Hreq).
      pose proof (blocks_listed _ _ _ _ _ Hblocks) as Hlisted.
      pose proof (blocks_ran _ _ _ _ _ Hblocks) as Hran.
      change (Z.to_nat 20) with 20 in *.
      exists w, attempts. split; [exact Hrun |].
      assert (0 < pages) by (apply pageCount_lt; lia).
      replace (Nat.max 1 pages) with pages by lia.
      rewrite Htrace. cbn [w0 logged trace world0 app].
      change (startEntry :: concat blocks ++ [completedEntry])
        with ([startEntry] ++ concat blocks ++ [completedEntry]).
      split; [exact Hattempts |]. split; [| split; [| split; [| split; [| split]]]].
      * unfold requested in *. rewrite !omap_app, Hreq. cbn [omap list_omap app].
        by rewrite app_nil_r.
      * unfold listed in *. rewrite !omap_app, Hlisted. cbn [omap list_omap app].
        by rewrite app_nil_r.
      * unfold ran in *. rewrite !omap_app. cbn [omap list_omap app].
        by rewrite app_nil_r.
      * unfold ran in *. rewrite !omap_app. cbn [omap list_omap app].
        rewrite app_nil_r.
        transitivity (length (seq 0 pages));
          [symmetry; apply (Forall2_length _ _ _ Hran) | apply length_seq].
      * cbn [app ErrorsLogged startEntry].
        by apply (blocks_errors_logged _ _ _ _ _ _ Hblocks).
      * rewrite app_assoc. apply last_snoc.
Qed.

(** The flaky network answers by retry: it fails at every fourth outside
    call and answers from the catalogue otherwise. *)
Lemma flakyEnv_answers : answersByRetry (env_fetch flakyEnv) (sampleCatalog 45) 20.
Proof.
  intros n skip Hskip.
  pose proof (answersFrom_byRetry _ _ _ (serve_answers (sampleCatalog 45) 20)) as Hserve.
  assert (Hgood : ∀ m, (m mod 4 =? 0) = false →
            pageAnswered (env_fetch flakyEnv) (sampleCatalog 45) 20 m skip).
  { intros m Hm. destruct (Hserve m skip Hskip) as [Hans | [[e He] _]].
    - destruct Hans as (data & Hok & Hrest). exists data. split; [| exact Hrest].
      unfold attemptResult in *. cbn [flakyEnv env_fetch]. by rewrite Hm.
    - unfold attemptResult, serve in He. done. }
  destruct (n mod 4 =? 0) eqn:Hn.
  - right. split.
    + eexists. unfold attemptResult. cbn [flakyEnv env_fetch]. by rewrite Hn.
    + apply Hgood. apply Nat.eqb_eq in Hn. apply Nat.eqb_neq.
      pose proof (Nat.div_mod n 4 ltac:(lia)).
      pose proof (Nat.div_mod (S n) 4 ltac:(lia)).
      pose proof (Nat.mod_upper_bound (S n) 4 ltac:(lia)). lia.
  - left. by apply Hgood.
Qed.

(** The statement at the flaky environment: 45 products, three batches,
    every page fetched at the second attempt, the workflow returning
    errors for the first batch. *)
Lemma dailyProductSync_continues_witness :
  answersByRetry (env_fetch flakyEnv) (sampleCatalog 45) 20
  ∧ (∀ n ids, ∃ found, env_listProducts flakyEnv n ids = Ok found)
  ∧ requested (trace (dailyProductSync flakyEnv 4 world0).2)
    = [pageUrl 20 0; pageUrl 20 0; pageUrl 20 1; pageUrl 20 1; pageUrl 20 2; pageUrl 20 2]
  ∧ map snd (ran (trace (dailyProductSync flakyEnv 4 world0).2))
    = [["create-products-step failed"]; []; []]
  ∧ ∃ w, dailyProductSync flakyEnv 4 world0 = (Returned tt, w)
       ∧ length (ran (trace w)) = 3
       ∧ ErrorsLogged (trace w)
       ∧ last (trace w) = Some completedEntry.
Proof.
  split; [apply flakyEnv_answers |]. split; [intros n ids; by exists [] |].
  split; [vm_compute; reflexivity |]. split; [vm_compute; reflexivity |].
  destruct (proj2 (proj2 (proj2 (proj2 (dailyProductSync_continues_after_batch_errors flakyEnv))))
              (sampleCatalog 45) flakyEnv_answers ltac:(intros n ids; by exists [])
              4 ltac:(vm_compute; lia))
    as (w & attempts & Hrun & _ & _ & _ & _ & Hran & Hlog & Hlast).
  exists w. split; [exact Hrun |]. split; [| split; [exact Hlog | exact Hlast]].
  rewrite Hran. reflexivity.
Defined.

(** C6 as stated fails for an error that arises while a page is fetched:
    the catalogue has three pages, the requests for the second one fail,
    and the run ends there with a critical error; the third page is never
    requested and only one batch is processed.  The same happens when the
    listing of the stored products fails for the second batch. *)
Lemma dailyProductSync_stops_when_a_page_fails :
  pageCount (length (sampleCatalog 45)) 20 = 3
  ∧ (dailyProductSync secondPageDown 10 world0).1 = Returned tt
  ∧ requested (trace (dailyProductSync secondPageDown 10 world0).2)
    = [pageUrl 20 0; pageUrl 20 1; pageUrl 20 1]
  ∧ (pageUrl 20 2 ∉ requested (trace (dailyProductSync secondPageDown 10 world0).2))
  ∧ length (ran (trace (dailyProductSync secondPageDown 10 world0).2)) = 1
  ∧ last (trace (dailyProductSync secondPageDown 10 world0).2)
    = Some (EvLogError "Critical error in product sync:" (mkError "network down"))
  ∧ requested (trace (dailyProductSync listingDown 10 world0).2)
    = [pageUrl 20 0; pageUrl 20 1]
  ∧ length (ran (trace (dailyProductSync listingDown 10 world0).2)) = 1
  ∧ last (trace (dailyProductSync listingDown 10 world0).2)
    = Some (EvLogError "Critical error in product sync:" (mkError "database down")).
Proof.
  split; [reflexivity |]. split; [vm_compute; reflexivity |].
  assert (Hreq : requested (trace (dailyProductSync secondPageDown 10 world0).2)
                 = [pageUrl 20 0; pageUrl 20 1; pageUrl 20 1]) by (vm_compute; reflexivity).
  split; [exact Hreq |]. split.
  - rewrite Hreq. intros Hin. vm_compute in Hin.
    repeat (apply elem_of_cons in Hin as [Hin | Hin]; [discriminate Hin |]).
    by apply elem_of_nil in Hin.
  - repeat split; vm_compute; reflexivity.
Qed.

End Job.

(** ** The link step *)

Module LinkFacts.
Import Js Model BatchProducts JsFacts.

Section Keys.
Context (Modules_PRODUCT BRAND_MODULE : string).
Let stringify := JSON_stringify_link Modules_PRODUCT BRAND_MODULE.
Let parse := JSON_parse_link Modules_PRODUCT BRAND_MODULE.

Lemma expectKey_stringify (key rest : string) :
  expectKey key (JSON_stringify_string key +:+ rest) = Some rest.
Proof.
  unfold expectKey. rewrite parseString_stringify. simpl. by rewrite String.eqb_refl.
Qed.

(** [JSON.parse] undoes [JSON.stringify] on links. *)
Lemma parse_stringify_link (l : Link) : parse (stringify l) = Some l.
Proof.
  unfold parse, stringify, JSON_parse_link, JSON_stringify_link.
  rewrite expect_append. cbn [mbind option_bind].
  rewrite expectKey_stringify. cbn [mbind option_bind].
  rewrite expect_append. cbn [mbind option_bind].
  rewrite expectKey_stringify. cbn [mbind option_bind].
  rewrite expect_append. cbn [mbind option_bind].
  rewrite parseString_stringify. cbn [mbind option_bind].
  rewrite expect_append. cbn [mbind option_bind].
  rewrite expectKey_stringify. cbn [mbind option_bind].
  rewrite expect_append. cbn [mbind option_bind].
  rewrite expectKey_stringify. cbn [mbind option_bind].
  rewrite expect_append. cbn [mbind option_bind].
  rewrite <- (append_nil_r "}}") at 1. rewrite <- append_assoc, append_assoc.
  rewrite parseString_stringify. cbn [mbind option_bind].
  simpl. by destruct l.
Qed.

Lemma parse_stringified (strs : list string) :
  Forall (fun s => ∃ l, s = stringify l) strs →
  ∃ links, mapM parse strs = Some links ∧ stringify <$> links = strs.
Proof.
  induction 1 as [| s strs [l ->] _ (links & Hm & Hs)].
  - by exists [].
  - exists (l :: links). split; [| rewrite fmap_cons; by rewrite Hs].
    simpl. rewrite parse_stringify_link. simpl. by rewrite Hm.
Qed.

(** The deduplicated list: no link twice, and the same links as before. *)
Lemma uniqueLinksOf_spec (links : list Link) :
  ∃ uniqueLinks,
    uniqueLinksOf Modules_PRODUCT BRAND_MODULE links = Some uniqueLinks
    ∧ NoDup uniqueLinks
    ∧ ∀ l, l ∈ uniqueLinks ↔ l ∈ links.
Proof.
  unfold uniqueLinksOf. fold stringify parse.
  destruct (parse_stringified (unique (map stringify links))) as (us & Hm & Hs).
  { apply Forall_forall. intros s Hs. apply (proj1 (unique_elem _ _)) in Hs.
    apply list_elem_of_fmap in Hs as (l & -> & _). by exists l. }
  exists us. split; [exact Hm |]. split.
  - apply (NoDup_fmap_1 stringify). rewrite Hs. apply unique_NoDup.
  - intros l. split.
    + intros Hl. assert (Hin : stringify l ∈ stringify <$> us) by (by apply list_elem_of_fmap_2).
      rewrite Hs in Hin. apply (proj1 (unique_elem _ _)) in Hin.
      apply list_elem_of_fmap in Hin as (l' & Heq & Hl').
      assert (Some l = Some l') as [= ->]; [| done].
      by rewrite <- (parse_stringify_link l), Heq, parse_stringify_link.
    + intros Hl. assert (Hin : stringify l ∈ stringify <$> us).
      { rewrite Hs. apply (proj2 (unique_elem _ _)). by apply list_elem_of_fmap_2. }
      apply list_elem_of_fmap in Hin as (l' & Heq & Hl').
      assert (Some l = Some l') as [= ->]; [| done].
      by rewrite <- (parse_stringify_link l), Heq, parse_stringify_link.
Qed.

End Keys.
End LinkFacts.

Module Links.
Import Js Model BatchProducts JsFacts LinkFacts.

(** C8. Whatever products and inputs the link step is given, every list
    of links that it hands to the link service's [create] is free of
    duplicates, and holds the links the two loops pushed, each of them
    once; the step does not fail. *)
Theorem linkProductBrandsStep_submits_no_duplicates
    (Modules_PRODUCT BRAND_MODULE : string) (svc : Services)
    (createdProducts updatedProducts : list ProductDTO)
    (brandMap : gmap string string)
    (originalCreateInput : list ProductInput) (originalUpdateInput : list UpdateInput) :
  let run := linkProductBrandsStep Modules_PRODUCT BRAND_MODULE svc
               createdProducts updatedProducts brandMap
               originalCreateInput originalUpdateInput in
  let pushed := pushLinks brandMap originalUpdateInput
                  (pushLinks brandMap originalCreateInput [] createdProducts)
                  updatedProducts in
  run.2 = Ok (Build_StepResponse pushed pushed)
  ∧ Forall (fun links => NoDup links ∧ ∀ l, l ∈ links ↔ l ∈ pushed) (linksSubmitted run.1).
Proof.
  intros run pushed. subst run. unfold linkProductBrandsStep. fold pushed.
  destruct (uniqueLinksOf_spec Modules_PRODUCT BRAND_MODULE pushed) as (us & -> & Hnd & Hsame).
  destruct us as [| u us]; [split; [done | constructor] |].
  cbn [length Nat.ltb Nat.leb].
  unfold bind, tryCatch, call, ret.
  destruct (linkDismiss svc (u :: us)), (linkCreate svc (u :: us)); simpl;
    (split; [done | apply Forall_cons_2; [split; [exact Hnd | exact Hsame] | constructor]]).
Qed.

End Links.

(** ** Compensation *)

Module LedgerFacts.
Import Js Model BatchProducts.

Lemma deletedBrands_app a b : deletedBrands (a ++ b) = deletedBrands a ++ deletedBrands b.
Proof. apply omap_app. Qed.

Lemma deletedCategories_app a b :
  deletedCategories (a ++ b) = deletedCategories a ++ deletedCategories b.
Proof. apply omap_app. Qed.

Lemma brandRowsCreated_app svc a b :
  brandRowsCreated svc (a ++ b) = brandRowsCreated svc a ++ brandRowsCreated svc b.
Proof. apply flat_map_app. Qed.

Lemma categoryRowsCreated_app svc a b :
  categoryRowsCreated svc (a ++ b) = categoryRowsCreated svc a ++ categoryRowsCreated svc b.
Proof. apply flat_map_app. Qed.

Ltac ledger_app :=
  rewrite ?deletedBrands_app, ?deletedCategories_app,
    ?brandRowsCreated_app, ?categoryRowsCreated_app.

Lemma Quiet_nil svc : Quiet svc [].
Proof. by repeat split. Qed.

Lemma Quiet_app svc a b : Quiet svc a → Quiet svc b → Quiet svc (a ++ b).
Proof.
  intros (Ha1 & Ha2 & Ha3 & Ha4) (Hb1 & Hb2 & Hb3 & Hb4). unfold Quiet.
  ledger_app. by rewrite Ha1, Ha2, Ha3, Ha4, Hb1, Hb2, Hb3, Hb4.
Qed.

(** *** The two steps that create rows *)

Lemma manageBrandsStep_ledger svc brandNames :
  BrandLedger svc (manageBrandsStep svc brandNames).
Proof.
  unfold manageBrandsStep.
  destruct (length brandNames =? 0); [by repeat split |].
  unfold bind, call, ret.
  destruct (listBrands svc (unique brandNames)) as [existing | e]; [| by repeat split].
  destruct (0 <? length _); [| by repeat split].
  destruct (createBrands svc _) as [rows | e] eqn:Hcreate;
    unfold BrandLedger, brandRowsCreated; simpl; rewrite Hcreate;
    repeat split; by rewrite ?app_nil_r.
Qed.

Lemma manageCategoriesStep_ledger svc categoryNames :
  CategoryLedger svc (manageCategoriesStep svc categoryNames).
Proof.
  unfold manageCategoriesStep.
  destruct (length categoryNames =? 0); [by repeat split |].
  unfold bind at 1. unfold call at 1.
  destruct (listProductCategories svc 0 _) as [existing | e]; [| by repeat split].
  destruct (planCategories _ _) as [categoryMap toCreate].
  destruct (0 <? length toCreate); [| by repeat split].
  unfold tryCatch, bind, call, ret.
  destruct (createProductCategories svc toCreate) as [rows | e] eqn:Hcreate.
  - unfold CategoryLedger, categoryRowsCreated. simpl. rewrite Hcreate.
    repeat split; by rewrite ?app_nil_r.
  - destruct (listProductCategories svc 1 _) as [fallback | e'];
      unfold CategoryLedger, categoryRowsCreated; simpl; rewrite Hcreate;
      by repeat split.
Qed.

(** *** The compensation handlers *)

Lemma manageBrandsStep_compensate_deletes ids :
  concat (deletedBrands (manageBrandsStep_compensate (Some ids))) = ids
  ∧ deletedCategories (manageBrandsStep_compensate (Some ids)) = []
  ∧ manageBrandsStep_compensate None = [].
Proof. destruct ids; simpl; by rewrite ?app_nil_r. Qed.

Lemma manageCategoriesStep_compensate_deletes ids :
  concat (deletedCategories (manageCategoriesStep_compensate (Some ids))) = ids
  ∧ deletedBrands (manageCategoriesStep_compensate (Some ids)) = []
  ∧ manageCategoriesStep_compensate None = [].
Proof. destruct ids; simpl; by rewrite ?app_nil_r. Qed.

Lemma compensate_creates_nothing svc ids :
  brandRowsCreated svc (manageBrandsStep_compensate ids) = []
  ∧ categoryRowsCreated svc (manageBrandsStep_compensate ids) = []
  ∧ brandRowsCreated svc (manageCategoriesStep_compensate ids) = []
  ∧ categoryRowsCreated svc (manageCategoriesStep_compensate ids) = [].
Proof. destruct ids as [[| ? ?] |]; by repeat split. Qed.

(** *** The steps after the categories *)

Lemma createProductsStep_quiet svc products categoryMap :
  Quiet svc (createProductsStep svc products categoryMap).1.
Proof.
  unfold createProductsStep. destruct (length products =? 0); [apply Quiet_nil |].
  unfold bind, call, ret. destruct (createProducts svc _); by repeat split.
Qed.

Lemma createProductsStep_compensate_quiet svc ids :
  Quiet svc (createProductsStep_compensate ids).
Proof. destruct ids as [[| ? ?] |]; by repeat split. Qed.

Lemma updateAll_quiet svc categoryMap updates :
  Quiet svc (updateAll svc categoryMap updates).1.
Proof.
  induction updates as [| u updates IH]; [apply Quiet_nil |].
  simpl. destruct (updateAll svc categoryMap updates) as [calls results].
  change (Quiet svc ([UpdateProducts (u_id u) (toUpdateData categoryMap u)] ++ calls)).
  apply Quiet_app; [by repeat split | exact IH].
Qed.

Lemma updateProductsStep_quiet svc updates categoryMap :
  Quiet svc (updateProductsStep svc updates categoryMap).1.
Proof.
  unfold updateProductsStep. destruct (length updates =? 0); [apply Quiet_nil |].
  unfold bind, ret. pose proof (updateAll_quiet svc categoryMap updates) as Hq.
  destruct (updateAll svc categoryMap updates) as [calls [results | e]]; [| exact Hq].
  cbn [fst]. by rewrite app_nil_r.
Qed.

Lemma linkProductBrandsStep_quiet P B svc created updated brandMap inCreate inUpdate :
  Quiet svc (linkProductBrandsStep P B svc created updated brandMap inCreate inUpdate).1.
Proof.
  unfold linkProductBrandsStep.
  destruct (uniqueLinksOf _ _ _) as [us |]; [| apply Quiet_nil].
  destruct (0 <? length us); [| apply Quiet_nil].
  unfold bind, tryCatch, call, ret.
  destruct (linkDismiss svc us), (linkCreate svc us); by repeat split.
Qed.

(** Chaining quiet steps with quiet compensations stays quiet. *)
Lemma andThen_quiet {O C R} svc (step : Step (StepResponse O C))
    (compensate : option C → list Call) (rest : O → list Call * Js.Result R) :
  Quiet svc step.1 →
  (∀ x, Quiet svc (compensate x)) →
  (∀ o, Quiet svc (rest o).1) →
  Quiet svc (andThen step compensate rest).1.
Proof.
  intros Hs Hc Hr. unfold andThen.
  destruct step as [calls [s | e]]; cbn [fst] in *.
  - specialize (Hr (output s)). destruct (rest (output s)) as [calls' [r | e]]; cbn [fst] in *.
    + by apply Quiet_app.
    + apply Quiet_app; [done |]. by apply Quiet_app.
  - by apply Quiet_app.
Qed.

End LedgerFacts.

Module Compensation.
Import Js Model BatchProducts LedgerFacts Samples.

Lemma created_brands_fresh svc (old : string → Prop) calls :
  (∀ names rows, createBrands svc names = Ok rows → Forall (fun b => ¬ old (b_id b)) rows) →
  Forall (fun id => ¬ old id) (map b_id (brandRowsCreated svc calls)).
Proof.
  intros Hfresh. induction calls as [| c calls IH]; [constructor |].
  unfold brandRowsCreated. simpl. rewrite map_app. apply Forall_app. split; [| exact IH].
  destruct c; simpl; try constructor.
  destruct (createBrands svc names) as [rows | e] eqn:Hc; [| constructor].
  apply Forall_fmap. exact (Hfresh _ _ Hc).
Qed.

Lemma created_categories_fresh svc (old : string → Prop) calls :
  (∀ inputs rows, createProductCategories svc inputs = Ok rows →
                  Forall (fun c => ¬ old (c_id c)) rows) →
  Forall (fun id => ¬ old id) (map c_id (categoryRowsCreated svc calls)).
Proof.
  intros Hfresh. induction calls as [| c calls IH]; [constructor |].
  unfold categoryRowsCreated. simpl. rewrite map_app. apply Forall_app. split; [| exact IH].
  destruct c; simpl; try constructor.
  destruct (createProductCategories svc inputs) as [rows | e] eqn:Hc; [| constructor].
  apply Forall_fmap. exact (Hfresh _ _ Hc).
Qed.

Lemma workflow_ledger (Modules_PRODUCT BRAND_MODULE : string) svc input :
  RunLedger svc (batchProductsWorkflow Modules_PRODUCT BRAND_MODULE svc input).
Proof.
  unfold batchProductsWorkflow.
  pose proof (manageBrandsStep_ledger svc (extractBrands input)) as HB.
  pose proof (manageCategoriesStep_ledger svc (extractCategories input)) as HC.
  destruct (manageBrandsStep svc (extractBrands input)) as [c1 r1].
  destruct (manageCategoriesStep svc (extractCategories input)) as [c2 r2].
  destruct HB as (B1 & B2 & B3 & B4). destruct HC as (C1 & C2 & C3 & C4).
  cbn [fst snd] in *.
  unfold andThen at 1.
  destruct r1 as [s1 | e1].
  2:{ unfold RunLedger. cbn [fst snd manageBrandsStep_compensate].
      rewrite app_nil_r, B1, B2, B3, B4. done. }
  unfold andThen at 1.
  destruct r2 as [s2 | e2].
  2:{ destruct (manageBrandsStep_compensate_deletes (compensateInput s1)) as (D1 & D2 & _).
      destruct (compensate_creates_nothing svc (Some (compensateInput s1))) as (N1 & N2 & _).
      unfold RunLedger. cbn [fst snd manageCategoriesStep_compensate].
      rewrite app_nil_r. ledger_app. rewrite ?map_app.
      rewrite B1, B2, B3, B4, C1, C2, C3, C4, D2, N1, N2. simpl. rewrite ?app_nil_r.
      split; [exact D1 | done]. }
  match goal with
  | |- context [andThen (createProductsStep ?a ?b ?c) ?d ?k] =>
      pose proof (andThen_quiet svc (createProductsStep a b c) d k
                    (createProductsStep_quiet _ _ _)
                    (createProductsStep_compensate_quiet _)) as HQ;
      destruct (andThen (createProductsStep a b c) d k) as [c3 r3]
  end.
  assert (Q3 : Quiet svc c3).
  { apply HQ. intros created.
    apply andThen_quiet; [apply updateProductsStep_quiet | by repeat split |].
    intros updated.
    apply andThen_quiet; [apply linkProductBrandsStep_quiet | by repeat split |].
    intros _. apply Quiet_nil. }
  clear HQ. destruct Q3 as (Q1 & Q2 & Q3 & Q4).
  destruct r3 as [out | e3]; unfold RunLedger; cbn [fst snd].
  - ledger_app. rewrite B1, B2, C1, C2, Q1, Q2. done.
  - destruct (manageCategoriesStep_compensate_deletes (compensateInput s2)) as (E1 & E2 & _).
    destruct (manageBrandsStep_compensate_deletes (compensateInput s1)) as (D1 & D2 & _).
    destruct (compensate_creates_nothing svc (Some (compensateInput s1))) as (N1 & N2 & _).
    destruct (compensate_creates_nothing svc (Some (compensateInput s2))) as (_ & _ & N3 & N4).
    ledger_app. rewrite ?map_app.
    rewrite B1, B2, B3, B4, C1, C2, C3, C4, Q1, Q2, Q3, Q4, D2, E2, N1, N2, N3, N4.
    simpl. rewrite ?app_nil_r. split; [exact D1 | exact E1].
Qed.

(** C4. In a run of the batch workflow, compensation deletes exactly
    the rows created in the run: a run that succeeds deletes no brand and
    no category; in a run that fails, the ids handed to [deleteBrands] are
    the ids of the rows that [createBrands] returned in this run, and the
    ids handed to [deleteProductCategories] are the ids of the rows that
    [createProductCategories] returned in this run.  Hence, when the
    modules give fresh ids to the rows they create, no brand and no
    category that existed before the run is deleted. *)
Theorem compensation_deletes_exactly_created
    (Modules_PRODUCT BRAND_MODULE : string) (svc : Services) (input : BatchWorkflowInput)
    (oldBrand oldCategory : string → Prop) :
  (∀ names rows, createBrands svc names = Ok rows →
                 Forall (fun b => ¬ oldBrand (b_id b)) rows) →
  (∀ inputs rows, createProductCategories svc inputs = Ok rows →
                  Forall (fun c => ¬ oldCategory (c_id c)) rows) →
  let run := batchProductsWorkflow Modules_PRODUCT BRAND_MODULE svc input in
  match run.2 with
  | Ok _ => deletedBrands run.1 = [] ∧ deletedCategories run.1 = []
  | Throw _ =>
      concat (deletedBrands run.1) = map b_id (brandRowsCreated svc run.1)
      ∧ concat (deletedCategories run.1) = map c_id (categoryRowsCreated svc run.1)
  end
  ∧ Forall (fun id => ¬ oldBrand id) (concat (deletedBrands run.1))
  ∧ Forall (fun id => ¬ oldCategory id) (concat (deletedCategories run.1)).
Proof.
  intros HfreshB HfreshC run.
  pose proof (workflow_ledger Modules_PRODUCT BRAND_MODULE svc input) as Hledger.
  unfold RunLedger in Hledger. fold run in Hledger. split; [exact Hledger |].
  destruct (run.2) as [out | e].
  - destruct Hledger as [-> ->]. split; constructor.
  - destruct Hledger as [-> ->].
    split; [by apply created_brands_fresh | by apply created_categories_fresh].
Qed.

(** The statement at the sample input, with one brand row stored before the
    run. *)
Lemma compensation_deletes_exactly_created_witness :
  let old := fun id : string => id = "brand_1" in
  let run := batchProductsWorkflow "product" "brand" failingProductServices sampleWorkflowInput in
  (∀ names rows, createBrands failingProductServices names = Ok rows →
                 Forall (fun b => ¬ old (b_id b)) rows)
  ∧ (∀ inputs rows, createProductCategories failingProductServices inputs = Ok rows →
                    Forall (fun c => ¬ old (c_id c)) rows)
  ∧ deletedBrands run.1 = [["new-Zed"]]
  ∧ deletedCategories run.1 = [["new-beauty"]]
  ∧ Forall (fun id => ¬ old id) (concat (deletedBrands run.1)).
Proof.
  intros old run.
  assert (HB : ∀ names rows, createBrands failingProductServices names = Ok rows →
                             Forall (fun b => ¬ old (b_id b)) rows).
  { intros names rows [= <-]. apply Forall_fmap, Forall_forall. intros n _. discriminate. }
  assert (HC : ∀ inputs rows, createProductCategories failingProductServices inputs = Ok rows →
                              Forall (fun c => ¬ old (c_id c)) rows).
  { intros inputs rows [= <-]. apply Forall_fmap, Forall_forall. intros n _. discriminate. }
  split; [exact HB |]. split; [exact HC |].
  split; [vm_compute; reflexivity |]. split; [vm_compute; reflexivity |].
  exact (proj1 (proj2 (compensation_deletes_exactly_created
                         "product" "brand" failingProductServices sampleWorkflowInput
                         old old HB HC))).
Defined.

End Compensation.

(** ** Brand and category deduplication *)

Module DedupFacts.
Import Js Model BatchProducts JsFacts.

(** *** Brands *)

Lemma brandsToCreate_elem brandMap names n :
  n ∈ brandsToCreate brandMap names ↔ n ∈ names ∧ truthy_opt (brandMap !! n) = false.
Proof.
  unfold brandsToCreate. rewrite !list_elem_of_In, filter_In, negb_true_iff. done.
Qed.

Lemma List_filter_NoDup {A} (f : A → bool) (l : list A) : NoDup l → NoDup (List.filter f l).
Proof.
  induction 1 as [| x l Hx Hl IH]; simpl; [constructor |].
  destruct (f x); [| done]. constructor; [| done].
  rewrite list_elem_of_In, filter_In, <- list_elem_of_In. tauto.
Qed.

(** The brand step asks for the creation of each name at most once, and
    only of names for which the listing gave no brand with an id. *)
Lemma brandsToCreate_deduplicated brandMap brandNames :
  NoDup (brandsToCreate brandMap (unique brandNames))
  ∧ ∀ n, n ∈ brandsToCreate brandMap (unique brandNames) →
         n ∈ brandNames ∧ truthy_opt (brandMap !! n) = false.
Proof.
  split; [apply List_filter_NoDup, unique_NoDup |].
  intros n [Hn Hfalse]%brandsToCreate_elem. split; [| done].
  by apply (proj1 (unique_elem _ _)).
Qed.

(** *** Categories *)

Lemma planCategories_queue handleMap names : ∀ categoryMap queue,
  (foldl (planCategory handleMap) (categoryMap, queue) names).2
  = queue ++ map (fun n => {| ci_name := n; ci_handle := nameToHandle n |})
               (List.filter (fun n => bool_decide (handleMap !! nameToHandle n = None)) names).
Proof.
  induction names as [| n names IH]; intros categoryMap queue; cbn [foldl List.filter].
  - cbn [map snd]. by rewrite app_nil_r.
  - unfold planCategory at 2. cbn [fst snd].
    destruct (handleMap !! nameToHandle n) as [c |] eqn:Hh.
    + rewrite IH. by rewrite bool_decide_eq_false_2.
    + rewrite IH. rewrite bool_decide_eq_true_2 by done. cbn [map].
      by rewrite <- app_assoc.
Qed.

(** The category step queues for creation exactly the unique names whose
    handle no listed category has: one entry per name, not one per
    handle. *)
Lemma planCategories_toCreate handleMap categoryNames :
  (planCategories handleMap (unique categoryNames)).2
  = map (fun n => {| ci_name := n; ci_handle := nameToHandle n |})
        (List.filter (fun n => bool_decide (handleMap !! nameToHandle n = None))
                     (unique categoryNames)).
Proof. unfold planCategories. by rewrite planCategories_queue. Qed.

(** A name that comes after another name with the same handle is never
    entered by the loops over the categories coming back. *)
Lemma recordCategory_skips_later_name pre u rest name categoryMap c :
  name ∉ pre → u ≠ name → nameToHandle u = nameToHandle name →
  recordCategory (pre ++ u :: rest) categoryMap c !! name = categoryMap !! name.
Proof.
  intros Hpre Hne Hh. unfold recordCategory.
  destruct (find _ _) as [original |] eqn:Hfind; [| done].
  destruct (truthy original); [| done].
  destruct (decide (original = name)) as [-> | Hon]; [| by rewrite lookup_insert_ne].
  exfalso. clear -Hpre Hne Hh Hfind.
  induction pre as [| p pre IH]; simpl in Hfind.
  - rewrite Hh in Hfind. destruct (String.eqb _ _) eqn:E.
    + by injection Hfind.
    + apply find_some in Hfind as [_ Hf]. congruence.
  - apply not_elem_of_cons in Hpre as [Hp Hpre].
    destruct (String.eqb _ _); [by injection Hfind | by apply IH].
Qed.

Lemma recordCategories_skips_later_name pre u rest name cs : ∀ categoryMap,
  name ∉ pre → u ≠ name → nameToHandle u = nameToHandle name →
  recordCategories (pre ++ u :: rest) categoryMap cs !! name = categoryMap !! name.
Proof.
  induction cs as [| c cs IH]; intros categoryMap Hpre Hne Hh; [done |].
  unfold recordCategories in *. simpl. rewrite IH by done.
  by apply recordCategory_skips_later_name.
Qed.

End DedupFacts.

Module Deduplication.
Import Js Model BatchProducts JsFacts DedupFacts.

(** C2 (where the code departs from it).  Two category names that differ
    but share a handle, at a time when no category with that handle
    exists: the category step asks for the creation of two categories with
    the same handle, one per name, and whatever the services answer, the
    map it returns has no id for the second name. *)
Theorem manageCategoriesStep_two_names_one_handle (svc : Services) :
  let run := manageCategoriesStep (withNoCategoriesYet svc) ["Home Decor"; "home decor"] in
  nameToHandle "Home Decor" = "home-decor"
  ∧ nameToHandle "home decor" = "home-decor"
  ∧ take 2 run.1
    = [ ListProductCategories ["home-decor"; "home-decor"];
        CreateProductCategories
          [ {| ci_name := "Home Decor"; ci_handle := "home-decor" |};
            {| ci_name := "home decor"; ci_handle := "home-decor" |} ] ]
  ∧ match run.2 with
    | Ok s => output s !! "home decor" = None
    | Throw _ => True
    end.
Proof.
  intros run. split; [reflexivity |]. split; [reflexivity |].
  assert (Hskip : ∀ cs, recordCategories ["Home Decor"; "home decor"] ∅ cs !! "home decor"
                        = (∅ : gmap string string) !! "home decor").
  { intros cs.
    apply (recordCategories_skips_later_name [] "Home Decor" ["home decor"] "home decor");
      [apply not_elem_of_nil | discriminate | reflexivity]. }
  set (handles := ["home-decor"; "home-decor"]).
  set (toCreate := [ {| ci_name := "Home Decor"; ci_handle := "home-decor" |};
                     {| ci_name := "home decor"; ci_handle := "home-decor" |} ]).
  assert (Hrun : run =
    match createProductCategories svc toCreate with
    | Ok created =>
        ([ListProductCategories handles; CreateProductCategories toCreate],
         Ok (Build_StepResponse
               (recordCategories ["Home Decor"; "home decor"] ∅ created)
               (map c_id created)))
    | Throw _ =>
        match listProductCategories svc 1 handles with
        | Ok fallback =>
            ([ListProductCategories handles; CreateProductCategories toCreate;
              ListProductCategories handles],
             Ok (Build_StepResponse
                   (recordCategories ["Home Decor"; "home decor"] ∅ fallback) []))
        | Throw e =>
            ([ListProductCategories handles; CreateProductCategories toCreate;
              ListProductCategories handles], Throw e)
        end
    end).
  { subst run. unfold manageCategoriesStep, withNoCategoriesYet, tryCatch, bind, call, ret.
    cbn [length Nat.eqb listProductCategories createProductCategories].
    change (unique ["Home Decor"; "home decor"]) with ["Home Decor"; "home decor"].
    change (map nameToHandle ["Home Decor"; "home decor"]) with handles.
    change (planCategories (Map_of (map (fun c => (c_handle c, c)) []))
              ["Home Decor"; "home decor"])
      with ((∅ : gmap string string), toCreate).
    cbn [length Nat.ltb Nat.leb].
    destruct (createProductCategories svc toCreate) as [created | e]; [reflexivity |].
    destruct (listProductCategories svc 1 handles) as [fallback | e']; reflexivity. }
  rewrite Hrun. clear Hrun.
  destruct (createProductCategories svc toCreate) as [created | e].
  - split; [reflexivity |]. cbn [snd output]. rewrite Hskip. apply lookup_empty.
  - destruct (listProductCategories svc 1 handles) as [fallback | e'].
    + split; [reflexivity |]. cbn [snd output]. rewrite Hskip. apply lookup_empty.
    + split; [reflexivity | exact I].
Qed.

End Deduplication.

(** ** The single-workflow variant *)

Module SyncStepFacts.
Import Js Model DailyProductSync BatchProducts SyncProducts JsFacts SplitFacts DedupFacts.

Lemma foldl_syncRoute (brandMap : gmap string string)
    (M : gmap (option string) ProductDTO) products creates updates :
  foldl (syncRoute brandMap M) (creates, updates) products
  = (creates ++ map (productDataOf brandMap) (filter (fun p => M !! keyOf p = None) products),
     updates ++ omap (fun p => (fun e => (dto_id e, productDataOf brandMap p)) <$> M !! keyOf p)
                     products).
Proof.
  revert creates updates.
  induction products as [| p products IH]; intros creates updates; cbn [foldl omap list_omap].
  - by rewrite filter_nil, !app_nil_r.
  - unfold syncRoute at 2. fold (keyOf p). cbn [fst snd].
    destruct (M !! keyOf p) as [e |] eqn:HM; cbn [fmap option_fmap option_map].
    + rewrite IH. rewrite filter_cons_False by (rewrite HM; done).
      by rewrite <- app_assoc.
    + rewrite IH. rewrite filter_cons_True by done. cbn [map].
      by rewrite <- app_assoc.
Qed.

(** The sync step of the single-workflow variant splits its products the
    same way: by the external id, each product to one side. *)
Lemma syncSplit_partitions_by_external_id
    (brandMap : gmap string string) existingProducts products :
  (syncSplit brandMap existingProducts products).1
  = map (productDataOf brandMap) (filter (fun p => ¬ Stored existingProducts p) products)
  ∧ Forall2 (fun p u => ∃ e, e ∈ existingProducts ∧ dto_external_id e = keyOf p
                             ∧ u = (dto_id e, productDataOf brandMap p))
      (filter (Stored existingProducts) products)
      (syncSplit brandMap existingProducts products).2.
Proof.
  unfold syncSplit. rewrite foldl_syncRoute. cbn [fst snd app]. split.
  - f_equal. apply list_filter_iff. intros p. apply existingMap_None.
  - induction products as [| p products IH]; cbn [omap list_omap]; [constructor |].
    destruct (existingMapOf existingProducts !! keyOf p) as [e |] eqn:HM;
      cbn [fmap option_fmap option_map].
    + rewrite filter_cons_True by (apply existingMap_is_Some; rewrite HM; eauto).
      constructor; [| done].
      apply existingMap_Some in HM as [Hin Hext]. by exists e.
    + rewrite filter_cons_False by (by apply existingMap_None). done.
Qed.

(** The brand step of that variant asks for the creation of each brand
    name at most once, and only of names that the listing did not return. *)
Lemma syncBrandsStep_creates_unknown_names svc products existing names :
  listBrands svc (brandNamesOf products) = Ok existing →
  CreateBrands names ∈ (syncBrandsStep svc products).1 →
  NoDup names ∧ ∀ n, n ∈ names → n ∈ brandNamesOf products ∧ n ∉ map b_name existing.
Proof.
  intros Hlist. unfold syncBrandsStep, bind, call, ret. rewrite Hlist.
  set (known := Map_of (map (fun b => (b_name b, b_id b)) existing)).
  set (toCreate := List.filter _ (brandNamesOf products)).
  assert (Hspec : NoDup toCreate
                  ∧ ∀ n, n ∈ toCreate → n ∈ brandNamesOf products ∧ n ∉ map b_name existing).
  { split; [apply List_filter_NoDup, unique_NoDup |].
    intros n Hn. unfold toCreate in Hn.
    rewrite list_elem_of_In, filter_In, <- list_elem_of_In in Hn. destruct Hn as [Hin Hun].
    split; [done |]. intros Hex.
    apply negb_true_iff, bool_decide_eq_false in Hun. apply Hun.
    apply Map_of_lookup_is_Some. rewrite <- list_fmap_compose. exact Hex. }
  destruct (0 <? length toCreate); cbn [fst snd app].
  - destruct (createBrands svc toCreate); cbn [fst snd app];
      intros Hin; repeat (apply elem_of_cons in Hin as [Hin | Hin]; [try discriminate Hin |]);
      try (by apply elem_of_nil in Hin); by injection Hin as ->.
  - intros Hin. repeat (apply elem_of_cons in Hin as [Hin | Hin]; [discriminate Hin |]).
    by apply elem_of_nil in Hin.
Qed.

End SyncStepFacts.

(** ** The product status *)

Module StatusFacts.
Import Js Model BatchProducts.

Lemma ProductStatus_get_name st : ProductStatus_get (ProductStatus_name st) = Some st.
Proof. by destruct st. Qed.

Lemma ProductStatus_get_Some key st :
  ProductStatus_get key = Some st → ProductStatus_name st = key.
Proof.
  unfold ProductStatus_get.
  destruct (String.eqb_spec key "DRAFT") as [-> | _]; [by intros [= <-] |].
  destruct (String.eqb_spec key "PROPOSED") as [-> | _]; [by intros [= <-] |].
  destruct (String.eqb_spec key "PUBLISHED") as [-> | _]; [by intros [= <-] |].
  destruct (String.eqb_spec key "REJECTED") as [-> | _]; [by intros [= <-] |].
  discriminate.
Qed.

Lemma ProductStatus_get_None key :
  ProductStatus_get key = None ↔ ∀ st, ProductStatus_name st ≠ key.
Proof.
  split.
  - intros Hnone st <-. by rewrite ProductStatus_get_name in Hnone.
  - intros Hno. destruct (ProductStatus_get key) as [st |] eqn:Hget; [| done].
    apply ProductStatus_get_Some in Hget. by destruct (Hno st).
Qed.

(** The status sent is the member named by the upper-cased input when
    there is one, and the draft status otherwise. *)
Lemma statusOf_spec (status : string) (st : ProductStatus) :
  statusOf status = st ↔
  ProductStatus_name st = toUpperCase status
  ∨ (st = DRAFT ∧ ∀ st', ProductStatus_name st' ≠ toUpperCase status).
Proof.
  unfold statusOf.
  destruct (ProductStatus_get (toUpperCase status)) as [st0 |] eqn:Hget; simpl.
  - pose proof (ProductStatus_get_Some _ _ Hget) as Hname. split.
    + intros <-. by left.
    + intros [Hst | [_ Hno]]; [| by destruct (Hno st0)].
      rewrite <- Hst, ProductStatus_get_name in Hget. by injection Hget.
  - pose proof (proj1 (ProductStatus_get_None _) Hget) as Hno. split.
    + intros <-. by right.
    + intros [Hst | [-> _]]; [by destruct (Hno st) | done].
Qed.

Lemma updatesSent_updateAll svc categoryMap updates :
  updatesSent (updateAll svc categoryMap updates).1
  = map (fun u => (u_id u, toUpdateData categoryMap u)) updates.
Proof.
  induction updates as [| u updates IH]; [done |].
  simpl. destruct (updateAll svc categoryMap updates) as [calls results].
  simpl in *. by rewrite IH.
Qed.

End StatusFacts.

Module Status.
Import Js Model BatchProducts StatusFacts Samples.

(** C9 (as amended).  Every product that [createProductsStep] hands to
    the product module carries a status of the enum: the member named by
    the upper-cased input status when there is one, the draft status
    otherwise.  [updateProductsStep] sends such a status for an entry whose
    status is a non-empty string, and sends no status at all for an entry
    whose status is absent or empty. *)
Theorem status_sent_to_product_module
    (svc : Services) (categoryMap : gmap string string)
    (products : list ProductInput) (updates : list UpdateInput) :
  map cp_status (dtosSent (createProductsStep svc products categoryMap).1)
  = map (fun p => statusOf (pi_status p)) products
  ∧ map (fun sent => ud_status sent.2)
        (updatesSent (updateProductsStep svc updates categoryMap).1)
    = map (fun u => match u_status u with
                    | Some status => if truthy status then Some (statusOf status) else None
                    | None => None
                    end) updates
  ∧ ∀ (status : string) (st : ProductStatus),
      statusOf status = st ↔
      ProductStatus_name st = toUpperCase status
      ∨ (st = DRAFT ∧ ∀ st', ProductStatus_name st' ≠ toUpperCase status).
Proof.
  split; [| split; [| apply statusOf_spec]].
  - unfold createProductsStep. destruct products as [| p products]; [done |].
    cbn [length Nat.eqb]. unfold bind, call, ret.
    destruct (createProducts svc _); cbn [fst dtosSent flat_map app];
      rewrite ?app_nil_r, map_map; done.
  - unfold updateProductsStep. destruct updates as [| u updates]; [done |].
    cbn [length Nat.eqb]. unfold bind, ret.
    pose proof (updatesSent_updateAll svc categoryMap (u :: updates)) as Hsent.
    destruct (updateAll svc categoryMap (u :: updates)) as [calls [results | e]];
      cbn [fst] in *; rewrite ?app_nil_r, Hsent, map_map; done.
Qed.

(** C9 as stated fails for the update step: for an entry whose status is
    the empty string the data sent carries no status, while the create step
    sends the draft status for the same string. *)
Lemma update_with_empty_status_sends_no_status :
  map (fun sent => ud_status sent.2)
      (updatesSent (updateProductsStep failingProductServices [emptyStatusUpdate] ∅).1)
  = [None]
  ∧ statusOf EmptyString = DRAFT.
Proof. split; vm_compute; reflexivity. Qed.

End Status.

(** ** The CSV export *)

Module CsvFacts.
Import Js ProductsExport JsFacts.













(** *** The price column is plain *)







(** *** The price column read back *)








End CsvFacts.

Module ExportRows.
Import Js ProductsExport JsFacts CsvFacts Samples.




End ExportRows.


(* ===================================================================== *)
(** * Part III: further properties of the code                            *)
(* ===================================================================== *)

(** ** The retry schedule for any number of retries *)

Module ScheduleFacts.
Import Js Model Eff DailyProductSync RetryFacts.

Lemma requested_failedAttempts url backoff k : ∀ i,
  requested (failedAttempts url backoff i k) = replicate k url.
Proof. induction k as [| k IH]; intros i; simpl; [done |]. by rewrite IH. Qed.

Lemma slept_failedAttempts url backoff k : ∀ i,
  slept (failedAttempts url backoff i k)
  = map (fun j => backoff * 2 ^ Z.of_nat j)%Z (seq i k).
Proof. induction k as [| k IH]; intros i; simpl; [done |]. by rewrite IH. Qed.

Lemma slept_app tr tr' : slept (tr ++ tr') = slept tr ++ slept tr'.
Proof. apply omap_app. Qed.

Lemma replicate_snoc {A} (x : A) k : replicate k x ++ [x] = replicate (S k) x.
Proof. induction k as [| k IH]; simpl; [done |]. by rewrite IH. Qed.

(** What the attempts [0 .. k-1] failing and the attempt [k] being made
    leave in the trace. *)
Lemma schedule_requested url backoff k :
  requested (failedAttempts url backoff 0 k ++ [EvFetch url]) = replicate (S k) url.
Proof.
  rewrite PageFacts.requested_app, requested_failedAttempts. apply replicate_snoc.
Qed.

Lemma schedule_slept url backoff k :
  slept (failedAttempts url backoff 0 k ++ [EvFetch url]) = backoffs backoff k.
Proof.
  rewrite slept_app, slept_failedAttempts. simpl. by rewrite app_nil_r.
Qed.

Section Shape.
Context {T : Type} (fetch : Fetch T).

(** The loop, whatever the network does: it makes [n] requests, at most
    as many as it has turns left, waits behind each but the last, and
    throws only when its turns are used up. *)
Lemma fetchAttempts_shape url retries backoff : ∀ remaining i w,
  i + remaining = retries →
  ∃ n, n ≤ remaining
    ∧ (0 < remaining → 0 < n)
    ∧ (fetchAttempts fetch url retries backoff remaining i w).2
      = after w n (failedAttempts url backoff i (n - 1)
                   ++ (if n =? 0 then [] else [EvFetch url]))
    ∧ match (fetchAttempts fetch url retries backoff remaining i w).1 with
      | Returned _ => True
      | Thrown _ => n = remaining
      | OutOfFuel => False
      end.
Proof.
  induction remaining as [| remaining IH]; intros i w Hsum.
  - exists 0. split; [lia |]. split; [lia |]. simpl. by rewrite after_0.
  - destruct (attemptResult fetch (clock w) url) as [v | e] eqn:Hres.
    + exists 1. rewrite (fetchAttempts_success _ _ _ _ _ _ _ _ Hres).
      split; [lia |]. split; [lia |]. split; [reflexivity | exact I].
    + destruct (decide (i = retries - 1)) as [Hlast | Hmore].
      * exists 1. rewrite (fetchAttempts_give_up _ _ _ _ _ _ _ _ Hres Hlast).
        split; [lia |]. split; [lia |]. split; [done |]. simpl. lia.
      * rewrite (fetchAttempts_retry _ _ _ _ _ _ _ _ Hres Hmore).
        destruct (IH (S i) (after w 1 [EvFetch url; EvSleep (backoff * 2 ^ Z.of_nat i)])
                    ltac:(lia)) as (n & Hn & Hpos & Hstate & Hout).
        exists (S n). split; [lia |]. split; [lia |].
        assert (0 < n) by (apply Hpos; lia).
        split.
        -- rewrite Hstate, after_after.
           destruct n as [| n]; [lia |]. simpl. rewrite Nat.sub_0_r. done.
        -- destruct (fetchAttempts _ _ _ _ _ _ _).1; [done | lia | done].
Qed.

End Shape.
End ScheduleFacts.

Module RetrySchedule.
Import Js Model Eff DailyProductSync RetryFacts ScheduleFacts Samples.

(** X1. For any number of retries and any backoff: when the attempts
    [0], ..., [k - 1] fail and attempt [k] succeeds, with [k] below the
    number of retries, [fetchWithRetry] returns the body of attempt [k].
    It has then made exactly [k + 1] requests, all for the same address,
    and has waited [backoff * 2 ^ i] behind each failed attempt [i], in this
    order; the last thing it did is the request that succeeded. *)
Theorem fetchWithRetry_returns_first_success {T} (fetch : Fetch T) (url : string)
    (retries : nat) (backoff : Z) (k : nat) (w : World) (v : T) :
  k < retries →
  (∀ j, j < k → ∃ e, attemptResult fetch (clock w + j) url = Throw e) →
  attemptResult fetch (clock w + k) url = Ok v →
  let evs := failedAttempts url backoff 0 k ++ [EvFetch url] in
  fetchWithRetry fetch url retries backoff w = (Returned v, after w (S k) evs)
  ∧ requested evs = replicate (S k) url
  ∧ slept evs = backoffs backoff k.
Proof.
  intros Hk Hfail Hok evs. split; [| split].
  - unfold fetchWithRetry. by apply fetchAttempts_first_success.
  - apply schedule_requested.
  - apply schedule_slept.
Qed.

(** The statement for four retries of half a second on a network that is
    down for the first two requests. *)
Lemma fetchWithRetry_returns_first_success_witness :
  fetchWithRetry (downThenGood 2) "u" 4 500 world0
  = (Returned 7%Z,
     {| clock := 3;
        trace := [EvFetch "u"; EvSleep 500; EvFetch "u"; EvSleep 1000; EvFetch "u"] |}).
Proof.
  refine (proj1 (fetchWithRetry_returns_first_success (downThenGood 2) "u" 4 500 2 world0 7%Z
                   _ _ _)).
  - lia.
  - intros j Hj. exists (mkError "network down").
    destruct j as [| [| j]]; [reflexivity | reflexivity | lia].
  - reflexivity.
Defined.

(** X2. For any positive number of retries: when every attempt fails,
    [fetchWithRetry] throws the error of the last attempt.  It has then made
    exactly [retries] requests and has waited [backoff * 2 ^ i] behind every
    attempt [i] but the last one: there is no wait before it gives up. *)
Theorem fetchWithRetry_throws_the_last_error {T} (fetch : Fetch T) (url : string)
    (retries : nat) (backoff : Z) (w : World) (e : Error) :
  0 < retries →
  (∀ j, j < retries - 1 → ∃ e', attemptResult fetch (clock w + j) url = Throw e') →
  attemptResult fetch (clock w + (retries - 1)) url = Throw e →
  let evs := failedAttempts url backoff 0 (retries - 1) ++ [EvFetch url] in
  fetchWithRetry fetch url retries backoff w = (Thrown e, after w retries evs)
  ∧ requested evs = replicate retries url
  ∧ slept evs = backoffs backoff (retries - 1).
Proof.
  intros Hpos Hfail Hlast evs. subst evs.
  destruct retries as [| remaining]; [lia |].
  replace (S remaining - 1) with remaining in * by lia.
  split; [| split].
  - unfold fetchWithRetry. by apply fetchAttempts_all_fail.
  - apply schedule_requested.
  - apply schedule_slept.
Qed.

(** The statement for three retries against a server that answers 503. *)
Lemma fetchWithRetry_throws_the_last_error_witness :
  fetchWithRetry unavailable "u" 3 1000 world0
  = (Thrown (mkError "Request failed with status 503"),
     {| clock := 3;
        trace := [EvFetch "u"; EvSleep 1000; EvFetch "u"; EvSleep 2000; EvFetch "u"] |}).
Proof.
  refine (proj1 (fetchWithRetry_throws_the_last_error unavailable "u" 3 1000 world0
                   (mkError "Request failed with status 503") _ _ _)).
  - lia.
  - intros j Hj. by exists (mkError "Request failed with status 503").
  - reflexivity.
Defined.

(** X3. Whatever the network does, [fetchWithRetry] makes at most
    [retries] requests, all for the given address and each a single outside
    call, and one wait fewer than requests; it throws only after it has
    made all [retries] requests.  With [retries = 0] it makes no request at
    all and throws the error that the source calls unreachable. *)
Theorem fetchWithRetry_makes_at_most_retries_requests {T} (fetch : Fetch T) (url : string)
    (retries : nat) (backoff : Z) (w : World) :
  let run := fetchWithRetry fetch url retries backoff w in
  ∃ n, n ≤ retries
    ∧ clock run.2 = clock w + n
    ∧ requested (trace run.2) = requested (trace w) ++ replicate n url
    ∧ slept (trace run.2) = slept (trace w) ++ backoffs backoff (n - 1)
    ∧ match run.1 with
      | Returned _ => 0 < n
      | Thrown e => n = retries ∧ (retries = 0 → e = mkError "Unreachable")
      | OutOfFuel => False
      end.
Proof.
  intros run. subst run. unfold fetchWithRetry.
  destruct (fetchAttempts_shape fetch url retries backoff retries 0 w eq_refl)
    as (n & Hn & Hpos & Hstate & Hout).
  exists n. split; [exact Hn |]. rewrite Hstate. cbn [after clock trace].
  split; [done |]. split; [| split].
  - rewrite PageFacts.requested_app. f_equal.
    destruct n as [| n]; [done |].
    cbn [Nat.eqb]. replace (S n - 1) with n by lia. apply schedule_requested.
  - rewrite slept_app. f_equal.
    destruct n as [| n]; [done |].
    cbn [Nat.eqb]. replace (S n - 1) with n by lia. apply schedule_slept.
  - destruct retries as [| retries].
    + simpl. split; [lia | done].
    + destruct (fetchAttempts _ _ _ _ _ _ _).1 as [v | e |];
        [apply Hpos; lia | split; [done | lia] | done].
Qed.

End RetrySchedule.

(** ** Handles *)

Module HandleFacts.
Import Js Model DailyProductSync JsFacts.

(** *** Characters *)

Lemma alnum_not_dash c : is_lower c || is_digit c = true → is_dash c = false.
Proof.
  unfold is_lower, is_digit, is_dash. intros H.
  apply N.eqb_neq. intros E. rewrite E in H. done.
Qed.

Lemma dash_is_handleChar c : is_dash c = true → handleChar c = true.
Proof. unfold handleChar. intros ->. by rewrite orb_true_r. Qed.

Lemma alnum_is_handleChar c : is_lower c || is_digit c = true → handleChar c = true.
Proof. unfold handleChar. by intros ->. Qed.

Lemma digit_is_handleChar c : is_digit c = true → handleChar c = true.
Proof. unfold handleChar. intros ->. by rewrite orb_true_r. Qed.

Lemma is_dash_eq c : is_dash c = true → c = "-"%char.
Proof.
  unfold is_dash, code. intros H%N.eqb_eq.
  rewrite <- (ascii_N_embedding c), H. reflexivity.
Qed.

Lemma handleChar_not_upper c : handleChar c = true → is_upper c = false.
Proof.
  unfold handleChar, is_lower, is_digit, is_dash, is_upper. intros H.
  destruct (N.leb_spec 65 (code c)), (N.leb_spec (code c) 90); try done.
  exfalso.
  destruct (N.leb_spec 97 (code c)); [lia |].
  destruct (N.leb_spec 48 (code c)), (N.leb_spec (code c) 57); try lia.
  all: destruct (N.eqb_spec (code c) 45); simpl in H; try done; lia.
Qed.

(** *** [allChars] *)

Lemma allChars_append f a b : allChars f (a +:+ b) = allChars f a && allChars f b.
Proof.
  induction a as [| c a IH]; [done |].
  change (allChars f (String c (a +:+ b)) = allChars f (String c a) && allChars f b).
  cbn [allChars]. rewrite IH. by rewrite andb_assoc.
Qed.

Lemma allChars_impl (f g : ascii → bool) s :
  (∀ c, f c = true → g c = true) → allChars f s = true → allChars g s = true.
Proof.
  intros Hfg. induction s as [| c s IH]; [done |]. cbn [allChars].
  intros [Hc Hs]%andb_true_iff. by rewrite (Hfg _ Hc), IH.
Qed.

(** *** The three replacements *)

Lemma dashRunsFrom_handleChars s : ∀ inRun,
  allChars handleChar (dashRunsFrom inRun s) = true.
Proof.
  induction s as [| c s IH]; intros inRun; [done |]. cbn [dashRunsFrom].
  destruct (is_lower c || is_digit c) eqn:Hc.
  - cbn [allChars]. by rewrite (alnum_is_handleChar _ Hc), IH.
  - destruct inRun; [apply IH |]. cbn [allChars]. by rewrite IH.
Qed.

Lemma dashRunsFrom_shape s : ∀ inRun,
  noDashRun (dashRunsFrom inRun s) = true
  ∧ (inRun = true → startsWithDash (dashRunsFrom inRun s) = false).
Proof.
  induction s as [| c s IH]; intros inRun; [done |]. cbn [dashRunsFrom].
  destruct (is_lower c || is_digit c) eqn:Hc.
  - destruct (IH false) as [Hrun _]. cbn [noDashRun startsWithDash].
    rewrite (alnum_not_dash _ Hc), Hrun. done.
  - destruct (IH true) as [Hrun Hstart]. destruct inRun.
    + split; [exact Hrun | intros _; by apply Hstart].
    + split; [| done]. cbn [noDashRun]. rewrite Hrun, Hstart by done.
      by rewrite andb_false_r.
Qed.

Lemma dropLeadingDashes_allChars f s :
  allChars f s = true → allChars f (dropLeadingDashes s) = true.
Proof.
  induction s as [| c s IH]; [done |]. cbn [dropLeadingDashes].
  destruct (is_dash c); [| done]. cbn [allChars]. intros [_ Hs]%andb_true_iff. by apply IH.
Qed.

Lemma dropLeadingDashes_noDashRun s :
  noDashRun s = true → noDashRun (dropLeadingDashes s) = true.
Proof.
  induction s as [| c s IH]; [done |]. cbn [dropLeadingDashes].
  destruct (is_dash c); [| done]. cbn [noDashRun]. intros [_ Hs]%andb_true_iff. by apply IH.
Qed.

Lemma dropLeadingDashes_start s : startsWithDash (dropLeadingDashes s) = false.
Proof.
  induction s as [| c s IH]; [done |]. cbn [dropLeadingDashes].
  destruct (is_dash c) eqn:Hc; [exact IH | exact Hc].
Qed.

Lemma dropTrailingDashes_end s : endsWithDash (dropTrailingDashes s) = false.
Proof.
  induction s as [| c s IH]; [done |]. cbn [dropTrailingDashes].
  destruct (dropTrailingDashes s) as [| c' r'] eqn:E.
  - destruct (is_dash c) eqn:Hc; [done | exact Hc].
  - exact IH.
Qed.

Lemma dropTrailingDashes_start s :
  startsWithDash s = false → startsWithDash (dropTrailingDashes s) = false.
Proof.
  destruct s as [| c s]; [done |]. cbn [dropTrailingDashes startsWithDash]. intros Hc.
  destruct (dropTrailingDashes s); [by rewrite Hc | exact Hc].
Qed.

Lemma dropTrailingDashes_allChars f s :
  allChars f s = true → allChars f (dropTrailingDashes s) = true.
Proof.
  induction s as [| c s IH]; [done |]. cbn [dropTrailingDashes allChars].
  intros [Hc Hs]%andb_true_iff. specialize (IH Hs).
  destruct (dropTrailingDashes s) as [| c' r'].
  - destruct (is_dash c); [done |]. cbn [allChars]. by rewrite Hc.
  - cbn [allChars] in *. by rewrite Hc, IH.
Qed.

Lemma dropTrailingDashes_noDashRun s :
  noDashRun s = true → noDashRun (dropTrailingDashes s) = true.
Proof.
  induction s as [| c s IH]; [done |]. cbn [dropTrailingDashes noDashRun].
  intros [Hc Hs]%andb_true_iff. specialize (IH Hs).
  pose proof (dropTrailingDashes_start s) as Hstart.
  destruct (dropTrailingDashes s) as [| c' r'] eqn:E.
  - destruct (is_dash c); [done |]. cbn [noDashRun startsWithDash]. by rewrite andb_false_r.
  - change (negb (is_dash c && startsWithDash (String c' r')) && noDashRun (String c' r') = true).
    rewrite IH, andb_true_r.
    destruct (is_dash c); [| done]. simpl in Hc.
    apply negb_true_iff in Hc. by rewrite (Hstart Hc).
Qed.

(** *** The decimal rendering *)

Lemma toString_sign z :
  toString z = (if (z <? 0)%Z then "-" else EmptyString) +:+ toString (Z.abs z).
Proof. by destruct z. Qed.

Lemma toString_handleChars z : allChars handleChar (toString z) = true.
Proof.
  rewrite toString_sign, allChars_append.
  rewrite (allChars_impl is_digit handleChar _ digit_is_handleChar (digits_toString _ (Z.abs_nonneg z))).
  by destruct (z <? 0)%Z.
Qed.

(** *** The slug *)

Lemma handleOf_slug title id : handleOf title id = slugOf title +:+ "-" +:+ toString id.
Proof. reflexivity. Qed.

Lemma slugOf_handleChars title : allChars handleChar (slugOf title) = true.
Proof.
  unfold slugOf, trimDashes, replaceNonAlnumRuns.
  apply dropTrailingDashes_allChars, dropLeadingDashes_allChars, dashRunsFrom_handleChars.
Qed.

Lemma slugOf_start title : startsWithDash (slugOf title) = false.
Proof.
  unfold slugOf, trimDashes. apply dropTrailingDashes_start, dropLeadingDashes_start.
Qed.

Lemma slugOf_end title : endsWithDash (slugOf title) = false.
Proof. unfold slugOf, trimDashes. apply dropTrailingDashes_end. Qed.

Lemma slugOf_noDashRun title : noDashRun (slugOf title) = true.
Proof.
  unfold slugOf, trimDashes, replaceNonAlnumRuns.
  apply dropTrailingDashes_noDashRun, dropLeadingDashes_noDashRun.
  apply (dashRunsFrom_shape _ false).
Qed.

(** *** Handles are left as they are *)

Lemma toLowerCase_fix s : allChars handleChar s = true → toLowerCase s = s.
Proof.
  induction s as [| c s IH]; [done |]. cbn [allChars toLowerCase].
  intros [Hc Hs]%andb_true_iff. rewrite (IH Hs). unfold toLowerChar.
  by rewrite (handleChar_not_upper _ Hc).
Qed.

Lemma dashRunsFrom_fix s : ∀ inRun,
  allChars handleChar s = true → noDashRun s = true →
  (inRun = true → startsWithDash s = false) →
  dashRunsFrom inRun s = s.
Proof.
  induction s as [| c s IH]; intros inRun Hchars Hrun Hstart; [done |].
  cbn [allChars noDashRun startsWithDash dashRunsFrom] in *.
  apply andb_true_iff in Hchars as [Hc Hs]. apply andb_true_iff in Hrun as [Hcr Hr].
  destruct (is_lower c || is_digit c) eqn:Halnum.
  - by rewrite (IH false Hs Hr).
  - assert (Hd : is_dash c = true).
    { unfold handleChar in Hc. rewrite Halnum in Hc. exact Hc. }
    rewrite Hd in Hcr. simpl in Hcr. apply negb_true_iff in Hcr.
    destruct inRun; [by rewrite Hstart in Hd |].
    rewrite (IH true Hs Hr) by done. by rewrite (is_dash_eq _ Hd).
Qed.

(** *** Reading a handle from its end *)

Lemma endsWithDash_snoc s : endsWithDash (s +:+ "-") = true.
Proof.
  induction s as [| c s IH]; [done |].
  change (endsWithDash (String c (s +:+ "-")) = true).
  destruct (s +:+ "-") as [| c' r] eqn:E; [by destruct s |]. exact IH.
Qed.

(** A text made of digits behind a dash: the dash is the last one. *)
Lemma split_at_last_dash s : ∀ s' d d',
  allChars is_digit d = true → allChars is_digit d' = true →
  s +:+ String "-" d = s' +:+ String "-" d' → s = s' ∧ d = d'.
Proof.
  induction s as [| c s IH]; intros s' d d' Hd Hd' Heq.
  - destruct s' as [| c' s']; [by injection Heq |].
    exfalso. injection Heq as _ Heq. rewrite Heq, allChars_append in Hd.
    cbn [allChars] in Hd. change (is_digit "-") with false in Hd.
    by rewrite andb_false_r in Hd.
  - destruct s' as [| c' s'].
    + exfalso. injection Heq as _ Heq. rewrite <- Heq, allChars_append in Hd'.
      cbn [allChars] in Hd'. change (is_digit "-") with false in Hd'.
      by rewrite andb_false_r in Hd'.
    + injection Heq as -> Heq. destruct (IH _ _ _ Hd Hd' Heq) as [-> ->]. done.
Qed.

End HandleFacts.

Module Handles.
Import Js Model DailyProductSync BatchProducts SyncProducts JsFacts HandleFacts Samples.

(** X4. The handle that the job gives a product is safe in a URL,
    whatever the title is, for every id that is written in plain decimals:
    it is made of lower-case letters, digits and dashes only.  The same
    holds for the handle that the sync step of the single-workflow variant
    computes. *)
Theorem handle_is_url_safe (product : DummyProduct) (brandMap : gmap string string) :
  decimalRange (dp_id product) →
  allChars handleChar (pi_handle (mapToMedusaFormat product)) = true
  ∧ allChars handleChar (pd_handle (productDataOf brandMap product)) = true.
Proof.
  intros _.
  assert (H : allChars handleChar (handleOf (dp_title product) (dp_id product)) = true).
  { rewrite handleOf_slug, !allChars_append.
    rewrite slugOf_handleChars, toString_handleChars. done. }
  split; exact H.
Qed.

(** The statement at a title with capitals, blanks and brackets. *)
Lemma handle_is_url_safe_witness :
  decimalRange 7
  ∧ pi_handle (mapToMedusaFormat (sampleProduct 7 "Eyeshadow Palette (with Mirror)"))
    = "eyeshadow-palette-with-mirror-7"
  ∧ allChars handleChar
      (pi_handle (mapToMedusaFormat (sampleProduct 7 "Eyeshadow Palette (with Mirror)")))
    = true.
Proof.
  assert (H : decimalRange 7) by reflexivity.
  split; [exact H |]. split; [reflexivity |].
  exact (proj1 (handle_is_url_safe (sampleProduct 7 "Eyeshadow Palette (with Mirror)") ∅ H)).
Defined.

(** X5. The part of the handle that comes from the title neither starts
    nor ends with a dash and has no two dashes in a row, whatever the
    title; the handle is this part, a dash and the decimal id. *)
Theorem slug_has_no_stray_dash (title : string) (id : Z) :
  handleOf title id = slugOf title +:+ "-" +:+ toString id
  ∧ startsWithDash (slugOf title) = false
  ∧ endsWithDash (slugOf title) = false
  ∧ noDashRun (slugOf title) = true.
Proof.
  split; [apply handleOf_slug |]. split; [apply slugOf_start |].
  split; [apply slugOf_end | apply slugOf_noDashRun].
Qed.

(** X6. Two products whose ids are written in plain decimals get the same
    handle only if they have the same id (and titles with the same slug):
    the id can be read off the end of the handle. *)
Theorem handle_determines_id (title title' : string) (id id' : Z) :
  decimalRange id → decimalRange id' →
  handleOf title id = handleOf title' id' →
  id = id' ∧ slugOf title = slugOf title'.
Proof.
  intros _ _. rewrite !handleOf_slug, (toString_sign id), (toString_sign id').
  pose proof (digits_toString _ (Z.abs_nonneg id)) as Hd.
  pose proof (digits_toString _ (Z.abs_nonneg id')) as Hd'.
  pose proof (slugOf_end title) as He. pose proof (slugOf_end title') as He'.
  destruct (Z.ltb_spec id 0) as [Hn | Hn], (Z.ltb_spec id' 0) as [Hn' | Hn'].
  - change (slugOf title +:+ "-" +:+ "-" +:+ toString (Z.abs id))
      with (slugOf title +:+ "-" +:+ String "-" (toString (Z.abs id))).
    change (slugOf title' +:+ "-" +:+ "-" +:+ toString (Z.abs id'))
      with (slugOf title' +:+ "-" +:+ String "-" (toString (Z.abs id'))).
    rewrite <- !append_assoc. intros [Hs Habs%toString_inj]%split_at_last_dash; [| done | done].
    split; [lia |].
    by apply (split_at_last_dash _ _ EmptyString EmptyString eq_refl eq_refl) in Hs as [-> _].
  - change (slugOf title +:+ "-" +:+ "-" +:+ toString (Z.abs id))
      with (slugOf title +:+ "-" +:+ String "-" (toString (Z.abs id))).
    change (slugOf title' +:+ "-" +:+ EmptyString +:+ toString (Z.abs id'))
      with (slugOf title' +:+ String "-" (toString (Z.abs id'))).
    rewrite <- append_assoc. intros [Hs _]%split_at_last_dash; [| done | done].
    exfalso. rewrite <- Hs, endsWithDash_snoc in He'. done.
  - change (slugOf title' +:+ "-" +:+ "-" +:+ toString (Z.abs id'))
      with (slugOf title' +:+ "-" +:+ String "-" (toString (Z.abs id'))).
    change (slugOf title +:+ "-" +:+ EmptyString +:+ toString (Z.abs id))
      with (slugOf title +:+ String "-" (toString (Z.abs id))).
    rewrite <- append_assoc. intros [Hs _]%split_at_last_dash; [| done | done].
    exfalso. rewrite Hs, endsWithDash_snoc in He. done.
  - change (slugOf title +:+ "-" +:+ EmptyString +:+ toString (Z.abs id))
      with (slugOf title +:+ String "-" (toString (Z.abs id))).
    change (slugOf title' +:+ "-" +:+ EmptyString +:+ toString (Z.abs id'))
      with (slugOf title' +:+ String "-" (toString (Z.abs id'))).
    intros [Hs Habs%toString_inj]%split_at_last_dash; [| done | done].
    split; [lia | done].
Qed.

(** The statement at two titles that differ in case and punctuation. *)
Lemma handle_determines_id_witness :
  decimalRange 2
  ∧ handleOf "Red Lipstick" 2 = handleOf "red lipstick!" 2
  ∧ slugOf "Red Lipstick" = slugOf "red lipstick!".
Proof.
  assert (H : decimalRange 2) by reflexivity.
  split; [exact H |]. split; [reflexivity |].
  exact (proj2 (handle_determines_id "Red Lipstick" "red lipstick!" 2 2 H H eq_refl)).
Defined.

(** X7. The handle that the category step computes from a name is made of
    lower-case letters, digits and dashes only and has no two dashes in a
    row, and it is its own handle: a name that already is a handle is left
    as it is. *)
Theorem nameToHandle_is_a_handle (name : string) :
  allChars handleChar (nameToHandle name) = true
  ∧ noDashRun (nameToHandle name) = true
  ∧ nameToHandle (nameToHandle name) = nameToHandle name.
Proof.
  assert (Hc : allChars handleChar (nameToHandle name) = true)
    by apply dashRunsFrom_handleChars.
  assert (Hr : noDashRun (nameToHandle name) = true)
    by apply (dashRunsFrom_shape _ false).
  split; [exact Hc |]. split; [exact Hr |].
  unfold nameToHandle at 1. rewrite (toLowerCase_fix _ Hc).
  by apply dashRunsFrom_fix.
Qed.

End Handles.

(** ** The generator and the job at their edges *)

Module EdgeFacts.
Import Js Model Eff DailyProductSync RetryFacts PageFacts ScheduleFacts.

(** *** Computations only add to the trace *)

Lemma Appends_ret {A} (a : A) : Appends (ret a).
Proof. intros w. exists []. by rewrite app_nil_r. Qed.

Lemma Appends_throw {A} e : Appends (@throw A e).
Proof. intros w. exists []. by rewrite app_nil_r. Qed.

Lemma Appends_outOfFuel {A} : Appends (@outOfFuel A).
Proof. intros w. exists []. by rewrite app_nil_r. Qed.

Lemma Appends_emit ev : Appends (emit ev).
Proof. intros w. by exists [ev]. Qed.

Lemma Appends_tick : Appends tick.
Proof. intros w. exists []. by rewrite app_nil_r. Qed.

Lemma Appends_lift {A} (r : Result A) : Appends (lift r).
Proof. destruct r; [apply Appends_ret | apply Appends_throw]. Qed.

Lemma Appends_bind {A B} (m : M A) (k : A → M B) :
  Appends m → (∀ a, Appends (k a)) → Appends (bind m k).
Proof.
  intros Hm Hk w. unfold bind. destruct (Hm w) as [evs Hevs].
  destruct (m w) as [[a | e |] w1]; simpl in Hevs; [| by exists evs | by exists evs].
  destruct (Hk a w1) as [evs' Hevs']. exists (evs ++ evs').
  by rewrite Hevs', Hevs, app_assoc.
Qed.

Lemma Appends_tryCatch {A} (m : M A) (h : Error → M A) :
  Appends m → (∀ e, Appends (h e)) → Appends (tryCatch m h).
Proof.
  intros Hm Hh w. unfold tryCatch. destruct (Hm w) as [evs Hevs].
  destruct (m w) as [[a | e |] w1]; simpl in Hevs; [by exists evs | | by exists evs].
  destruct (Hh e w1) as [evs' Hevs']. exists (evs ++ evs').
  by rewrite Hevs', Hevs, app_assoc.
Qed.

Lemma Appends_fetchWithRetry {T} (fetch : Fetch T) url retries backoff :
  Appends (fetchWithRetry fetch url retries backoff).
Proof.
  intros w. unfold fetchWithRetry.
  destruct (fetchAttempts_shape fetch url retries backoff retries 0 w eq_refl)
    as (n & _ & _ & -> & _).
  by eexists.
Qed.

Lemma Appends_fetchAllProducts_from fetch body limit :
  (∀ batch, Appends (body batch)) →
  ∀ fuel skip, Appends (fetchAllProducts_from fetch body fuel limit skip).
Proof.
  intros Hbody. induction fuel as [| fuel IH]; intros skip; [apply Appends_outOfFuel |].
  cbn [fetchAllProducts_from]. apply Appends_bind; [apply Appends_fetchWithRetry |].
  intros data. destruct (dr_products data) as [[| x page] |]; try apply Appends_ret.
  apply Appends_bind; [apply Hbody |]. intros _.
  destruct (_ >=? _)%Z; [apply Appends_ret | apply IH].
Qed.

Lemma Appends_processBatch env batch : Appends (processBatch env batch).
Proof.
  unfold processBatch, listProducts, runWorkflow, logInfo, logError.
  apply Appends_bind; [apply Appends_emit |]. intros _.
  apply Appends_bind.
  { apply Appends_bind; [apply Appends_tick |]. intros n.
    apply Appends_bind; [apply Appends_emit |]. intros _. apply Appends_lift. }
  intros existingProducts. destruct (splitBatch _ _) as [createBatch updateBatch].
  destruct (_ || _); [| apply Appends_ret].
  apply Appends_bind.
  { apply Appends_bind; [apply Appends_tick |]. intros n.
    apply Appends_bind; [apply Appends_emit |]. intros _. apply Appends_ret. }
  intros errors. destruct (_ <? _); apply Appends_emit.
Qed.

(** *** The job cannot throw *)

Lemma dailyProductSync_cases env fuel w :
  dailyProductSync env fuel w
  = match forAwait_fetchAllProducts (env_fetch env) fuel 20 (processBatch env)
            (logged w startEntry) with
    | (Returned _, w1) => (Returned tt, logged w1 completedEntry)
    | (Thrown e, w1) => (Returned tt, logged w1 (criticalEntry e))
    | (OutOfFuel, w1) => (OutOfFuel, w1)
    end.
Proof.
  unfold dailyProductSync, logInfo, logError, tryCatch, bind, emit, logged. cbn [fst snd].
  by destruct (forAwait_fetchAllProducts _ _ _ _ _) as [[[] | e |] w1].
Qed.

Lemma dailyProductSync_outcome env fuel w :
  match (dailyProductSync env fuel w).1 with
  | Returned _ =>
      last (trace (dailyProductSync env fuel w).2) = Some completedEntry
      ∨ ∃ e, last (trace (dailyProductSync env fuel w).2) = Some (criticalEntry e)
  | Thrown _ => False
  | OutOfFuel => True
  end.
Proof.
  rewrite dailyProductSync_cases.
  destruct (forAwait_fetchAllProducts _ _ _ _ _) as [[[] | e |] w1]; cbn [fst snd logged trace].
  - left. apply last_snoc.
  - right. exists e. apply last_snoc.
  - exact I.
Qed.

Lemma dailyProductSync_starts env fuel w :
  ∃ evs, trace (dailyProductSync env fuel w).2 = trace w ++ startEntry :: evs.
Proof.
  rewrite dailyProductSync_cases.
  destruct (Appends_fetchAllProducts_from (env_fetch env) (processBatch env) 20
              (Appends_processBatch env) fuel 0 (logged w startEntry)) as [evs Hevs].
  unfold forAwait_fetchAllProducts.
  destruct (fetchAllProducts_from _ _ _ _ _ _) as [[[] | e |] w1];
    cbn [fst snd logged trace] in *; rewrite Hevs, <- !app_assoc; by eexists.
Qed.

End EdgeFacts.

Module Edges.
Import Js Model Eff DailyProductSync Scripts RetryFacts PageFacts ScheduleFacts EdgeFacts Samples.

(** X8. An answer that has no product list, or an empty one, ends the
    paging at once, whatever total it announces and at whatever offset: the
    request that got it is the last one, and the loop body is not run for
    it. *)
Theorem fetchAllProducts_stops_at_an_empty_page
    (fetch : Fetch DummyResponse) (body : list DummyProduct → M unit)
    (fuel : nat) (limit skip : Z) (w : World) (data : DummyResponse) :
  attemptResult fetch (clock w) (productsUrl limit skip) = Ok data →
  dr_products data = None ∨ dr_products data = Some [] →
  fetchAllProducts_from fetch body (S fuel) limit skip w
  = (Returned tt, after w 1 [EvFetch (productsUrl limit skip)]).
Proof.
  intros Hres Hempty. cbn [fetchAllProducts_from]. unfold bind at 1.
  unfold fetchWithRetry_default, fetchWithRetry.
  rewrite (fetchAttempts_success _ _ _ _ _ _ _ _ Hres).
  by destruct Hempty as [-> | ->].
Qed.

(** The statement at a server that announces a hundred products and sends
    no list. *)
Lemma fetchAllProducts_stops_at_an_empty_page_witness :
  fetchAllProducts noProductsServer 5 20 world0
  = (Returned tt, {| clock := 1; trace := [EvFetch (productsUrl 20 0)] |}).
Proof.
  refine (fetchAllProducts_stops_at_an_empty_page noProductsServer _ 4 20 0 world0
            {| dr_products := None; dr_total := 100; dr_skip := 0; dr_limit := 20 |} _ _).
  - reflexivity.
  - by left.
Defined.

(** X9. The generator has no bound of its own on the number of pages: on
    a network that always announces more than was read, it has not finished
    after any number of turns of its loop, having requested the offsets
    [0], [limit], [2 * limit], ... and yielded one page per turn.  With
    [limit = 0] the offset never moves, and a server that keeps answering
    the request for offset 0 with products keeps the loop going. *)
Theorem fetchAllProducts_has_no_page_bound (fetch : Fetch DummyResponse) (limit : Z) :
  alwaysMore fetch limit →
  ∀ fuel,
    (fetchAllProducts fetch fuel limit world0).1 = OutOfFuel
    ∧ requested (trace (fetchAllProducts fetch fuel limit world0).2)
      = map (pageUrl limit) (seq 0 fuel)
    ∧ length (yielded (trace (fetchAllProducts fetch fuel limit world0).2)) = fuel.
Proof.
  intros Hmore fuel. unfold fetchAllProducts, forAwait_fetchAllProducts.
  set (body := fun batch : list DummyProduct => emit (EvYield batch)).
  assert (Hstep : ∀ fuel k w, ∃ page,
            fetchAllProducts_from fetch body (S fuel) limit (Z.of_nat k * limit) w
            = fetchAllProducts_from fetch body fuel limit (Z.of_nat (S k) * limit)
                (after w 1 [EvFetch (pageUrl limit k); EvYield page])).
  { intros fuel' k w.
    destruct (Hmore (clock w) k) as (res & data & x & xs & Hf & Hok & Hjson & Hp & Htotal).
    assert (Hres : attemptResult fetch (clock w) (pageUrl limit k) = Ok data).
    { unfold attemptResult. by rewrite Hf, Hok. }
    exists (x :: xs). cbn [fetchAllProducts_from]. unfold bind at 1.
    unfold fetchWithRetry_default, fetchWithRetry. fold (pageUrl limit k).
    rewrite (fetchAttempts_success _ _ _ _ _ _ _ _ Hres), Hp.
    unfold bind, body, emit. cbn [fst snd clock trace after].
    destruct (Z.geb_spec (Z.of_nat k * limit + limit) (dr_total data)) as [Hge | _]; [lia |].
    replace (Z.of_nat k * limit + limit)%Z with (Z.of_nat (S k) * limit)%Z by lia.
    by rewrite <- app_assoc. }
  assert (Hloop : ∀ fuel k w,
            (fetchAllProducts_from fetch body fuel limit (Z.of_nat k * limit) w).1 = OutOfFuel
            ∧ requested (trace (fetchAllProducts_from fetch body fuel limit
                                  (Z.of_nat k * limit) w).2)
              = requested (trace w) ++ map (pageUrl limit) (seq k fuel)
            ∧ length (yielded (trace (fetchAllProducts_from fetch body fuel limit
                                        (Z.of_nat k * limit) w).2))
              = length (yielded (trace w)) + fuel).
  { clear fuel. induction fuel as [| fuel IH]; intros k w.
    - simpl. rewrite app_nil_r. split; [done |]. split; [done | lia].
    - destruct (Hstep fuel k w) as [page ->].
      destruct (IH (S k) (after w 1 [EvFetch (pageUrl limit k); EvYield page]))
        as (H1 & H2 & H3).
      split; [exact H1 |]. split.
      + rewrite H2. cbn [after trace]. rewrite requested_app. simpl.
        by rewrite <- app_assoc.
      + rewrite H3. cbn [after trace]. rewrite yielded_app, length_app. simpl. lia. }
  destruct (Hloop fuel 0 world0) as (H1 & H2 & H3).
  change (Z.of_nat 0 * limit)%Z with 0%Z in *.
  split; [exact H1 |]. split; [exact H2 | exact H3].
Qed.

(** The statement for [limit = 0] and a catalogue of one product. *)
Lemma fetchAllProducts_has_no_page_bound_witness :
  alwaysMore onePageServer 0
  ∧ (fetchAllProducts onePageServer 50 0 world0).1 = OutOfFuel
  ∧ requested (trace (fetchAllProducts onePageServer 50 0 world0).2)
    = replicate 50 (productsUrl 0 0).
Proof.
  assert (H : alwaysMore onePageServer 0).
  { intros n k. eexists _, _, _, _. split; [reflexivity |]. split; [reflexivity |].
    split; [reflexivity |]. split; [reflexivity |]. simpl. lia. }
  split; [exact H |].
  destruct (fetchAllProducts_has_no_page_bound onePageServer 0 H 50) as (H1 & H2 & _).
  split; [exact H1 |]. rewrite H2. vm_compute. reflexivity.
Defined.

(** X10. The job never throws: whatever the network, the product module
    and the workflow do, an error that comes up is caught and logged.  The
    first entry of its log says that the sync starts, and when the job
    returns, the last entry either says that the sync completed or is the
    critical error entry for the error that ended the run. *)
Theorem dailyProductSync_never_throws (env : Env) (fuel : nat) :
  let run := dailyProductSync env fuel world0 in
  head (trace run.2) = Some startEntry
  ∧ match run.1 with
    | Returned _ =>
        last (trace run.2) = Some completedEntry
        ∨ ∃ e, last (trace run.2) = Some (criticalEntry e)
    | Thrown _ => False
    | OutOfFuel => True
    end.
Proof.
  intros run. subst run. split; [| apply dailyProductSync_outcome].
  destruct (dailyProductSync_starts env fuel world0) as [evs ->]. done.
Qed.

(** X11. When both attempts to fetch the first page fail, the job makes
    these two requests one second apart, logs the error of the second one
    as critical and returns: the product module is not asked anything and
    no workflow is run. *)
Theorem dailyProductSync_logs_a_failed_first_page
    (env : Env) (fuel : nat) (e0 e : Error) :
  attemptResult (env_fetch env) 0 (pageUrl 20 0) = Throw e0 →
  attemptResult (env_fetch env) 1 (pageUrl 20 0) = Throw e →
  dailyProductSync env (S fuel) world0
  = (Returned tt,
     {| clock := 2;
        trace := [startEntry; EvFetch (pageUrl 20 0); EvSleep 1000;
                  EvFetch (pageUrl 20 0); criticalEntry e] |}).
Proof.
  intros H0 H1. rewrite dailyProductSync_cases.
  unfold forAwait_fetchAllProducts. cbn [fetchAllProducts_from]. unfold bind at 1.
  unfold fetchWithRetry_default, fetchWithRetry.
  change (productsUrl 20 0) with (pageUrl 20 0).
  rewrite (fetchAttempts_retry (env_fetch env) (pageUrl 20 0) 2 1000 1 0
             (logged world0 startEntry) e0 H0) by (simpl; lia).
  rewrite (fetchAttempts_give_up (env_fetch env) (pageUrl 20 0) 2 1000 0 1
             (after (logged world0 startEntry) 1 [EvFetch (pageUrl 20 0); EvSleep (1000 * 2 ^ Z.of_nat 0)])
             e H1) by done.
  reflexivity.
Qed.

(** The statement on a network that is down. *)
Lemma dailyProductSync_logs_a_failed_first_page_witness :
  listed (trace (dailyProductSync networkDown 3 world0).2) = []
  ∧ ran (trace (dailyProductSync networkDown 3 world0).2) = []
  ∧ last (trace (dailyProductSync networkDown 3 world0).2)
    = Some (criticalEntry (mkError "network down")).
Proof.
  rewrite (dailyProductSync_logs_a_failed_first_page networkDown 2
             (mkError "network down") (mkError "network down") eq_refl eq_refl).
  repeat split.
Defined.

(** X12. The manual run of the job logs its start first and, when the job
    returns, its completion last; it cannot throw, because the job
    cannot. *)
Theorem testSync_reaches_its_last_entry (env : Env) (fuel : nat) :
  let run := testSync env fuel world0 in
  head (trace run.2) = Some (EvLogInfo "Starting manual test of daily product sync...")
  ∧ match run.1 with
    | Returned _ => last (trace run.2) = Some (EvLogInfo "Manual test completed.")
    | Thrown _ => False
    | OutOfFuel => True
    end.
Proof.
  intros run. subst run. unfold testSync, logInfo.
  unfold bind at 1 3 5. cbn [emit]. unfold bind.
  set (w1 := {| clock := clock world0;
                trace := trace world0 ++ [EvLogInfo "Starting manual test of daily product sync..."] |}).
  pose proof (dailyProductSync_outcome env fuel w1) as Hout.
  destruct (dailyProductSync_starts env fuel w1) as [evs Hevs].
  destruct (dailyProductSync env fuel w1) as [[[] | e |] w2]; cbn [fst snd] in *.
  - cbn [emit snd fst trace]. rewrite Hevs. split; [done | apply last_snoc].
  - done.
  - rewrite Hevs. done.
Qed.

End Edges.

(** ** The steps of the batch workflow *)

Module StepFacts.
Import Js Model BatchProducts JsFacts DedupFacts LinkFacts.

(** *** The brand map *)

(** What a lookup finds after the rows [brands] have been entered: the id
    of a row with that name, or what was there before when no row has the
    name. *)
Lemma recordBrands_lookup brands : ∀ (brandMap : gmap string string) n,
  (∃ b, b ∈ brands ∧ b_name b = n ∧ recordBrands brandMap brands !! n = Some (b_id b))
  ∨ ((∀ b, b ∈ brands → b_name b ≠ n) ∧ recordBrands brandMap brands !! n = brandMap !! n).
Proof.
  induction brands as [| b brands IH]; intros brandMap n.
  - right. split; [| done]. by intros b ?%elem_of_nil.
  - unfold recordBrands in *. cbn [foldl].
    destruct (IH (<[b_name b := b_id b]> brandMap) n) as [(b' & Hin & Hname & Hl) | [Hnone Hl]].
    + left. exists b'. split; [by apply list_elem_of_further | done].
    + destruct (decide (b_name b = n)) as [Heq | Hne].
      * left. exists b. split; [apply list_elem_of_here |]. split; [done |].
        rewrite Hl, <- Heq. apply lookup_insert_eq.
      * right. split.
        -- intros b' [-> | Hin]%elem_of_cons; [done | by apply Hnone].
        -- rewrite Hl. by apply lookup_insert_ne.
Qed.

Lemma brandsToCreate_nil_known brandMap names n :
  brandsToCreate brandMap names = [] → n ∈ names →
  truthy_opt (brandMap !! n) = true.
Proof.
  intros Hnil Hn. destruct (truthy_opt (brandMap !! n)) eqn:E; [done |].
  assert (Hin : n ∈ brandsToCreate brandMap names) by (by apply brandsToCreate_elem).
  rewrite Hnil in Hin. by apply elem_of_nil in Hin.
Qed.

Lemma truthy_opt_Some o : truthy_opt o = true → ∃ id, o = Some id ∧ truthy id = true.
Proof. destruct o as [id |]; [by exists id | done]. Qed.

Lemma length_pos_cons {A} (l : list A) : (0 <? length l) = true → ∃ x l', l = x :: l'.
Proof. destruct l as [| x l']; [done | by exists x, l']. Qed.

(** *** The category map *)

Section Plan.
Context (handleMap : gmap string Category).

(** What the loop over the unique names leaves in the category map. *)
Lemma planCategories_lookup names : ∀ (categoryMap : gmap string string) queue n,
  (foldl (planCategory handleMap) (categoryMap, queue) names).1 !! n
  = match (if decide (n ∈ names) then handleMap !! nameToHandle n else None) with
    | Some c => Some (c_id c)
    | None => categoryMap !! n
    end.
Proof.
  induction names as [| x names IH]; intros categoryMap queue n.
  - cbn [foldl fst]. by destruct (decide (n ∈ [])) as [?%elem_of_nil |].
  - cbn [foldl]. unfold planCategory at 2. cbn [fst snd].
    destruct (handleMap !! nameToHandle x) as [c |] eqn:Hx.
    + rewrite IH.
      destruct (decide (n ∈ names)) as [Hin | Hout].
      * rewrite decide_True by (by apply list_elem_of_further).
        destruct (handleMap !! nameToHandle n) eqn:Hn; [done |].
        destruct (decide (x = n)) as [-> | Hne]; [congruence |].
        by rewrite lookup_insert_ne.
      * destruct (decide (x = n)) as [-> | Hne].
        -- rewrite decide_True by apply list_elem_of_here.
           rewrite Hx. apply lookup_insert_eq.
        -- rewrite decide_False by (intros [? | ?]%elem_of_cons; congruence).
           by rewrite lookup_insert_ne.
    + rewrite IH.
      destruct (decide (n ∈ names)) as [Hin | Hout].
      * by rewrite decide_True by (by apply list_elem_of_further).
      * destruct (decide (x = n)) as [-> | Hne].
        -- rewrite decide_True by apply list_elem_of_here. by rewrite Hx.
        -- by rewrite decide_False by (intros [? | ?]%elem_of_cons; congruence).
Qed.

End Plan.

(** Among names with pairwise different handles, the name found for a
    handle is the name that has it. *)
Lemma find_by_handle names n :
  NoDup (map nameToHandle names) → n ∈ names →
  find (fun u => String.eqb (nameToHandle u) (nameToHandle n)) names = Some n.
Proof.
  induction names as [| x names IH]; intros Hnd Hin; [by apply elem_of_nil in Hin |].
  cbn [map] in Hnd. apply NoDup_cons in Hnd as [Hx Hnd]. cbn [find].
  destruct (String.eqb_spec (nameToHandle x) (nameToHandle n)) as [Heq | Hne].
  - apply elem_of_cons in Hin as [-> | Hin]; [done |].
    exfalso. apply Hx. rewrite Heq. by apply list_elem_of_fmap_2.
  - apply elem_of_cons in Hin as [-> | Hin]; [done | by apply IH].
Qed.

Section Record.
Context (names : list string) (n : string).
Context (Hnd : NoDup (map nameToHandle names)) (Hin : n ∈ names) (Hn : truthy n = true).

Lemma recordCategory_same_handle categoryMap c :
  c_handle c = nameToHandle n →
  recordCategory names categoryMap c !! n = Some (c_id c).
Proof.
  intros Hh. unfold recordCategory. rewrite Hh, (find_by_handle _ _ Hnd Hin), Hn.
  apply lookup_insert_eq.
Qed.

Lemma recordCategory_other_handle categoryMap c :
  c_handle c ≠ nameToHandle n →
  recordCategory names categoryMap c !! n = categoryMap !! n.
Proof.
  intros Hh. unfold recordCategory.
  destruct (find _ names) as [original |] eqn:Hfind; [| done].
  apply find_some in Hfind as [_ Heq%String.eqb_eq].
  destruct (truthy original); [| done].
  apply lookup_insert_ne. intros ->. done.
Qed.

(** What a lookup finds after the categories [cs] have been entered. *)
Lemma recordCategories_lookup cs : ∀ categoryMap : gmap string string,
  (∃ c, c ∈ cs ∧ c_handle c = nameToHandle n
        ∧ recordCategories names categoryMap cs !! n = Some (c_id c))
  ∨ ((∀ c, c ∈ cs → c_handle c ≠ nameToHandle n)
     ∧ recordCategories names categoryMap cs !! n = categoryMap !! n).
Proof.
  induction cs as [| c cs IH]; intros categoryMap.
  - right. split; [| done]. by intros c ?%elem_of_nil.
  - unfold recordCategories in *. cbn [foldl].
    destruct (IH (recordCategory names categoryMap c)) as [(c' & Hc' & Hh & Hl) | [Hnone Hl]].
    + left. exists c'. split; [by apply list_elem_of_further | done].
    + destruct (decide (c_handle c = nameToHandle n)) as [Heq | Hne].
      * left. exists c. split; [apply list_elem_of_here |]. split; [done |].
        rewrite Hl. by apply recordCategory_same_handle.
      * right. split.
        -- intros c' [-> | Hc']%elem_of_cons; [done | by apply Hnone].
        -- rewrite Hl. by apply recordCategory_other_handle.
Qed.

End Record.

(** *** The update step *)

Lemma updateAll_calls svc categoryMap updates :
  (updateAll svc categoryMap updates).1
  = map (fun u => UpdateProducts (u_id u) (toUpdateData categoryMap u)) updates.
Proof.
  induction updates as [| u updates IH]; [done |]. simpl.
  destruct (updateAll svc categoryMap updates) as [calls results]. simpl in *. by rewrite IH.
Qed.



(** *** The link step *)

Lemma pushLinks_products `{SyncInput A} (brandMap : gmap string string) (inputItems : list A)
    products : ∀ links,
  ∃ added,
    pushLinks brandMap inputItems links products = links ++ added
    ∧ length added ≤ length products
    ∧ Forall (fun l => ∃ p, p ∈ products ∧ dto_id p = l_product_id l) added.
Proof.
  induction products as [| p products IH]; intros links.
  - exists []. by rewrite app_nil_r.
  - unfold pushLinks in *. cbn [foldl].
    set (links' := match getBrandId brandMap inputItems p with
                   | Some brandId =>
                       if truthy brandId
                       then links ++ [ {| l_product_id := dto_id p; l_brand_id := brandId |} ]
                       else links
                   | None => links
                   end).
    destruct (IH links') as (added & -> & Hlen & Hall).
    assert (Hfurther : Forall (fun l => ∃ p0, p0 ∈ p :: products ∧ dto_id p0 = l_product_id l) added).
    { eapply Forall_impl; [exact Hall |]. intros l (p0 & Hp0 & Hid).
      exists p0. split; [by apply list_elem_of_further | done]. }
    subst links'. destruct (getBrandId brandMap inputItems p) as [brandId |].
    + destruct (truthy brandId).
      * eexists (_ :: added). rewrite <- app_assoc. split; [done |]. split; [simpl; lia |].
        constructor; [| exact Hfurther]. exists p. split; [apply list_elem_of_here | done].
      * exists added. split; [done |]. split; [simpl; lia | exact Hfurther].
    + exists added. split; [done |]. split; [simpl; lia | exact Hfurther].
Qed.

Lemma pushLinks_no_brands `{SyncInput A} (inputItems : list A) products : ∀ links,
  pushLinks ∅ inputItems links products = links.
Proof.
  induction products as [| p products IH]; intros links; [done |].
  unfold pushLinks in *. cbn [foldl].
  assert (Hnone : getBrandId ∅ inputItems p = None).
  { unfold getBrandId. destruct (find _ inputItems) as [item |]; [| done].
    destruct (input_brandName item) as [name |]; [| done].
    destruct (truthy name); [apply lookup_empty | done]. }
  rewrite Hnone. apply IH.
Qed.

(** *** The product side of the ledger *)

Lemma deletedProducts_app a b :
  deletedProducts (a ++ b) = deletedProducts a ++ deletedProducts b.
Proof. apply omap_app. Qed.

Lemma productRowsCreated_app svc a b :
  productRowsCreated svc (a ++ b) = productRowsCreated svc a ++ productRowsCreated svc b.
Proof. apply flat_map_app. Qed.

Lemma ProductQuiet_nil svc : ProductQuiet svc [].
Proof. by split. Qed.

Lemma ProductQuiet_app svc a b :
  ProductQuiet svc a → ProductQuiet svc b → ProductQuiet svc (a ++ b).
Proof.
  intros [Ha1 Ha2] [Hb1 Hb2]. unfold ProductQuiet.
  by rewrite deletedProducts_app, productRowsCreated_app, Ha1, Ha2, Hb1, Hb2.
Qed.

Lemma manageBrandsStep_productQuiet svc brandNames :
  ProductQuiet svc (manageBrandsStep svc brandNames).1.
Proof.
  unfold manageBrandsStep. destruct (length brandNames =? 0); [apply ProductQuiet_nil |].
  unfold bind, call, ret.
  destruct (listBrands svc _) as [existing | e]; [| by split].
  destruct (0 <? length _); [| by split].
  destruct (createBrands svc _); by split.
Qed.

Lemma manageCategoriesStep_productQuiet svc categoryNames :
  ProductQuiet svc (manageCategoriesStep svc categoryNames).1.
Proof.
  unfold manageCategoriesStep. destruct (length categoryNames =? 0); [apply ProductQuiet_nil |].
  unfold bind at 1. unfold call at 1.
  destruct (listProductCategories svc 0 _) as [existing | e]; [| by split].
  destruct (planCategories _ _) as [categoryMap toCreate].
  destruct (0 <? length toCreate); [| by split].
  unfold tryCatch, bind, call, ret.
  destruct (createProductCategories svc toCreate) as [rows | e]; [by split |].
  destruct (listProductCategories svc 1 _); by split.
Qed.

Lemma updateProductsStep_productQuiet svc updates categoryMap :
  ProductQuiet svc (updateProductsStep svc updates categoryMap).1.
Proof.
  unfold updateProductsStep. destruct (length updates =? 0); [apply ProductQuiet_nil |].
  unfold bind, ret. pose proof (updateAll_calls svc categoryMap updates) as Hcalls.
  destruct (updateAll svc categoryMap updates) as [calls [results | e]]; cbn [fst] in *;
    rewrite ?app_nil_r, Hcalls; clear; (induction updates as [| u updates IH]; [by split |]);
    apply (ProductQuiet_app svc [_]); [by split | exact IH | by split | exact IH].
Qed.

Lemma linkProductBrandsStep_productQuiet P B svc created updated brandMap inCreate inUpdate :
  ProductQuiet svc
    (linkProductBrandsStep P B svc created updated brandMap inCreate inUpdate).1.
Proof.
  unfold linkProductBrandsStep.
  destruct (uniqueLinksOf _ _ _) as [us |]; [| apply ProductQuiet_nil].
  destruct (0 <? length us); [| apply ProductQuiet_nil].
  unfold bind, tryCatch, call, ret.
  destruct (linkDismiss svc us), (linkCreate svc us); by split.
Qed.

Lemma compensate_productQuiet svc ids :
  ProductQuiet svc (manageBrandsStep_compensate ids)
  ∧ ProductQuiet svc (manageCategoriesStep_compensate ids).
Proof. destruct ids as [[| ? ?] |]; by repeat split. Qed.

(** A quiet step with a quiet compensation, before a quiet rest. *)
Lemma andThen_productQuiet {O C R} svc (step : Step (StepResponse O C))
    (compensate : option C → list Call) (rest : O → list Call * Js.Result R) :
  ProductQuiet svc step.1 →
  (∀ x, ProductQuiet svc (compensate x)) →
  (∀ o, ProductQuiet svc (rest o).1) →
  ProductQuiet svc (andThen step compensate rest).1.
Proof.
  intros Hs Hc Hr. unfold andThen.
  destruct step as [calls [s | e]]; cbn [fst] in *.
  - specialize (Hr (output s)). destruct (rest (output s)) as [calls' [r | e]]; cbn [fst] in *.
    + by apply ProductQuiet_app.
    + apply ProductQuiet_app; [done |]. by apply ProductQuiet_app.
  - by apply ProductQuiet_app.
Qed.

(** A quiet step with a quiet compensation, before a rest that keeps the
    ledger. *)
Lemma andThen_keeps_ledger {O C R} svc (step : Step (StepResponse O C))
    (compensate : option C → list Call) (rest : O → list Call * Js.Result R) :
  ProductQuiet svc step.1 →
  (∀ x, ProductQuiet svc (compensate x)) →
  (∀ o, ProductLedger svc (rest o)) →
  ProductLedger svc (andThen step compensate rest).
Proof.
  intros [Hs1 Hs2] Hc Hr. unfold andThen, ProductLedger in *.
  destruct step as [calls [s | e]]; cbn [fst snd] in *.
  - specialize (Hr (output s)). destruct (Hc (Some (compensateInput s))) as [Hc1 Hc2].
    destruct (rest (output s)) as [calls' [r | e]]; cbn [fst snd] in *.
    + by rewrite deletedProducts_app, Hs1, Hr.
    + rewrite !deletedProducts_app, !productRowsCreated_app, Hs1, Hs2, Hc1, Hc2.
      simpl. by rewrite !app_nil_r.
  - destruct (Hc None) as [Hc1 Hc2].
    by rewrite deletedProducts_app, productRowsCreated_app, Hs1, Hs2, Hc1, Hc2.
Qed.

(** The create step, before a quiet rest. *)
Lemma createProductsStep_ledger {R} svc products categoryMap
    (rest : list ProductDTO → list Call * Js.Result R) :
  (∀ o, ProductQuiet svc (rest o).1) →
  ProductLedger svc
    (andThen (createProductsStep svc products categoryMap) createProductsStep_compensate rest).
Proof.
  intros Hr. unfold createProductsStep.
  destruct (length products =? 0).
  - unfold andThen, ret, ProductLedger. cbn [output compensateInput].
    destruct (Hr []) as [Hr1 Hr2].
    destruct (rest []) as [calls' [r | e]]; cbn [fst snd] in *; [done |].
    cbn [createProductsStep_compensate app]. by rewrite app_nil_r, Hr1, Hr2.
  - unfold bind, call, ret, andThen, ProductLedger.
    destruct (createProducts svc _) as [created | e] eqn:Hcreate; cbn [fst snd output compensateInput].
    + destruct (Hr created) as [Hr1 Hr2].
      destruct (rest created) as [calls' [r | e]]; cbn [fst snd] in *.
      * rewrite app_nil_r. by rewrite deletedProducts_app, Hr1.
      * rewrite app_nil_r, !deletedProducts_app, !productRowsCreated_app, Hr1, Hr2.
        cbn [deletedProducts omap list_omap productRowsCreated flat_map productRowsOf app].
        rewrite Hcreate, !app_nil_r.
        destruct created as [| p created]; [done |]. simpl. by rewrite !app_nil_r.
    + cbn [createProductsStep_compensate app]. simpl. by rewrite Hcreate.
Qed.

(** *** A batch that names no brand and no category *)

Lemma categoryIdOf_empty categoryName : categoryIdOf ∅ categoryName = None.
Proof.
  unfold categoryIdOf. destruct categoryName as [name |]; [| done].
  destruct (truthy name); [by rewrite lookup_empty | done].
Qed.

Lemma createProductsStep_withoutCategories svc products :
  Forall withoutCategories (createProductsStep svc products ∅).1.
Proof.
  unfold createProductsStep. destruct (length products =? 0); [constructor |].
  unfold bind, call, ret.
  assert (Hdtos : Forall (fun dto => cp_category_ids dto = [])
                         (map (toCreateDTO ∅) products)).
  { apply Forall_fmap, Forall_forall. intros p _. simpl. by rewrite categoryIdOf_empty. }
  destruct (createProducts svc _); cbn [fst app]; by apply Forall_cons_2.
Qed.

Lemma updateProductsStep_withoutCategories svc updates :
  Forall withoutCategories (updateProductsStep svc updates ∅).1.
Proof.
  unfold updateProductsStep. destruct (length updates =? 0); [constructor |].
  unfold bind, ret. pose proof (updateAll_calls svc ∅ updates) as Hcalls.
  assert (Hall : Forall withoutCategories
                   (map (fun u => UpdateProducts (u_id u) (toUpdateData ∅ u)) updates)).
  { apply Forall_fmap, Forall_forall. intros u _. simpl. by rewrite categoryIdOf_empty. }
  destruct (updateAll svc ∅ updates) as [calls [results | e]]; cbn [fst] in *;
    rewrite ?app_nil_r, Hcalls; exact Hall.
Qed.

Lemma linkProductBrandsStep_no_brands P B svc created updated inCreate inUpdate :
  linkProductBrandsStep P B svc created updated ∅ inCreate inUpdate
  = ([], Ok (Build_StepResponse [] [])).
Proof.
  unfold linkProductBrandsStep. by rewrite !pushLinks_no_brands.
Qed.

(** A step that made no call and has nothing to compensate. *)
Lemma andThen_skipped {O R} (compensate : option (list string) → list Call)
    (o : O) (rest : O → list Call * Js.Result R) :
  compensate (Some []) = [] →
  andThen (ret (Build_StepResponse o [])) compensate rest = rest o.
Proof.
  intros Hc. unfold andThen, ret. cbn [output compensateInput].
  destruct (rest o) as [calls [r | e]]; [done |]. by rewrite Hc, app_nil_r.
Qed.

Lemma andThen_forall {O C R} (P : Call → Prop) (step : Step (StepResponse O C))
    (compensate : option C → list Call) (rest : O → list Call * Js.Result R) :
  Forall P step.1 →
  (∀ x, Forall P (compensate x)) →
  (∀ o, Forall P (rest o).1) →
  Forall P (andThen step compensate rest).1.
Proof.
  intros Hs Hc Hr. unfold andThen.
  destruct step as [calls [s | e]]; cbn [fst] in *.
  - specialize (Hr (output s)). destruct (rest (output s)) as [calls' [r | e]]; cbn [fst] in *.
    + by apply Forall_app.
    + apply Forall_app. split; [done |]. by apply Forall_app.
  - by apply Forall_app.
Qed.

End StepFacts.

Module Steps.
Import Js Model BatchProducts JsFacts DedupFacts LinkFacts StepFacts Samples.

(** X13. The brand step asks the brand module to create brands at most
    once in a run, never with an empty list, never with a name twice, and
    only for names of its input for which the listing gave no brand with an
    id.  With no names at all it makes no call and returns the empty map. *)
Theorem manageBrandsStep_creates_each_missing_brand_once
    (svc : Services) (brandNames : list string) :
  let run := manageBrandsStep svc brandNames in
  (brandNames = [] → run = ([], Ok (Build_StepResponse ∅ [])))
  ∧ length (brandsRequested run.1) ≤ 1
  ∧ Forall (fun names =>
              names ≠ [] ∧ NoDup names
              ∧ ∃ existing,
                  listBrands svc (unique brandNames) = Ok existing
                  ∧ ∀ n, n ∈ names →
                      n ∈ brandNames ∧ truthy_opt (recordBrands ∅ existing !! n) = false)
           (brandsRequested run.1).
Proof.
  intros run. subst run. split; [by intros -> |].
  unfold manageBrandsStep. destruct (length brandNames =? 0); [split; [simpl; lia | constructor] |].
  unfold bind, call, ret.
  destruct (listBrands svc (unique brandNames)) as [existing | e] eqn:Hlist;
    [| split; [simpl; lia | constructor]].
  destruct (0 <? length _) eqn:Hlen; [| split; [simpl; lia | constructor]].
  destruct (brandsToCreate_deduplicated (recordBrands ∅ existing) brandNames) as [Hnd Hin].
  apply length_pos_cons in Hlen as (x & rest & Hcons).
  assert (Hone : Forall (fun names =>
              names ≠ [] ∧ NoDup names
              ∧ ∃ existing0,
                  Ok existing = Ok existing0
                  ∧ ∀ n, n ∈ names →
                      n ∈ brandNames ∧ truthy_opt (recordBrands ∅ existing0 !! n) = false)
            [brandsToCreate (recordBrands ∅ existing) (unique brandNames)]).
  { apply Forall_cons_2; [| constructor]. split; [by rewrite Hcons |].
    split; [exact Hnd |]. by exists existing. }
  destruct (createBrands svc _); (split; [simpl; lia | exact Hone]).
Qed.

(** X14. When the brand module answers the listing, and answers the
    creation request with a row with an id for every name requested, the
    map that the brand step returns gives every name of its input the id of
    a brand with that name, listed or created.  (Names that an object
    literal inherits are left out, see [Object_prototype_keys].) *)
Theorem manageBrandsStep_gives_every_name_an_id
    (svc : Services) (brandNames : list string) (existing created : list Brand) :
  let toCreate := brandsToCreate (recordBrands ∅ existing) (unique brandNames) in
  Forall plainKey brandNames →
  listBrands svc (unique brandNames) = Ok existing →
  createBrands svc toCreate = Ok created →
  Forall (fun n => Exists (fun b => b_name b = n) created) toCreate →
  Forall (fun b => truthy (b_id b) = true) created →
  ∃ s, (manageBrandsStep svc brandNames).2 = Ok s
     ∧ ∀ n, n ∈ brandNames →
         ∃ b, b ∈ existing ++ created ∧ b_name b = n ∧ truthy (b_id b) = true
              ∧ output s !! n = Some (b_id b).
Proof.
  intros toCreate _ Hlist Hcreate Hrows Hids.
  unfold manageBrandsStep. destruct (length brandNames =? 0) eqn:Hlen.
  { eexists. split; [reflexivity |]. intros n Hn.
    apply Nat.eqb_eq, length_zero_iff_nil in Hlen. subst brandNames.
    by apply elem_of_nil in Hn. }
  unfold bind, call, ret. rewrite Hlist. fold toCreate.
  (* a name the listing knows, with its id *)
  assert (Hknown : ∀ n, truthy_opt (recordBrands ∅ existing !! n) = true →
            ∃ b, b ∈ existing ∧ b_name b = n ∧ truthy (b_id b) = true
                 ∧ recordBrands ∅ existing !! n = Some (b_id b)).
  { intros n (id & Hid & Htruthy)%truthy_opt_Some.
    destruct (recordBrands_lookup existing ∅ n) as [(b & Hb & Hname & Hl) | [_ Hl]].
    - exists b. rewrite Hl in Hid. injection Hid as <-. done.
    - rewrite Hl, lookup_empty in Hid. done. }
  destruct (0 <? length toCreate) eqn:Hpos.
  - rewrite Hcreate. eexists. split; [reflexivity |]. cbn [output].
    intros n Hn.
    destruct (recordBrands_lookup created (recordBrands ∅ existing) n)
      as [(b & Hb & Hname & Hl) | [Hnone Hl]].
    + exists b. split; [apply elem_of_app; by right |]. split; [done |].
      split; [| done]. by apply (proj1 (Forall_forall _ _) Hids).
    + assert (Hout : n ∉ toCreate).
      { intros Hin. apply (proj1 (Forall_forall _ _) Hrows) in Hin.
        apply Exists_exists in Hin as (b & Hb & Hname). by apply (Hnone b). }
      destruct (truthy_opt (recordBrands ∅ existing !! n)) eqn:Ht.
      * destruct (Hknown n Ht) as (b & Hb & Hname & Htruthy & Hlook).
        exists b. split; [apply elem_of_app; by left |]. by rewrite Hl.
      * exfalso. apply Hout. apply brandsToCreate_elem. split; [| done].
        by apply (proj2 (unique_elem _ _)).
  - eexists. split; [reflexivity |]. cbn [output]. intros n Hn.
    assert (Hnil : toCreate = []) by (by destruct toCreate).
    assert (Ht : truthy_opt (recordBrands ∅ existing !! n) = true).
    { apply (brandsToCreate_nil_known _ (unique brandNames)); [exact Hnil |].
      by apply (proj2 (unique_elem _ _)). }
    destruct (Hknown n Ht) as (b & Hb & Hname & Htruthy & Hlook).
    exists b. split; [apply elem_of_app; by left | done].
Qed.

(** The statement at three names, one of them twice and one of them
    known to the brand module. *)
Lemma manageBrandsStep_gives_every_name_an_id_witness :
  ∃ s, (manageBrandsStep sampleServices ["Acme"; "Zed"; "Acme"; "Nivea"]).2 = Ok s
     ∧ ∀ n, n ∈ ["Acme"; "Zed"; "Acme"; "Nivea"] →
         ∃ b, b ∈ [ {| b_id := "brand_1"; b_name := "Acme" |} ]
                  ++ [ {| b_id := "new-Zed"; b_name := "Zed" |};
                       {| b_id := "new-Nivea"; b_name := "Nivea" |} ]
              ∧ b_name b = n ∧ truthy (b_id b) = true
              ∧ output s !! n = Some (b_id b).
Proof.
  refine (manageBrandsStep_gives_every_name_an_id sampleServices
            ["Acme"; "Zed"; "Acme"; "Nivea"] _ _ _ _ _ _ _).
  - apply (bool_decide_unpack _). vm_compute. exact I.
  - reflexivity.
  - reflexivity.
  - apply (bool_decide_unpack _). vm_compute. exact I.
  - apply (bool_decide_unpack _). vm_compute. exact I.
Defined.

(** X15. When the names of its input are not empty and have pairwise
    different handles, and the product module answers the listing and
    answers the creation request with a category for every handle
    requested, the map that the category step returns gives every name the
    id of a category with its handle, listed or created. *)
Theorem manageCategoriesStep_gives_every_name_an_id
    (svc : Services) (categoryNames : list string) (existing created : list Category) :
  let uniqueNames := unique categoryNames in
  let handles := map nameToHandle uniqueNames in
  let handleMap := Map_of (map (fun c => (c_handle c, c)) existing) in
  let toCreate := (planCategories handleMap uniqueNames).2 in
  Forall plainKey categoryNames →
  Forall (fun n => truthy n = true) categoryNames →
  NoDup handles →
  listProductCategories svc 0 handles = Ok existing →
  createProductCategories svc toCreate = Ok created →
  Forall (fun i => Exists (fun c => c_handle c = ci_handle i) created) toCreate →
  ∃ s, (manageCategoriesStep svc categoryNames).2 = Ok s
     ∧ ∀ n, n ∈ categoryNames →
         ∃ c, c ∈ existing ++ created ∧ c_handle c = nameToHandle n
              ∧ output s !! n = Some (c_id c).
Proof.
  intros uniqueNames handles handleMap toCreate _ Hne Hnd Hlist Hcreate Hrows.
  unfold manageCategoriesStep. destruct (length categoryNames =? 0) eqn:Hlen.
  { eexists. split; [reflexivity |]. intros n Hn.
    apply Nat.eqb_eq, length_zero_iff_nil in Hlen. subst categoryNames.
    by apply elem_of_nil in Hn. }
  fold uniqueNames. fold handles. unfold bind at 1. unfold call at 1. rewrite Hlist.
  fold handleMap.
  pose proof (planCategories_lookup handleMap uniqueNames ∅ []) as Hmap.
  pose proof (planCategories_toCreate handleMap categoryNames) as Hqueue.
  fold uniqueNames in Hqueue. fold toCreate in Hqueue.
  subst toCreate. unfold planCategories in *.
  destruct (foldl (planCategory handleMap) (∅, []) uniqueNames) as [categoryMap toCreate].
  cbn [fst snd] in *.
  (* what the plan knows about a name of the input *)
  assert (Hplan : ∀ n, n ∈ categoryNames →
            n ∈ uniqueNames ∧ truthy n = true
            ∧ ((∃ c, c ∈ existing ∧ c_handle c = nameToHandle n
                     ∧ categoryMap !! n = Some (c_id c))
               ∨ {| ci_name := n; ci_handle := nameToHandle n |} ∈ toCreate)).
  { intros n Hn.
    assert (Hu : n ∈ uniqueNames) by (by apply (proj2 (unique_elem _ _))).
    split; [exact Hu |]. split; [by apply (proj1 (Forall_forall _ _) Hne) |].
    specialize (Hmap n). rewrite decide_True in Hmap by done.
    destruct (handleMap !! nameToHandle n) as [c |] eqn:Hh.
    - left. exists c. apply Map_of_lookup_Some in Hh.
      apply list_elem_of_fmap in Hh as (c' & [= Hhandle ->] & Hin). done.
    - right. rewrite Hqueue. apply list_elem_of_fmap. exists n. split; [done |].
      rewrite list_elem_of_In, filter_In, <- list_elem_of_In.
      split; [done | by apply bool_decide_eq_true]. }
  destruct (0 <? length toCreate) eqn:Hpos.
  - unfold tryCatch, bind, call, ret. rewrite Hcreate.
    eexists. split; [reflexivity |]. cbn [output]. intros n Hn.
    destruct (Hplan n Hn) as (Hu & Htruthy & Hcase).
    destruct (recordCategories_lookup uniqueNames n Hnd Hu Htruthy created categoryMap)
      as [(c & Hc & Hh & Hl) | [Hnone Hl]].
    + exists c. split; [apply elem_of_app; by right | done].
    + destruct Hcase as [(c & Hc & Hh & Hlook) | Hin].
      * exists c. split; [apply elem_of_app; by left |]. by rewrite Hl.
      * exfalso. apply (proj1 (Forall_forall _ _) Hrows) in Hin.
        apply Exists_exists in Hin as (c & Hc & Hh). by apply (Hnone c).
  - eexists. split; [reflexivity |]. cbn [output]. intros n Hn.
    destruct (Hplan n Hn) as (Hu & Htruthy & [(c & Hc & Hh & Hlook) | Hin]).
    + exists c. split; [apply elem_of_app; by left | done].
    + destruct toCreate; [by apply elem_of_nil in Hin | done].
Qed.

(** The statement at three names, one of them twice, none of them
    known to the product module. *)
Lemma manageCategoriesStep_gives_every_name_an_id_witness :
  ∃ s, (manageCategoriesStep sampleServices ["beauty"; "Home Decor"; "beauty"]).2 = Ok s
     ∧ ∀ n, n ∈ ["beauty"; "Home Decor"; "beauty"] →
         ∃ c, c ∈ [] ++ [ {| c_id := "new-beauty"; c_name := "beauty"; c_handle := "beauty" |};
                          {| c_id := "new-home-decor"; c_name := "Home Decor";
                             c_handle := "home-decor" |} ]
              ∧ c_handle c = nameToHandle n
              ∧ output s !! n = Some (c_id c).
Proof.
  refine (manageCategoriesStep_gives_every_name_an_id sampleServices
            ["beauty"; "Home Decor"; "beauty"] _ _ _ _ _ _ _ _).
  - apply (bool_decide_unpack _). vm_compute. exact I.
  - apply (bool_decide_unpack _). vm_compute. exact I.
  - apply (bool_decide_unpack _). vm_compute. exact I.
  - reflexivity.
  - reflexivity.
  - apply (bool_decide_unpack _). vm_compute. exact I.
Defined.


(** X17. The link step talks to the link service only when it has links
    to submit, and then it dismisses the deduplicated links before it
    creates them, once each; a failure of either call does not fail the
    step, the failure to create is logged as a warning.  It pushes at most
    one link per product it is given, each for the id of one of these
    products. *)
Theorem linkProductBrandsStep_dismisses_before_it_creates
    (Modules_PRODUCT BRAND_MODULE : string) (svc : Services)
    (createdProducts updatedProducts : list ProductDTO)
    (brandMap : gmap string string)
    (originalCreateInput : list ProductInput) (originalUpdateInput : list UpdateInput) :
  let run := linkProductBrandsStep Modules_PRODUCT BRAND_MODULE svc
               createdProducts updatedProducts brandMap
               originalCreateInput originalUpdateInput in
  let pushed := linksPushed brandMap createdProducts updatedProducts
                  originalCreateInput originalUpdateInput in
  (pushed = [] ∧ run.1 = []
   ∨ ∃ uniqueLinks,
       uniqueLinks ≠ []
       ∧ run.1 = [LinkDismiss uniqueLinks; LinkCreate uniqueLinks]
                 ++ match linkCreate svc uniqueLinks with
                    | Ok _ => []
                    | Throw _ => [linkWarning]
                    end)
  ∧ length pushed ≤ length createdProducts + length updatedProducts
  ∧ Forall (fun l => ∃ p, p ∈ createdProducts ++ updatedProducts ∧ dto_id p = l_product_id l)
           pushed.
Proof.
  intros run pushed. subst run. split.
  - unfold linkProductBrandsStep. fold (linksPushed brandMap createdProducts updatedProducts
                                          originalCreateInput originalUpdateInput). fold pushed.
    destruct (uniqueLinksOf_spec Modules_PRODUCT BRAND_MODULE pushed) as (us & -> & _ & Hsame).
    destruct us as [| l us].
    + left. split; [| done]. destruct pushed as [| l pushed']; [done |].
      exfalso. apply (elem_of_nil l), Hsame, list_elem_of_here.
    + right. exists (l :: us). split; [done |].
      cbn [length Nat.ltb Nat.leb]. unfold bind, tryCatch, call, ret.
      by destruct (linkDismiss svc (l :: us)), (linkCreate svc (l :: us)).
  - subst pushed. unfold linksPushed.
    destruct (pushLinks_products brandMap originalCreateInput createdProducts [])
      as (added1 & -> & Hlen1 & Hall1).
    destruct (pushLinks_products brandMap originalUpdateInput updatedProducts ([] ++ added1))
      as (added2 & -> & Hlen2 & Hall2).
    cbn [app]. split; [rewrite length_app; lia |].
    apply Forall_app. split.
    + eapply Forall_impl; [exact Hall1 |]. intros l (p & Hp & Hid).
      exists p. split; [apply elem_of_app; by left | done].
    + eapply Forall_impl; [exact Hall2 |]. intros l (p & Hp & Hid).
      exists p. split; [apply elem_of_app; by right | done].
Qed.

(** X18. In a run of the batch workflow the product module is asked to
    delete products only when the run fails, and then it is handed exactly
    the ids of the products that [createProducts] returned in this run. *)
Theorem compensation_deletes_created_products
    (Modules_PRODUCT BRAND_MODULE : string) (svc : Services) (input : BatchWorkflowInput) :
  let run := batchProductsWorkflow Modules_PRODUCT BRAND_MODULE svc input in
  match run.2 with
  | Ok _ => deletedProducts run.1 = []
  | Throw _ =>
      concat (deletedProducts run.1) = map dto_id (productRowsCreated svc run.1)
  end.
Proof.
  intros run. subst run. change (ProductLedger svc
    (batchProductsWorkflow Modules_PRODUCT BRAND_MODULE svc input)).
  unfold batchProductsWorkflow.
  apply andThen_keeps_ledger;
    [apply manageBrandsStep_productQuiet | apply compensate_productQuiet |].
  intros brandMap.
  apply andThen_keeps_ledger;
    [apply manageCategoriesStep_productQuiet | apply compensate_productQuiet |].
  intros categoryMap.
  apply createProductsStep_ledger. intros createdProducts.
  apply andThen_productQuiet; [apply updateProductsStep_productQuiet | by split |].
  intros updatedProducts.
  apply andThen_productQuiet; [apply linkProductBrandsStep_productQuiet | by split |].
  intros _. apply ProductQuiet_nil.
Qed.

(** X19. A batch whose entries name no brand and no category makes no
    call to the brand module, to the category service or to the link
    service: every call of the run goes to the product module for products,
    and none of them carries a category id. *)
Theorem batchProductsWorkflow_without_names_calls_products_only
    (Modules_PRODUCT BRAND_MODULE : string) (svc : Services) (input : BatchWorkflowInput) :
  extractBrands input = [] →
  extractCategories input = [] →
  Forall withoutCategories (batchProductsWorkflow Modules_PRODUCT BRAND_MODULE svc input).1.
Proof.
  intros Hbrands Hcategories. unfold batchProductsWorkflow. rewrite Hbrands, Hcategories.
  change (manageBrandsStep svc [])
    with (ret (Build_StepResponse (∅ : gmap string string) ([] : list string))).
  change (manageCategoriesStep svc [])
    with (ret (Build_StepResponse (∅ : gmap string string) ([] : list string))).
  rewrite !andThen_skipped by done.
  apply andThen_forall.
  - apply createProductsStep_withoutCategories.
  - intros [[| id ids] |]; by repeat constructor.
  - intros createdProducts. apply andThen_forall.
    + apply updateProductsStep_withoutCategories.
    + intros ids. constructor.
    + intros updatedProducts. rewrite linkProductBrandsStep_no_brands. constructor.
Qed.

(** The statement at a batch of one entry that names no brand and has
    an empty category name. *)
Lemma batchProductsWorkflow_without_names_witness :
  Forall withoutCategories
    (batchProductsWorkflow "product" "brand" sampleServices
       {| bw_create := [namelessInput "1"]; bw_update := [] |}).1.
Proof.
  exact (batchProductsWorkflow_without_names_calls_products_only
           "product" "brand" sampleServices
           {| bw_create := [namelessInput "1"]; bw_update := [] |} eq_refl eq_refl).
Defined.

End Steps.

(** ** The steps of the single-workflow variant *)

Module SyncProductsFacts.
Import Js Model DailyProductSync BatchProducts SyncProducts JsFacts SplitFacts DedupFacts
       SyncStepFacts StepFacts.

Lemma toString_truthy z : truthy (toString z) = true.
Proof.
  unfold toString. destruct (Z.to_int z) as [d | d]; [| done].
  by destruct d.
Qed.

Lemma dataCreated_app a b : dataCreated (a ++ b) = dataCreated a ++ dataCreated b.
Proof. apply flat_map_app. Qed.

Lemma idsUpdated_app a b : idsUpdated (a ++ b) = idsUpdated a ++ idsUpdated b.
Proof. apply omap_app. Qed.

Lemma length_zero_nil {A} (l : list A) : (0 <? length l) = false → l = [].
Proof. by destruct l. Qed.

Lemma syncUpdateAll_calls pm toUpdate :
  idsUpdated (syncUpdateAll pm toUpdate).1 = map fst toUpdate
  ∧ dataCreated (syncUpdateAll pm toUpdate).1 = [].
Proof.
  induction toUpdate as [| update rest [IH1 IH2]]; [done |]. simpl.
  destruct (syncUpdateAll pm rest) as [calls results]. simpl in *. by rewrite IH1.
Qed.

Lemma createIfAny_calls pm toCreate :
  dataCreated (createIfAny pm toCreate).1 = toCreate
  ∧ idsUpdated (createIfAny pm toCreate).1 = [].
Proof.
  unfold createIfAny. destruct (0 <? length toCreate) eqn:E; simpl.
  - by rewrite app_nil_r.
  - by rewrite (length_zero_nil _ E).
Qed.

Lemma updateIfAny_calls pm toUpdate :
  idsUpdated (updateIfAny pm toUpdate).1 = map fst toUpdate
  ∧ dataCreated (updateIfAny pm toUpdate).1 = [].
Proof.
  unfold updateIfAny. destruct (0 <? length toUpdate) eqn:E.
  - apply syncUpdateAll_calls.
  - by rewrite (length_zero_nil _ E).
Qed.

(** The map from external id to product id agrees with the map from
    external id to stored product that the split uses: both go by the last
    stored product with the external id. *)
Lemma recordExternalId_agrees k e existing : ∀ (m : gmap string string)
    (M : gmap (option string) ProductDTO),
  truthy k = true →
  foldl putEntry M (map (fun p => (dto_external_id p, p)) existing) !! Some k = Some e →
  (M !! Some k = Some e → m !! k = Some (dto_id e)) →
  foldl recordExternalId m existing !! k = Some (dto_id e).
Proof.
  induction existing as [| x existing IH]; intros m M Hk Hlook Hm; [by apply Hm |].
  cbn [map foldl] in *. apply (IH _ _ Hk Hlook).
  unfold putEntry, recordExternalId. cbn [fst snd].
  destruct (dto_external_id x) as [ext |] eqn:Hext.
  - destruct (decide (ext = k)) as [-> | Hne].
    + rewrite lookup_insert_eq, Hk. intros [= ->]. apply lookup_insert_eq.
    + rewrite lookup_insert_ne by congruence. intros HM.
      destruct (truthy ext); [rewrite lookup_insert_ne by done |]; by apply Hm.
  - rewrite lookup_insert_ne by done. exact Hm.
Qed.

(** What a run of the sync step that succeeds has sent and returns. *)
Lemma syncProductsStep_success pm products brandMap existing s :
  pm_listProducts pm (externalIdsOf products) = Ok existing →
  (syncProductsStep pm products brandMap).2 = Ok s →
  ∃ created,
    dataCreated (syncProductsStep pm products brandMap).1
    = (syncSplit brandMap existing products).1
    ∧ idsUpdated (syncProductsStep pm products brandMap).1
      = map fst (syncSplit brandMap existing products).2
    ∧ output s = foldl recordExternalId (foldl recordExternalId ∅ created) existing
    ∧ compensateInput s = map dto_id created.
Proof.
  intros Hlist. unfold syncProductsStep. fold (externalIdsOf products). rewrite Hlist.
  destruct (syncSplit brandMap existing products) as [toCreate toUpdate]. cbn [fst snd].
  destruct (createIfAny_calls pm toCreate) as [Hc1 Hc2].
  destruct (updateIfAny_calls pm toUpdate) as [Hu1 Hu2].
  destruct (createIfAny pm toCreate) as [createCalls [created | e]]; [| discriminate].
  destruct (updateIfAny pm toUpdate) as [updateCalls [[] | e]]; [| discriminate].
  cbn [fst snd] in *. intros [= <-]. exists created. cbn [output compensateInput].
  change (PmListProducts (externalIdsOf products) :: createCalls ++ updateCalls)
    with ([PmListProducts (externalIdsOf products)] ++ createCalls ++ updateCalls).
  rewrite !dataCreated_app, !idsUpdated_app, Hc1, Hc2, Hu1, Hu2. simpl.
  by rewrite app_nil_r.
Qed.

End SyncProductsFacts.

Module SyncProductsSteps.
Import Js Model DailyProductSync BatchProducts SyncProducts JsFacts SplitFacts DedupFacts
       SyncStepFacts StepFacts SyncProductsFacts Samples.

(** X20. A run of the sync step that succeeds has handed to
    [createProducts] the data of exactly the products that no listed
    product carries the external id of, in batch order, and has sent one
    update for every other product; the id that update went to is the id
    that the returned map records for the external id of the product, and
    it is the id of a listed product carrying this external id. *)
Theorem syncProductsStep_returns_the_ids_it_updated
    (pm : ProductModule) (products : list DummyProduct) (brandMap : gmap string string)
    (existing : list ProductDTO) (s : StepResponse (gmap string string) (list string)) :
  pm_listProducts pm (externalIdsOf products) = Ok existing →
  (syncProductsStep pm products brandMap).2 = Ok s →
  let calls := (syncProductsStep pm products brandMap).1 in
  map pd_external_id (dataCreated calls)
  = externalIdsOf (filter (fun p => ¬ Stored existing p) products)
  ∧ Forall2 (fun p id =>
               output s !! toString (dp_id p) = Some id
               ∧ ∃ e, e ∈ existing ∧ dto_external_id e = keyOf p ∧ dto_id e = id)
            (filter (Stored existing) products) (idsUpdated calls).
Proof.
  intros Hlist Hrun calls. subst calls.
  destruct (syncProductsStep_success pm products brandMap existing s Hlist Hrun)
    as (created & -> & -> & Hout & _).
  destruct (syncSplit_partitions_by_external_id brandMap existing products) as [-> Htargets].
  split.
  - unfold externalIdsOf. rewrite map_map. done.
  - rewrite Hout. unfold syncSplit. rewrite foldl_syncRoute. cbn [snd app].
    clear Htargets Hrun Hlist Hout s.
    induction products as [| p products IH]; [constructor |]. cbn [omap list_omap].
    destruct (existingMapOf existing !! keyOf p) as [e |] eqn:HM;
      cbn [fmap option_fmap option_map].
    + rewrite filter_cons_True by (apply existingMap_is_Some; rewrite HM; eauto).
      cbn [map fst]. constructor; [| exact IH]. split.
      * apply (recordExternalId_agrees _ _ _ _ ∅); [apply toString_truthy | exact HM |].
        by rewrite lookup_empty.
      * apply existingMap_Some in HM as [Hin Hext]. by exists e.
    + rewrite filter_cons_False by (by apply existingMap_None). exact IH.
Qed.

(** The statement at a batch of two products, the first of them known to
    the product module. *)
Lemma syncProductsStep_returns_the_ids_it_updated_witness :
  map pd_external_id (dataCreated (syncProductsStep sampleProductModule sampleBatch ∅).1)
  = ["2"]
  ∧ idsUpdated (syncProductsStep sampleProductModule sampleBatch ∅).1 = ["prod_a"].
Proof.
  destruct (syncProductsStep sampleProductModule sampleBatch ∅).2 as [s |] eqn:Hrun;
    [| discriminate Hrun].
  destruct (syncProductsStep_returns_the_ids_it_updated sampleProductModule sampleBatch ∅
              [storedProduct "prod_a" "1"] s eq_refl Hrun) as [Hcreated _].
  split; [rewrite Hcreated; vm_compute; reflexivity | vm_compute; reflexivity].
Defined.



End SyncProductsSteps.

(** ** The export route *)

Module RouteFacts.
Import Js ProductsExport JsFacts.

Lemma written_app a b : written (a ++ b) = written a ++ written b.
Proof. apply omap_app. Qed.

Lemma queried_app a b : queried (a ++ b) = queried a ++ queried b.
Proof. apply omap_app. Qed.

Lemma written_rows (products : list ExportProduct) :
  written (map (fun product => ResWrite (rowOf product +:+ newline)) products)
  = map (fun product => rowOf product +:+ newline) products.
Proof. induction products as [| p products IH]; [done |]. simpl. by rewrite <- IH. Qed.

Lemma queried_rows (products : list ExportProduct) :
  queried (map (fun product => ResWrite (rowOf product +:+ newline)) products) = [].
Proof. induction products as [| p products IH]; [done |]. exact IH. Qed.

Lemma loopOutput_rows (products : list ExportProduct) :
  Forall loopOutput (map (fun product => ResWrite (rowOf product +:+ newline)) products).
Proof. apply Forall_fmap, Forall_forall. by intros p _. Qed.

(** The loop ends within as many turns as products are still wanted; it
    only queries and writes rows; each query takes between 1 and 50
    products. *)
Lemma exportLoop_ends graph : ∀ fuel n requestedLimit currentOffset productsFetched,
  Z.to_nat (requestedLimit - productsFetched) ≤ fuel →
  let run := exportLoop graph fuel n requestedLimit currentOffset productsFetched in
  match run.2 with Unfinished => False | _ => True end
  ∧ Forall loopOutput run.1
  ∧ Forall (fun q => (1 <= q.2 <= BATCH_SIZE)%Z) (queried run.1)
  ∧ length (queried run.1) ≤ Z.to_nat (requestedLimit - productsFetched).
Proof.
  induction fuel as [| fuel IH]; intros n L off f Hfuel run; subst run.
  - cbn [exportLoop]. destruct (Z.ltb_spec f L); [lia |].
    simpl. split; [exact I |]. split; [constructor |]. split; [constructor | lia].
  - cbn [exportLoop]. destruct (Z.ltb_spec f L) as [Hlt | Hge];
      [| simpl; split; [exact I |]; split; [constructor |]; split; [constructor | lia]].
    set (take := Z.min BATCH_SIZE (L - f)).
    assert (Htake : (1 <= take <= BATCH_SIZE)%Z) by (unfold take, BATCH_SIZE; lia).
    assert (Hone : 1 ≤ Z.to_nat (L - f)) by lia.
    destruct (graph n off take) as [[[| p products] |] | r].
    + cbn [fst snd]. change (queried [QueryGraph off take]) with [(off, take)].
      split; [exact I |]. split; [by apply Forall_cons_2; [| constructor] |].
      split; [by apply Forall_cons_2; [| constructor] | simpl; lia].
    + set (page := p :: products).
      destruct (Z.ltb_spec (Z.of_nat (length page)) take) as [Hshort | Hfull].
      * cbn [fst snd]. split; [done |]. split.
        { apply Forall_cons_2; [done | apply loopOutput_rows]. }
        change (QueryGraph off take :: ?rows) with ([QueryGraph off take] ++ rows).
        rewrite queried_app, queried_rows.
        change (queried [QueryGraph off take] ++ []) with [(off, take)].
        split; [by apply Forall_cons_2; [| constructor] | simpl; lia].
      * specialize (IH (S n) L (off + Z.of_nat (length page))%Z
                       (f + Z.of_nat (length page))%Z ltac:(lia)).
        destruct (exportLoop graph fuel (S n) L _ _) as [out e].
        cbn [fst snd] in *. destruct IH as (He & Hout & Hq & Hlen).
        split; [exact He |]. split.
        { apply Forall_cons_2; [done |]. apply Forall_app. split; [apply loopOutput_rows | done]. }
        change (QueryGraph off take :: ?rows ++ out) with ([QueryGraph off take] ++ rows ++ out).
        rewrite !queried_app, queried_rows.
        change (queried [QueryGraph off take] ++ [] ++ queried out)
          with ((off, take) :: queried out).
        split; [by apply Forall_cons_2 | simpl; lia].
    + cbn [fst snd]. change (queried [QueryGraph off take]) with [(off, take)].
      split; [exact I |]. split; [by apply Forall_cons_2; [| constructor] |].
      split; [by apply Forall_cons_2; [| constructor] | simpl; lia].
    + cbn [fst snd]. change (queried [QueryGraph off take]) with [(off, take)].
      split; [exact I |]. split; [by apply Forall_cons_2; [| constructor] |].
      split; [by apply Forall_cons_2; [| constructor] | simpl; lia].
Qed.

(** Against a query service that honours [take], the loop writes at most
    as many rows as are still wanted. *)
Lemma exportLoop_row_bound graph : honoursTake graph →
  ∀ fuel n requestedLimit currentOffset productsFetched,
    length (written (exportLoop graph fuel n requestedLimit currentOffset productsFetched).1)
    ≤ Z.to_nat (requestedLimit - productsFetched).
Proof.
  intros Hgraph. induction fuel as [| fuel IH]; intros n L off f.
  - cbn [exportLoop]. destruct (f <? L)%Z; simpl; lia.
  - cbn [exportLoop]. destruct (Z.ltb_spec f L) as [Hlt | Hge]; [| simpl; lia].
    set (take := Z.min BATCH_SIZE (L - f)).
    destruct (graph n off take) as [[[| p products] |] | r] eqn:Hanswer; try (simpl; lia).
    set (page := p :: products) in *.
    assert (Htake : (0 <= take <= L - f)%Z) by (unfold take, BATCH_SIZE; lia).
    pose proof (Hgraph n off take page ltac:(lia) Hanswer) as Hpage.
    destruct (Z.ltb_spec (Z.of_nat (length page)) take) as [Hshort | Hfull].
    + cbn [fst]. change (QueryGraph off take :: ?rows) with ([QueryGraph off take] ++ rows).
      rewrite written_app, written_rows, length_app, length_map. simpl length at 1. lia.
    + specialize (IH (S n) L (off + Z.of_nat (length page))%Z (f + Z.of_nat (length page))%Z).
      destruct (exportLoop graph fuel (S n) L _ _) as [out e]. cbn [fst] in *.
      change (QueryGraph off take :: ?rows ++ out) with ([QueryGraph off take] ++ rows ++ out).
      rewrite !written_app, written_rows, !length_app, length_map. simpl length at 1. lia.
Qed.

(** Against a query service that serves a fixed list, the loop writes the
    rows of the stretch of the list that is still wanted. *)
Lemma exportLoop_serves graph store : servesFrom graph store →
  ∀ fuel n requestedLimit currentOffset productsFetched,
    (0 <= currentOffset)%Z →
    Z.to_nat (requestedLimit - productsFetched) ≤ fuel →
    written (exportLoop graph fuel n requestedLimit currentOffset productsFetched).1
    = map (fun product => rowOf product +:+ newline)
          (firstn (Z.to_nat (requestedLimit - productsFetched))
                  (skipn (Z.to_nat currentOffset) store)).
Proof.
  intros Hgraph. induction fuel as [| fuel IH]; intros n L off f Hoff Hfuel.
  - cbn [exportLoop]. destruct (Z.ltb_spec f L); [lia |].
    by replace (Z.to_nat (L - f)) with 0 by lia.
  - cbn [exportLoop]. destruct (Z.ltb_spec f L) as [Hlt | Hge];
      [| by replace (Z.to_nat (L - f)) with 0 by lia].
    set (take := Z.min BATCH_SIZE (L - f)).
    assert (Htake : (1 <= take <= L - f)%Z) by (unfold take, BATCH_SIZE; lia).
    rewrite Hgraph. unfold serveStore.
    set (rest := skipn (Z.to_nat off) store).
    pose proof (firstn_le_length (Z.to_nat take) rest) as Hle.
    destruct (firstn (Z.to_nat take) rest) as [| p products] eqn:Hpage.
    + cbn [fst written omap list_omap].
      assert (rest = []) as ->.
      { destruct rest as [| x rest']; [done |].
        destruct (Z.to_nat take) eqn:E; [lia | discriminate Hpage]. }
      by rewrite firstn_nil.
    + rewrite <- Hpage in *. set (page := firstn (Z.to_nat take) rest) in *.
      assert (Hlen : length page = Nat.min (Z.to_nat take) (length rest))
        by apply length_firstn.
      destruct (Z.ltb_spec (Z.of_nat (length page)) take) as [Hshort | Hfull].
      * cbn [fst]. change (QueryGraph off take :: ?rows) with ([QueryGraph off take] ++ rows).
        rewrite written_app, written_rows. cbn [written omap list_omap app]. f_equal.
        assert (Hall : length rest ≤ Z.to_nat take) by lia.
        unfold page. rewrite !firstn_all2 by lia. done.
      * specialize (IH (S n) L (off + Z.of_nat (length page))%Z (f + Z.of_nat (length page))%Z
                       ltac:(lia) ltac:(lia)).
        destruct (exportLoop graph fuel (S n) L _ _) as [out e]. cbn [fst] in *.
        change (QueryGraph off take :: ?rows ++ out) with ([QueryGraph off take] ++ rows ++ out).
        rewrite !written_app, written_rows, IH. cbn [written omap list_omap app].
        rewrite <- map_app. f_equal.
        assert (Hfulllen : length page = Z.to_nat take) by lia.
        replace (Z.to_nat (off + Z.of_nat (length page))) with (Z.to_nat off + Z.to_nat take)
          by lia.
        replace (Z.to_nat (L - (f + Z.of_nat (length page))))
          with (Z.to_nat (L - f) - Z.to_nat take) by lia.
        replace (Z.to_nat (L - f)) with (Z.to_nat take + (Z.to_nat (L - f) - Z.to_nat take))
          at 2 by lia.
        unfold page, rest. rewrite <- drop_drop. apply PageFacts.take_take_drop_add.
Qed.

Lemma last_cons_nonempty {A} (x : A) (l : list A) y : last l = Some y → last (x :: l) = Some y.
Proof. destruct l; [done |]. done. Qed.

Lemma queried_query_rows off take (products : list ExportProduct) out :
  queried (QueryGraph off take
             :: map (fun product => ResWrite (rowOf product +:+ newline)) products ++ out)
  = (off, take) :: queried out.
Proof.
  change (QueryGraph off take :: ?rows ++ out) with ([QueryGraph off take] ++ rows ++ out).
  by rewrite !queried_app, queried_rows.
Qed.

(** A query that rejects is the last one: the loop ends with it, and with
    its error; and the loop fails only when its last query rejects.  The
    queries of the loop are numbered from [n] on. *)
Lemma exportLoop_rejections graph : ∀ fuel n requestedLimit currentOffset productsFetched,
  let run := exportLoop graph fuel n requestedLimit currentOffset productsFetched in
  (∀ i skip take r,
     queried run.1 !! i = Some (skip, take) → graph (n + i) skip take = GraphRaised r →
     S i = length (queried run.1) ∧ run.2 = Failed r
     ∧ last run.1 = Some (QueryGraph skip take))
  ∧ (∀ r, run.2 = Failed r →
       ∃ skip take, last (queried run.1) = Some (skip, take)
         ∧ graph (n + (length (queried run.1) - 1)) skip take = GraphRaised r).
Proof.
  induction fuel as [| fuel IH]; intros n L off f run; subst run; cbn [exportLoop].
  - destruct (f <? L)%Z; (split; [intros i skip take r Hi; done | intros r Hr; done]).
  - destruct (f <? L)%Z; [| split; [intros i skip take r Hi; done | intros r Hr; done]].
    set (take0 := Z.min BATCH_SIZE (L - f)).
    destruct (graph n off take0) as [[[| p products] |] | r0] eqn:Hanswer.
    + cbn [fst snd]. change (queried [QueryGraph off take0]) with [(off, take0)].
      split; [| done]. intros [| i] skip take r Hi Hr; [| done].
      injection Hi as <- <-. rewrite Nat.add_0_r, Hanswer in Hr. done.
    + set (page := p :: products) in *.
      destruct (Z.of_nat (length page) <? take0)%Z.
      * cbn [fst snd]. rewrite <- (app_nil_r (map _ page)), queried_query_rows.
        split; [| done]. intros [| i] skip take r Hi Hr; [| done].
        injection Hi as <- <-. rewrite Nat.add_0_r, Hanswer in Hr. done.
      * specialize (IH (S n) L (off + Z.of_nat (length page))%Z (f + Z.of_nat (length page))%Z).
        destruct (exportLoop graph fuel (S n) L _ _) as [out e]. cbn [fst snd] in *.
        destruct IH as [IHa IHb]. rewrite queried_query_rows. split.
        -- intros [| i] skip take r Hi Hr.
           ++ injection Hi as <- <-. rewrite Nat.add_0_r, Hanswer in Hr. done.
           ++ cbn [lookup list_lookup] in Hi.
              replace (n + S i) with (S n + i) in Hr by lia.
              destruct (IHa i skip take r Hi Hr) as (Hlen & He & Hlast).
              split; [simpl; lia |]. split; [exact He |].
              apply last_cons_nonempty. rewrite last_app, Hlast. done.
        -- intros r Hr. destruct (IHb r Hr) as (skip & take & Hlast & Hg).
           exists skip, take. split; [by apply last_cons_nonempty |].
           destruct (queried out) as [| q qs]; [done |].
           cbn [length] in *. rewrite <- Hg. f_equal. lia.
    + cbn [fst snd]. change (queried [QueryGraph off take0]) with [(off, take0)].
      split; [| done]. intros [| i] skip take r Hi Hr; [| done].
      injection Hi as <- <-. rewrite Nat.add_0_r, Hanswer in Hr. done.
    + cbn [fst snd]. change (queried [QueryGraph off take0]) with [(off, take0)].
      split.
      * intros [| i] skip take r Hi Hr; [| done].
        injection Hi as <- <-. rewrite Nat.add_0_r, Hanswer in Hr. injection Hr as ->.
        done.
      * intros r [= ->]. exists off, take0. split; [done |].
        by rewrite Nat.add_0_r.
Qed.

(** A query service that serves a list does not reject. *)
Lemma exportLoop_never_fails graph store : servesFrom graph store →
  ∀ fuel n requestedLimit currentOffset productsFetched,
    match (exportLoop graph fuel n requestedLimit currentOffset productsFetched).2 with
    | Failed _ => False
    | _ => True
    end.
Proof.
  intros Hgraph. induction fuel as [| fuel IH]; intros n L off f; cbn [exportLoop].
  - by destruct (f <? L)%Z.
  - destruct (f <? L)%Z; [| done]. rewrite Hgraph. unfold serveStore.
    destruct (firstn _ _) as [| p products]; [done |].
    destruct (_ <? _)%Z; [done |].
    specialize (IH (S n) L (off + Z.of_nat (length (p :: products)))%Z
                   (f + Z.of_nat (length (p :: products)))%Z).
    by destruct (exportLoop graph fuel (S n) L _ _) as [out e].
Qed.

End RouteFacts.

Module Route.
Import Js ProductsExport JsFacts RouteFacts Samples.

(** X22. Whatever the query service answers and whatever the two
    parameters are, the export sets its two headers, writes the header
    line, and ends the response, once and as the last thing it does:
    [requestedLimit] turns of its loop are always enough.  Every query
    asks for between 1 and 50 products, and there are at most
    [requestedLimit] queries.  When a query rejects, it is the last query
    and nothing is written for it: the route logs what the query rejected
    with and writes the error line of it last, just before it ends the
    response.  When the route logs and writes an error, its last query has
    rejected with it; when no query rejects, nothing is logged and no error
    line is written. *)
Theorem GET_always_ends_the_response
    (graph : Graph) (limit offset : option Z) (extra : nat) :
  let requestedLimit := orDefault limit 100 in
  let out := GET graph (Z.to_nat requestedLimit + extra) limit offset in
  ∃ body closing,
    out = [ SetHeader "Content-Type" "text/csv";
            SetHeader "Content-Disposition" "attachment; filename=products.csv";
            ResWrite (header +:+ newline) ] ++ body ++ closing ++ [ResEnd]
    ∧ Forall loopOutput body
    ∧ (closing = [] ∨ ∃ r, closing = [ConsoleError r; ResWrite (errorLine r)])
    ∧ (∀ i skip take r,
         queried body !! i = Some (skip, take) → graph i skip take = GraphRaised r →
         S i = length (queried body)
         ∧ last body = Some (QueryGraph skip take)
         ∧ closing = [ConsoleError r; ResWrite (errorLine r)])
    ∧ (closing ≠ [] →
       ∃ skip take r,
         last (queried body) = Some (skip, take)
         ∧ graph (length (queried body) - 1) skip take = GraphRaised r
         ∧ closing = [ConsoleError r; ResWrite (errorLine r)])
    ∧ Forall (fun q => (1 <= q.2 <= BATCH_SIZE)%Z) (queried body)
    ∧ length (queried body) ≤ Z.to_nat requestedLimit.
Proof.
  intros requestedLimit out. subst out. unfold GET. fold requestedLimit.
  destruct (exportLoop_ends graph (Z.to_nat requestedLimit + extra) 0 requestedLimit
              (orDefault offset 0) 0 ltac:(lia)) as (He & Hout & Hq & Hlen).
  destruct (exportLoop_rejections graph (Z.to_nat requestedLimit + extra) 0 requestedLimit
              (orDefault offset 0) 0) as [Hrej Hfail].
  destruct (exportLoop graph _ 0 requestedLimit _ 0) as [body e]. cbn [fst snd] in *.
  replace (requestedLimit - 0)%Z with requestedLimit in Hlen by lia.
  destruct e as [| r |]; [| | done].
  - exists body, []. split; [done |]. split; [done |]. split; [by left |].
    split; [| split; [done | done]].
    intros i skip take r Hi Hr. by destruct (Hrej i skip take r Hi Hr) as (_ & ? & _).
  - exists body, [ConsoleError r; ResWrite (errorLine r)].
    split; [done |]. split; [done |]. split; [right; by exists r |].
    split; [| split; [| done]].
    + intros i skip take r' Hi Hr'.
      destruct (Hrej i skip take r' Hi Hr') as (Hlast & [= ->] & Hend). done.
    + intros _. destruct (Hfail r eq_refl) as (skip & take & Hlast & Hg).
      exists skip, take, r. done.
Qed.

(** The statement for 120 products wanted from a query service that
    serves one query and rejects the second: the 50 rows of the first
    query are written, then the error is logged and its line written, and
    the response ends. *)
Lemma GET_always_ends_the_response_witness :
  queried (GET (graphDownAfter 120 1) 120 (Some 120%Z) None) = [(0, 50); (50, 50)]%Z
  ∧ length (written (GET (graphDownAfter 120 1) 120 (Some 120%Z) None)) = 52
  ∧ (∃ front, GET (graphDownAfter 120 1) 120 (Some 120%Z) None
        = front ++ [QueryGraph 50 50;
                    ConsoleError (RaisedError (mkError "connection lost"));
                    ResWrite (errorLine (RaisedError (mkError "connection lost")));
                    ResEnd])
  ∧ ∃ body closing,
      GET (graphDownAfter 120 1) 120 (Some 120%Z) None
      = [ SetHeader "Content-Type" "text/csv";
          SetHeader "Content-Disposition" "attachment; filename=products.csv";
          ResWrite (header +:+ newline) ] ++ body ++ closing ++ [ResEnd]
      ∧ Forall loopOutput body.
Proof.
  split; [vm_compute; reflexivity |]. split; [vm_compute; reflexivity |].
  split.
  { exists (firstn 54 (GET (graphDownAfter 120 1) 120 (Some 120%Z) None)).
    vm_compute. reflexivity. }
  destruct (GET_always_ends_the_response (graphDownAfter 120 1) (Some 120%Z) None 0)
    as (body & closing & Hout & Hbody & _).
  exists body, closing. split; [exact Hout | exact Hbody].
Defined.

(** X23. Against a query service that serves a fixed list of products,
    and for an offset that is not negative, the export writes the header
    line and then one row per product of the stretch of the list that
    starts at the offset and has as many products as are wanted (fewer when
    the list ends before), in the order of the list and in batches of at
    most 50, and ends the response.  Wanted are 100 products when the limit
    is missing or not a number and when it is zero, and as many as the
    limit says otherwise (none when it is negative); the stretch starts at
    the head of the list when the offset is missing or not a number. *)
Theorem GET_exports_the_requested_stretch
    (graph : Graph) (store : list ExportProduct) (limit offset : option Z) (extra : nat) :
  let wanted := match limit with
                | None => 100%Z
                | Some 0%Z => 100%Z
                | Some n => n
                end in
  let start := match offset with
               | None => 0%Z
               | Some n => n
               end in
  servesFrom graph store →
  (0 <= start)%Z →
  let out := GET graph (Z.to_nat wanted + extra) limit offset in
  written out
  = (header +:+ newline)
    :: map (fun product => rowOf product +:+ newline)
           (firstn (Z.to_nat wanted) (skipn (Z.to_nat start) store))
  ∧ last out = Some ResEnd.
Proof.
  intros wanted start Hgraph Hoff out. subst out. unfold GET.
  assert (Hwanted : orDefault limit 100 = wanted) by (by destruct limit as [[| |] |]).
  assert (Hstart : orDefault offset 0 = start) by (by destruct offset as [[| |] |]).
  rewrite Hwanted, Hstart.
  pose proof (exportLoop_serves graph store Hgraph (Z.to_nat wanted + extra) 0
                wanted start 0 Hoff ltac:(lia)) as Hrows.
  destruct (exportLoop_ends graph (Z.to_nat wanted + extra) 0 wanted start 0 ltac:(lia))
    as (Hend & _).
  pose proof (exportLoop_never_fails graph store Hgraph (Z.to_nat wanted + extra) 0
                wanted start 0) as Hok.
  destruct (exportLoop graph _ 0 wanted _ 0) as [body e]. cbn [fst snd] in *.
  destruct e; [| done | done].
  replace (wanted - 0)%Z with wanted in Hrows by lia.
  split.
  - rewrite !written_app, Hrows. cbn [written omap list_omap app]. by rewrite app_nil_r.
  - rewrite app_assoc. apply last_snoc.
Qed.

(** The statement on a store of 120 products for the limit 0 and the
    offset 10: a hundred rows are written, those of the products 11 to
    110, fetched by two queries of 50; and for a missing limit and a
    missing offset: the rows of the first hundred products. *)
Lemma GET_exports_the_requested_stretch_witness :
  servesFrom (serveStore (exportStore 120)) (exportStore 120)
  ∧ written (GET (serveStore (exportStore 120)) 100 (Some 0%Z) (Some 10%Z))
    = (header +:+ newline)
      :: map (fun product => rowOf product +:+ newline)
             (firstn 100 (skipn 10 (exportStore 120)))
  ∧ queried (GET (serveStore (exportStore 120)) 100 (Some 0%Z) (Some 10%Z))
    = [(10, 50); (60, 50)]%Z
  ∧ written (GET (serveStore (exportStore 120)) 100 None None)
    = (header +:+ newline)
      :: map (fun product => rowOf product +:+ newline) (firstn 100 (exportStore 120))
  ∧ last (GET (serveStore (exportStore 120)) 100 None None) = Some ResEnd.
Proof.
  assert (H : servesFrom (serveStore (exportStore 120)) (exportStore 120)) by done.
  split; [exact H |].
  destruct (GET_exports_the_requested_stretch (serveStore (exportStore 120)) (exportStore 120)
              (Some 0%Z) (Some 10%Z) 0 H ltac:(done)) as [Hrows _].
  destruct (GET_exports_the_requested_stretch (serveStore (exportStore 120)) (exportStore 120)
              None None 0 H ltac:(done)) as [Hrows' Hlast'].
  split; [exact Hrows |]. split; [vm_compute; reflexivity |].
  split; [exact Hrows' | exact Hlast'].
Defined.

(** X24. Against a query service that never answers with more products
    than a query asks for, the export writes at most [requestedLimit] rows
    besides the header line and the error line. *)
Theorem GET_writes_at_most_the_requested_rows
    (graph : Graph) (limit offset : option Z) (fuel : nat) :
  honoursTake graph →
  length (written (GET graph fuel limit offset)) ≤ Z.to_nat (orDefault limit 100) + 2.
Proof.
  intros Hgraph. unfold GET.
  pose proof (exportLoop_row_bound graph Hgraph fuel 0 (orDefault limit 100)
                (orDefault offset 0) 0) as Hrows.
  destruct (exportLoop graph fuel 0 _ _ 0) as [body e]. cbn [fst] in *.
  replace (orDefault limit 100 - 0)%Z with (orDefault limit 100) in Hrows by lia.
  rewrite !written_app, !length_app. destruct e; simpl; lia.
Qed.

(** The statement for a limit of 3 on a store of 120 products: the three
    rows are written, and no more. *)
Lemma GET_writes_at_most_the_requested_rows_witness :
  honoursTake (serveStore (exportStore 120))
  ∧ written (GET (serveStore (exportStore 120)) 3 (Some 3%Z) None)
    = (header +:+ newline)
      :: map (fun product => rowOf product +:+ newline) (firstn 3 (exportStore 120))
  ∧ length (written (GET (serveStore (exportStore 120)) 3 (Some 3%Z) None)) ≤ 5.
Proof.
  assert (H : honoursTake (serveStore (exportStore 120))).
  { intros n skip take products Htake [= <-]. rewrite length_firstn. lia. }
  split; [exact H |]. split; [vm_compute; reflexivity |].
  exact (GET_writes_at_most_the_requested_rows (serveStore (exportStore 120)) (Some 3%Z) None 3 H).
Defined.

End Route.

(** ** From the job to the workflow *)

Module ComposeFacts.
Import Js Model DailyProductSync BatchProducts JsFacts SplitFacts StatusFacts LinkFacts StepFacts.

(** *** A map built from entries goes by the last entry of a key *)

Section LastEntry.
Context `{Countable K} {V : Type}.

Lemma foldl_put_other (entries : list (K * V)) : ∀ (m : gmap K V) k,
  Forall (fun kv => kv.1 ≠ k) entries → foldl putEntry m entries !! k = m !! k.
Proof.
  induction entries as [| [k' v'] entries IH]; intros m k Hall; [done |].
  apply Forall_cons in Hall as [Hne Hall]. cbn [foldl]. rewrite IH by done.
  unfold putEntry. by apply lookup_insert_ne.
Qed.

Lemma Map_of_last (before after : list (K * V)) k v :
  Forall (fun kv => kv.1 ≠ k) after →
  Map_of (before ++ (k, v) :: after) !! k = Some v.
Proof.
  intros Hall. unfold Map_of. rewrite foldl_app. cbn [foldl].
  rewrite foldl_put_other by done. unfold putEntry. apply lookup_insert_eq.
Qed.

End LastEntry.

(** *** Deduplication keeps the first occurrences *)

Section UniqueMap.
Context `{EqDecision A} `{EqDecision B} (f : A → B).
Context (Hinj : ∀ x y, f x = f y → x = y).

Lemma Set_add_map seen x : Set_add (map f seen) (f x) = map f (Set_add seen x).
Proof.
  unfold Set_add. destruct (decide (x ∈ seen)) as [Hin | Hout].
  - rewrite decide_True by (by apply list_elem_of_fmap_2). done.
  - rewrite decide_False; [by rewrite map_app |].
    intros (y & Heq & Hy)%list_elem_of_fmap. apply Hinj in Heq. by subst y.
Qed.

Lemma unique_map l : unique (map f l) = map f (unique l).
Proof.
  unfold unique. change (@nil B) with (map f []). generalize (@nil A).
  induction l as [| x l IH]; intros seen; [done |].
  cbn [map foldl]. by rewrite Set_add_map, IH.
Qed.

End UniqueMap.

Lemma stringify_link_inj P B l l' :
  JSON_stringify_link P B l = JSON_stringify_link P B l' → l = l'.
Proof.
  intros Heq. assert (Some l = Some l') as [= ->]; [| done].
  by rewrite <- (parse_stringify_link P B l), Heq, parse_stringify_link.
Qed.

Lemma mapM_parse_stringify P B links :
  mapM (JSON_parse_link P B) (map (JSON_stringify_link P B) links) = Some links.
Proof.
  induction links as [| l links IH]; [done |].
  cbn [map]. simpl. rewrite parse_stringify_link. simpl. by rewrite IH.
Qed.

Lemma uniqueLinksOf_unique P B links : uniqueLinksOf P B links = Some (unique links).
Proof.
  unfold uniqueLinksOf.
  rewrite (unique_map (JSON_stringify_link P B) (stringify_link_inj P B)).
  apply mapM_parse_stringify.
Qed.

(** *** What the steps send *)

Lemma dtosSent_createProductsStep svc products categoryMap :
  dtosSent (createProductsStep svc products categoryMap).1
  = map (toCreateDTO categoryMap) products.
Proof.
  unfold createProductsStep. destruct products as [| p products]; [done |].
  cbn [length Nat.eqb]. unfold bind, call, ret.
  destruct (createProducts svc _); cbn [fst dtosSent flat_map app]; by rewrite ?app_nil_r.
Qed.

Lemma updatesSent_updateProductsStep svc updates categoryMap :
  updatesSent (updateProductsStep svc updates categoryMap).1
  = map (fun u => (u_id u, toUpdateData categoryMap u)) updates.
Proof.
  unfold updateProductsStep. destruct updates as [| u updates]; [done |].
  cbn [length Nat.eqb]. unfold bind, ret.
  pose proof (updatesSent_updateAll svc categoryMap (u :: updates)) as Hsent.
  destruct (updateAll svc categoryMap (u :: updates)) as [calls [results | e]];
    cbn [fst] in *; by rewrite ?app_nil_r.
Qed.

(** *** Finding the input item of a product *)

Lemma find_map {X Y} (f : Y → bool) (g : X → Y) (l : list X) :
  find f (map g l) = g <$> find (fun x => f (g x)) l.
Proof.
  induction l as [| x l IH]; [done |]. cbn [map find]. by destruct (f (g x)).
Qed.

Lemma find_related {X Y} (R : X → Y → Prop) (f : X → bool) (f' : Y → bool) l l' :
  Forall2 R l l' → (∀ x y, R x y → f' y = f x) →
  match find f l, find f' l' with
  | Some x, Some y => R x y
  | None, None => True
  | _, _ => False
  end.
Proof.
  intros Hall Hf. induction Hall as [| x y l l' Hxy _ IH]; [done |].
  cbn [find]. rewrite (Hf _ _ Hxy). by destruct (f x).
Qed.

Lemma find_same_id (l : list DummyProduct) p :
  p ∈ l →
  ∃ p', find (fun x => bool_decide (Some (toString (dp_id x)) = Some (toString (dp_id p)))) l
        = Some p'
        ∧ p' ∈ l ∧ dp_id p' = dp_id p.
Proof.
  intros Hin.
  destruct (find _ l) as [p' |] eqn:Hfind.
  - exists p'. split; [done |]. apply find_some in Hfind as [Hp' Heq].
    apply bool_decide_eq_true in Heq. injection Heq as Heq%toString_inj.
    split; [by apply list_elem_of_In | done].
  - exfalso. apply list_elem_of_In in Hin.
    pose proof (find_none _ _ Hfind p Hin) as Hno. cbv beta in Hno.
    by rewrite bool_decide_eq_true_2 in Hno.
Qed.

Lemma find_filter {X} (f : X → bool) (P : X → Prop) `{∀ x, Decision (P x)} (l : list X) :
  (∀ x, f x = true → P x) → find f (filter P l) = find f l.
Proof.
  intros Hf. induction l as [| x l IH]; [done |].
  destruct (decide (P x)) as [Hx | Hx].
  - rewrite filter_cons_True by done. cbn [find]. by rewrite IH.
  - rewrite filter_cons_False by done. cbn [find].
    destruct (f x) eqn:Hfx; [by apply Hf in Hfx | exact IH].
Qed.

Lemma Stored_same_id existingProducts (x p : DummyProduct) :
  dp_id x = dp_id p → Stored existingProducts x ↔ Stored existingProducts p.
Proof. unfold Stored. by intros ->. Qed.

End ComposeFacts.

Module Composition.
Import Js Model DailyProductSync BatchProducts JsFacts SplitFacts StatusFacts LinkFacts
       StepFacts ComposeFacts Samples.

(** X25. When two stored products carry the same external id, the update
    of the remote product with this id goes to the one that the product
    module listed last. *)
Theorem update_targets_the_last_stored_product
    (before after : list ProductDTO) (e : ProductDTO) (p : DummyProduct) :
  dto_external_id e = keyOf p →
  Forall (fun x => dto_external_id x ≠ keyOf p) after →
  existingMapOf (before ++ e :: after) !! keyOf p = Some e
  ∧ splitBatch (before ++ e :: after) [p] = ([], [updateEntryFor e p]).
Proof.
  intros He Hafter.
  assert (Hlook : existingMapOf (before ++ e :: after) !! keyOf p = Some e).
  { unfold existingMapOf. rewrite map_app. cbn [map]. rewrite He.
    apply Map_of_last. by apply Forall_fmap. }
  split; [exact Hlook |].
  unfold splitBatch. cbn [foldl]. unfold route. fold (keyOf p). by rewrite Hlook.
Qed.

(** The statement at two stored products with the external id 1. *)
Lemma update_targets_the_last_stored_product_witness :
  splitBatch [storedProduct "prod_a" "1"; storedProduct "prod_b" "1"]
             [sampleProduct 1 "Essence Mascara"]
  = ([], [updateEntryFor (storedProduct "prod_b" "1") (sampleProduct 1 "Essence Mascara")]).
Proof.
  refine (proj2 (update_targets_the_last_stored_product [storedProduct "prod_a" "1"] []
                   (storedProduct "prod_b" "1") (sampleProduct 1 "Essence Mascara") _ _)).
  - reflexivity.
  - constructor.
Defined.

(** X26. The list of links that the link step submits is the list of the
    links pushed with every later occurrence of a link left out: the first
    occurrences, in the order in which they were pushed.  The service is
    handed this list once, or is not called when there is no link. *)
Theorem linkProductBrandsStep_submits_first_occurrences
    (Modules_PRODUCT BRAND_MODULE : string) (svc : Services)
    (createdProducts updatedProducts : list ProductDTO)
    (brandMap : gmap string string)
    (originalCreateInput : list ProductInput) (originalUpdateInput : list UpdateInput) :
  let run := linkProductBrandsStep Modules_PRODUCT BRAND_MODULE svc
               createdProducts updatedProducts brandMap
               originalCreateInput originalUpdateInput in
  let pushed := linksPushed brandMap createdProducts updatedProducts
                  originalCreateInput originalUpdateInput in
  uniqueLinksOf Modules_PRODUCT BRAND_MODULE pushed = Some (unique pushed)
  ∧ linksSubmitted run.1
    = match unique pushed with
      | [] => []
      | uniqueLinks => [uniqueLinks]
      end.
Proof.
  intros run pushed. subst run. split; [apply uniqueLinksOf_unique |].
  unfold linkProductBrandsStep.
  fold (linksPushed brandMap createdProducts updatedProducts
          originalCreateInput originalUpdateInput). fold pushed.
  rewrite uniqueLinksOf_unique. destruct (unique pushed) as [| l us]; [done |].
  cbn [length Nat.ltb Nat.leb]. unfold bind, tryCatch, call, ret.
  by destruct (linkDismiss svc (l :: us)), (linkCreate svc (l :: us)).
Qed.

(** X27. What the create step and the update step send to the product
    module for the entries that the job builds carries the draft status,
    for the new products and for the stored ones alike: the update of a
    stored product sets its status to draft, whatever it was.  The two
    steps send one product per batch element. *)
Theorem synced_products_are_sent_as_drafts
    (svc : Services) (existingProducts : list ProductDTO) (batch : list DummyProduct)
    (categoryMap : gmap string string) :
  let createBatch := (splitBatch existingProducts batch).1 in
  let updateBatch := (splitBatch existingProducts batch).2 in
  Forall (fun dto => cp_status dto = DRAFT)
         (dtosSent (createProductsStep svc createBatch categoryMap).1)
  ∧ Forall (fun sent => ud_status sent.2 = Some DRAFT)
           (updatesSent (updateProductsStep svc updateBatch categoryMap).1)
  ∧ length (dtosSent (createProductsStep svc createBatch categoryMap).1)
    + length (updatesSent (updateProductsStep svc updateBatch categoryMap).1)
    = length batch.
Proof.
  intros createBatch updateBatch. subst createBatch updateBatch.
  rewrite dtosSent_createProductsStep, updatesSent_updateProductsStep, !length_map.
  split; [| split; [| apply splitBatch_length]].
  - rewrite splitBatch_creates. apply Forall_fmap, Forall_fmap, Forall_forall. by intros p _.
  - apply Forall_fmap.
    eapply (Forall2_Forall_r _ (fun u => ud_status (toUpdateData categoryMap u) = Some DRAFT));
      [apply splitBatch_updates |].
    apply Forall_forall. intros p _ u (e & _ & _ & ->). done.
Qed.

(** X28. The brand that the link step finds for a product is the brand of
    the remote product it came from: for a product that carries the
    external id of a batch element, [getBrandId] looks the brand up that
    the first batch element with this id names (no element before it in the
    batch has the id), among the create entries when no stored product
    carries the id and among the update entries otherwise. *)
Theorem getBrandId_finds_the_brand_of_the_source
    (brandMap : gmap string string) (existingProducts : list ProductDTO)
    (batch : list DummyProduct) (p : DummyProduct) (q : ProductDTO) :
  Forall plainBrand batch →
  p ∈ batch →
  dto_external_id q = Some (toString (dp_id p)) →
  let createBatch := (splitBatch existingProducts batch).1 in
  let updateBatch := (splitBatch existingProducts batch).2 in
  ∃ before p' after,
    batch = before ++ p' :: after
    ∧ Forall (fun x => dp_id x ≠ dp_id p) before
    ∧ dp_id p' = dp_id p
    ∧ (if decide (Stored existingProducts p)
       then getBrandId brandMap updateBatch q
       else getBrandId brandMap createBatch q) = brandIdFor brandMap p'.
Proof.
  intros _ Hin Hq createBatch updateBatch. subst createBatch updateBatch.
  set (f := fun x : DummyProduct =>
              bool_decide (Some (toString (dp_id x)) = Some (toString (dp_id p)))).
  assert (Hf : ∀ x, f x = true ↔ dp_id x = dp_id p).
  { intros x. unfold f. rewrite bool_decide_eq_true. split; [| by intros ->].
    intros [= Heq]. by apply toString_inj. }
  destruct (find_same_id _ p Hin) as (p' & Hfind & _ & Hid). fold f in Hfind.
  destruct (find_first _ _ _ Hfind) as (before & after & Hbatch & Hbefore & _).
  exists before, p', after. split; [exact Hbatch |]. split.
  { eapply Forall_impl; [exact Hbefore |]. intros x Hx Heq. apply Hf in Heq. congruence. }
  split; [exact Hid |].
  destruct (decide (Stored existingProducts p)) as [Hstored | Hnew].
  - assert (Hsame : find f (filter (Stored existingProducts) batch) = Some p').
    { rewrite find_filter; [exact Hfind |].
      intros x Hx%Hf. by apply (Stored_same_id existingProducts x p Hx). }
    assert (Hkey : ∀ x (u : UpdateInput), Targets existingProducts x u →
              bool_decide (input_external_id u = dto_external_id q) = f x).
    { intros x u (e & _ & _ & ->). rewrite Hq. unfold f. simpl. by rewrite lookup_singleton_eq. }
    pose proof (find_related _ _ _ _ _ (splitBatch_updates existingProducts batch) Hkey) as Hrel.
    rewrite Hsame in Hrel. unfold getBrandId.
    destruct (find _ (splitBatch existingProducts batch).2) as [u |]; [| done].
    destruct Hrel as (e & _ & _ & ->). done.
  - assert (Hsame : find f (filter (fun x => ¬ Stored existingProducts x) batch) = Some p').
    { rewrite find_filter; [exact Hfind |].
      intros x Hx%Hf. by rewrite (Stored_same_id existingProducts x p Hx). }
    rewrite splitBatch_creates. unfold getBrandId. rewrite find_map, Hq.
    assert (Hfeq : ∀ l, find (fun x => bool_decide (input_external_id (mapToMedusaFormat x)
                                                     = Some (toString (dp_id p)))) l
                        = find f l).
    { intros l. induction l as [| x l IH]; [done |]. cbn [find]. rewrite IH. unfold f.
      replace (input_external_id (mapToMedusaFormat x)) with (Some (toString (dp_id x)));
        [done |]. simpl. by rewrite lookup_singleton_eq. }
    rewrite Hfeq, Hsame. done.
Qed.

(** The statement at a batch in which two elements have the id 2 and name
    different brands: the product created under the external id 2 gets the
    brand of the first of them. *)
Lemma getBrandId_finds_the_brand_of_the_source_witness :
  Forall plainBrand [brandedProduct 1 "Acme"; brandedProduct 2 "Essence"; brandedProduct 2 "Nivea"]
  ∧ getBrandId {[ "Essence" := "brand_9"; "Nivea" := "brand_7" ]}
      (splitBatch [] [brandedProduct 1 "Acme"; brandedProduct 2 "Essence";
                      brandedProduct 2 "Nivea"]).1
      (storedProduct "prod_new" "2")
    = Some "brand_9"
  ∧ ∃ before p' after,
      [brandedProduct 1 "Acme"; brandedProduct 2 "Essence"; brandedProduct 2 "Nivea"]
      = before ++ p' :: after
      ∧ Forall (fun x => dp_id x ≠ 2%Z) before
      ∧ dp_id p' = 2%Z.
Proof.
  assert (H : Forall plainBrand [brandedProduct 1 "Acme"; brandedProduct 2 "Essence";
                                 brandedProduct 2 "Nivea"]).
  { apply (bool_decide_unpack _). vm_compute. exact I. }
  split; [exact H |]. split; [vm_compute; reflexivity |].
  destruct (getBrandId_finds_the_brand_of_the_source
              {[ "Essence" := "brand_9"; "Nivea" := "brand_7" ]} []
              [brandedProduct 1 "Acme"; brandedProduct 2 "Essence"; brandedProduct 2 "Nivea"]
              (brandedProduct 2 "Nivea") (storedProduct "prod_new" "2") H)
    as (before & p' & after & Hbatch & Hbefore & Hid & _).
  - apply list_elem_of_further, list_elem_of_further, list_elem_of_here.
  - reflexivity.
  - exists before, p', after. done.
Defined.

End Composition.

(** ** The category step when the creation fails *)

Module Fallback.
Import Js Model BatchProducts JsFacts DedupFacts StepFacts Samples.



End Fallback.
